(** * s3finder: a shallow embedding of the scan pipeline

  The development follows the Go packages of the repository:
  - [ratelimit]   the AIMD rate limiter ([AdaptiveLimiter]);
  - [permutation] the bucket-name generator and the S3 name filter;
  - [scanner]     the prober, the inspector and the per-name scan step;
  - [config] and the command [s3finder]: wordlist loading and name
    generation;
  - [ai], [recon] and [output]: reading the answer of the model, filtering
    the names of certificate logs, and the counts of the final report.
  Where the sources hold two revisions of a file, both are embedded, each
  in a module of its own that names the document it comes from.

  Go [float64] values are primitive binary64 floats, Go [int]/[int64]
  values are [Z] with the 64-bit wrap-around written out, Go strings are
  byte strings ([string]), and the [map[string]struct{}] sets of the
  generator are [gmap string unit]. *)

From Stdlib Require Import ZArith Ascii String DecimalString.
From Stdlib Require Import PrimFloat SpecFloat FloatOps FloatAxioms.
From stdpp Require Import base decidable list strings gmap.

Local Open Scope Z_scope.

(** ** Machine integers *)

Definition min_int64 : Z := - 2 ^ 63.
Definition max_int64 : Z := 2 ^ 63 - 1.

(** Two's-complement wrap-around of a 64-bit signed result. *)
Definition wrap64 (z : Z) : Z := (z + 2 ^ 63) mod 2 ^ 64 - 2 ^ 63.

(** Go's conversion [int(f)] of a [float64]: truncation toward zero.  The
  language leaves the result open when the value does not fit; the model
  returns what the amd64 conversion instruction yields there. *)
Definition trunc_float (f : float) : option Z :=
match Prim2SF f with
| S754_zero _ => Some 0
| S754_finite s m e =>
    let v := if 0 <=? e then Z.pos m * 2 ^ e else Z.pos m / 2 ^ (- e) in
    Some (if s then - v else v)
| S754_infinity _ | S754_nan => None
end.

Definition int_of_float (f : float) : Z :=
match trunc_float f with
| Some z => if (min_int64 <=? z) && (z <=? max_int64) then z else min_int64
| None => min_int64
end.

(** ** Package ratelimit ([src/unnamed/part_008]) *)

Module ratelimit.

(** The part of [rate.Limiter] that the adaptive limiter writes. *)
Record Limiter := mkLimiter {
  limit : float;
  burst : Z
}.

Record AdaptiveLimiter := mkAdaptiveLimiter {
  maxRPS : float;
  currentRPS : float;
  limiter : Limiter;
  consecutive429 : Z;
  successCount : Z
}.

Definition New (maxRPS : float) : AdaptiveLimiter :=
  let maxRPS := if PrimFloat.leb maxRPS 0 then 100%float else maxRPS in
  {| maxRPS := maxRPS;
     currentRPS := maxRPS;
     limiter := mkLimiter maxRPS (int_of_float maxRPS);
     consecutive429 := 0;
     successCount := 0 |}.

(** [a.currentRPS.Store(newRPS); a.limiter.SetLimit(..); a.limiter.SetBurst(..)] *)
Definition setRate (a : AdaptiveLimiter) (newRPS : float) : AdaptiveLimiter :=
  {| maxRPS := maxRPS a;
     currentRPS := newRPS;
     limiter := mkLimiter newRPS (int_of_float newRPS);
     consecutive429 := consecutive429 a;
     successCount := successCount a |}.

Definition setCounters (a : AdaptiveLimiter) (c429 succ : Z) : AdaptiveLimiter :=
  {| maxRPS := maxRPS a;
     currentRPS := currentRPS a;
     limiter := limiter a;
     consecutive429 := c429;
     successCount := succ |}.

(** The multiplicative decrease of the rate, floored at 10 RPS. *)
Definition decreased (current : float) : float :=
  let newRPS := (current * 0.5)%float in
  if PrimFloat.ltb newRPS 10 then 10%float else newRPS.

(** The increase of the rate by the factor 1.1, capped at the ceiling.  The
  literal is the binary64 value nearest to 1.1, which is what the Go
  constant [1.1] denotes in [current * 1.1]. *)
Definition increased (current ceiling : float) : float :=
  let newRPS := (current * 0x1.199999999999ap+0)%float in
  if PrimFloat.ltb ceiling newRPS then ceiling else newRPS.

Definition RecordResponse (a : AdaptiveLimiter) (statusCode : Z) : AdaptiveLimiter :=
  let current := currentRPS a in
  if (statusCode =? 429) || (statusCode =? 503) then
    let a := setCounters a (wrap64 (consecutive429 a + 1)) 0 in
    if 3 <=? consecutive429 a then
      setCounters (setRate a (decreased current)) 0 (successCount a)
    else a
  else
    let a := setCounters a 0 (wrap64 (successCount a + 1)) in
    if (100 <=? successCount a) && PrimFloat.ltb current (maxRPS a) then
      setCounters (setRate a (increased current (maxRPS a))) (consecutive429 a) 0
    else a.

Definition CurrentRPS (a : AdaptiveLimiter) : float := currentRPS a.
Definition MaxRPS (a : AdaptiveLimiter) : float := maxRPS a.

(** A run of [RecordResponse] calls, oldest first. *)
Definition RecordAll (a : AdaptiveLimiter) (codes : list Z) : AdaptiveLimiter :=
  foldl RecordResponse a codes.

End ratelimit.

(** ** Go's [strings] package, on byte strings *)

(** Every byte of [s] satisfies [p]. *)
Fixpoint allBytes (p : ascii -> bool) (s : string) : bool :=
match s with
| "" => true
| String c s' => p c && allBytes p s'
end.

(** [strings.HasPrefix(s, prefix)] *)
Fixpoint HasPrefix (s prefix : string) : bool :=
match prefix, s with
| "", _ => true
| String p prefix', String c s' => if decide (c = p) then HasPrefix s' prefix' else false
| String _ _, "" => false
end.

(** [strings.Contains(s, substr)] *)
Fixpoint Contains (s substr : string) : bool :=
HasPrefix s substr ||
match s with
| "" => false
| String _ s' => Contains s' substr
end.

(** [strings.Split(s, sep)] for a one-byte separator: the pieces between
  the separators, so [n] separators give [n + 1] pieces. *)
Fixpoint Split (s : string) (sep : ascii) : list string :=
match s with
| "" => [""]
| String c s' =>
    if decide (c = sep) then "" :: Split s' sep
    else match Split s' sep with
         | part :: parts => String c part :: parts
         | [] => [String c ""]
         end
end.

(** [strings.Join(parts, sep)] for a one-byte separator. *)
Fixpoint Join (parts : list string) (sep : ascii) : string :=
match parts with
| [] => ""
| [part] => part
| part :: parts' => part +:+ String sep (Join parts' sep)
end.

(** [strings.ReplaceAll(s, old, new)] for a one-byte [old]. *)
Fixpoint ReplaceAll (s : string) (old : ascii) (new : string) : string :=
match s with
| "" => ""
| String c s' =>
    if decide (c = old) then new +:+ ReplaceAll s' old new
    else String c (ReplaceAll s' old new)
end.

(** [strings.ToLower] and [strings.TrimSpace] are Unicode-aware library
  functions; the generator is stated over any implementation of them. *)
Class Strings := {
  ToLower : string -> string;
  TrimSpace : string -> string
}.

(** Their behaviour on ASCII text, used to run the generator on examples. *)
Definition lowerByte (c : ascii) : ascii :=
if (("A" <=? c) && (c <=? "Z"))%char
then ascii_of_N (N_of_ascii c + 32) else c.

Fixpoint mapBytes (f : ascii -> ascii) (s : string) : string :=
match s with
| "" => ""
| String c s' => String (f c) (mapBytes f s')
end.

Fixpoint trimLeft (s : string) : string :=
match s with
| String c s' => if Ascii.is_space c then trimLeft s' else s
| "" => ""
end.

Definition asciiTrimSpace (s : string) : string :=
String.rev (trimLeft (String.rev (trimLeft s))).

Definition asciiStrings : Strings :=
{| ToLower := mapBytes lowerByte; TrimSpace := asciiTrimSpace |}.

(** ** Go's [regexp] package: the fragment the name filter uses *)

Module regexp.

(** A byte class, a bounded repetition of a byte class, and sequencing. *)
Inductive Regexp :=
| Class (p : ascii -> bool)
| Repeat (min max : nat) (p : ascii -> bool)
| Seq (r1 r2 : Regexp).

(** The suffixes left after [p{min,max}] has consumed a prefix of [s]. *)
Fixpoint runRepeat (p : ascii -> bool) (min max : nat) (s : string) : list string :=
(match min with O => [s] | S _ => [] end) ++
match max, s with
| S max', String c s' => if p c then runRepeat p (Nat.pred min) max' s' else []
| _, _ => []
end.

(** The suffixes left after [r] has matched a prefix of [s]. *)
Fixpoint run (r : Regexp) (s : string) : list string :=
match r with
| Class p =>
    match s with
    | String c s' => if p c then [s'] else []
    | "" => []
    end
| Repeat min max p => runRepeat p min max s
| Seq r1 r2 => concat (map (run r2) (run r1 s))
end.

(** [MatchString] of the pattern [^r$]: some run consumes all of [s]. *)
Definition MatchString (r : Regexp) (s : string) : bool :=
existsb (fun rest => bool_decide (rest = "")) (run r s).

End regexp.

(** ** Package permutation ([src/pkg/permutation/engine.go]) *)

Module permutation.

Definition isDigit (c : ascii) : bool := (("0" <=? c) && (c <=? "9"))%char.
Definition isLower (c : ascii) : bool := (("a" <=? c) && (c <=? "z"))%char.

(** [[a-z0-9]] *)
Definition alnum (c : ascii) : bool := isLower c || isDigit c.

(** [[a-z0-9.-]] *)
Definition nameByte (c : ascii) : bool :=
alnum c || bool_decide (c = "."%char) || bool_decide (c = "-"%char).

(** [^[a-z0-9][a-z0-9.-]{1,61}[a-z0-9]$] *)
Definition validBucketName : regexp.Regexp :=
regexp.Seq (regexp.Class alnum)
  (regexp.Seq (regexp.Repeat 1 61 nameByte) (regexp.Class alnum)).

Definition isIPAddress (s : string) : bool :=
let parts := Split s "." in
if negb (length parts =? 4)%nat then false
else forallb (fun part =>
       if (String.length part =? 0)%nat || (3 <? String.length part)%nat then false
       else allBytes isDigit part) parts.

Definition IsValidBucketName (name : string) : bool :=
if (String.length name <? 3)%nat || (63 <? String.length name)%nat then false
else if isIPAddress name then false
else if Contains name ".." then false
else regexp.MatchString validBucketName name.

Record Engine := mkEngine {
  Suffixes : list string;
  Prefixes : list string;
  Separators : list string;
  Years : list string;
  Regions : list string
}.

Definition Default : Engine :=
{| Suffixes := [
     ""; "-dev"; "-prod"; "-staging"; "-backup"; "-backups";
     "-logs"; "-assets"; "-internal"; "-public"; "-private";
     "-data"; "-files"; "-media"; "-static"; "-cdn";
     "-api"; "-web"; "-app"; "-test"; "-temp";
     "-archive"; "-old"; "-new"; "-v2"; "-beta" ];
   Prefixes := [
     ""; "dev-"; "prod-"; "staging-"; "backup-"; "test-";
     "internal-"; "public-"; "private-"; "temp-"; "old-" ];
   Separators := ["-"; "."];
   Years := [
     ""; "-2022"; "-2023"; "-2024"; "-2025";
     "-22"; "-23"; "-24"; "-25" ];
   Regions := [
     ""; "-us-east-1"; "-us-east-2"; "-us-west-1"; "-us-west-2";
     "-eu-west-1"; "-eu-west-2"; "-eu-central-1";
     "-ap-south-1"; "-ap-northeast-1"; "-ap-southeast-1" ] |}.

(** The closure state of [add]: the [seen] map and the [results] slice. *)
Record Acc := mkAcc {
  seen : gmap string unit;
  results : list string
}.

Definition emptyAcc : Acc := mkAcc ∅ [].

Definition add (st : Acc) (name : string) : Acc :=
let ok := bool_decide (is_Some (seen st !! name)) in
if negb ok && IsValidBucketName name
then mkAcc (<[name := ()]> (seen st)) (results st ++ [name])
else st.

(** [for _, x := range xs { body }] over the closure state. *)
Definition forRange {A} (xs : list A) (body : Acc -> A -> Acc) (st : Acc) : Acc :=
foldl body st xs.

Section Generator.
Context `{Strings}.

Definition Generate (e : Engine) (seed : string) : list string :=
let seed := ToLower (TrimSpace seed) in
if bool_decide (seed = "") then []
else
  let st := emptyAcc in
  let st := add st seed in
  let st := forRange (Prefixes e) (fun st prefix => add st (prefix +:+ seed)) st in
  let st := forRange (Suffixes e) (fun st suffix => add st (seed +:+ suffix)) st in
  let st := forRange (Prefixes e) (fun st prefix =>
              forRange (Suffixes e) (fun st suffix =>
                add st ((prefix +:+ seed) +:+ suffix)) st) st in
  let st := forRange (Years e) (fun st year => add st (seed +:+ year)) st in
  let st := forRange (Suffixes e) (fun st suffix =>
              forRange (Years e) (fun st year =>
                add st ((seed +:+ suffix) +:+ year)) st) st in
  let st := forRange (Regions e) (fun st region => add st (seed +:+ region)) st in
  let st := forRange (Suffixes e) (fun st suffix =>
              forRange (Regions e) (fun st region =>
                add st ((seed +:+ suffix) +:+ region)) st) st in
  let st := forRange (Separators e) (fun st sep =>
              if bool_decide (sep ≠ "-") then
                let variant := ReplaceAll seed "-" sep in
                if bool_decide (variant ≠ seed) then
                  let st := add st variant in
                  forRange (Suffixes e) (fun st suffix => add st (variant +:+ suffix)) st
                else st
              else st) st in
  results st.

Definition GenerateFromWordlist (e : Engine) (words : list string) (seed : string)
  : list string :=
let seed := ToLower (TrimSpace seed) in
let st := emptyAcc in
let st := forRange words (fun st word =>
  let word := ToLower (TrimSpace word) in
  if bool_decide (word = "") then st
  else
    let st := add st word in
    let st :=
      if bool_decide (seed ≠ "") then
        let st := add st ((seed +:+ "-") +:+ word) in
        let st := add st ((word +:+ "-") +:+ seed) in
        let st := add st ((seed +:+ ".") +:+ word) in
        add st ((word +:+ ".") +:+ seed)
      else st in
    let st := forRange (Suffixes e) (fun st suffix =>
                let st := add st (word +:+ suffix) in
                if bool_decide (seed ≠ "") then add st (((seed +:+ "-") +:+ word) +:+ suffix)
                else st) st in
    forRange (Years e) (fun st year =>
      let st := add st (word +:+ year) in
      if bool_decide (seed ≠ "") then add st (((seed +:+ "-") +:+ word) +:+ year)
      else st) st) st in
results st.

End Generator.

End permutation.

Module permutation_spec.
Import permutation.

(** A group of one to three decimal digits. *)
Definition digitGroup (g : string) : Prop :=
  (1 <= String.length g <= 3)%nat /\ allBytes isDigit g = true.

(** Exactly four dot-separated digit groups (IPv4 shape). *)
Definition dottedQuad (s : string) : Prop :=
  exists g1 g2 g3 g4,
    s = g1 +:+ "." +:+ g2 +:+ "." +:+ g3 +:+ "." +:+ g4
    /\ digitGroup g1 /\ digitGroup g2 /\ digitGroup g3 /\ digitGroup g4.

(** The string contains [..]. *)
Definition hasDoubleDot (s : string) : Prop :=
  exists pre post, s = pre +:+ ".." +:+ post.

(** The string matches [^[a-z0-9][a-z0-9.-]{1,61}[a-z0-9]$]: a first and a
  last byte in [[a-z0-9]] around 1 to 61 bytes in [[a-z0-9.-]]. *)
Definition matchesPattern (s : string) : Prop :=
  exists a mid z,
    s = String a (mid +:+ String z "")
    /\ alnum a = true
    /\ (1 <= String.length mid <= 61)%nat /\ allBytes nameByte mid = true
    /\ alnum z = true.

(** The validation rule as the specification words it. *)
Definition ValidName (s : string) : Prop :=
  (3 <= String.length s <= 63)%nat
  /\ matchesPattern s /\ ~ hasDoubleDot s /\ ~ dottedQuad s.

(** The names [Generate] passes to [add], in program order. *)
Definition candidates (e : Engine) (seed : string) : list string :=
  [seed]
  ++ map (fun prefix => prefix +:+ seed) (Prefixes e)
  ++ map (fun suffix => seed +:+ suffix) (Suffixes e)
  ++ concat (map (fun prefix =>
       map (fun suffix => (prefix +:+ seed) +:+ suffix) (Suffixes e)) (Prefixes e))
  ++ map (fun year => seed +:+ year) (Years e)
  ++ concat (map (fun suffix =>
       map (fun year => (seed +:+ suffix) +:+ year) (Years e)) (Suffixes e))
  ++ map (fun region => seed +:+ region) (Regions e)
  ++ concat (map (fun suffix =>
       map (fun region => (seed +:+ suffix) +:+ region) (Regions e)) (Suffixes e))
  ++ concat (map (fun sep =>
       if bool_decide (sep ≠ "-") then
         let variant := ReplaceAll seed "-" sep in
         if bool_decide (variant ≠ seed)
         then variant :: map (fun suffix => variant +:+ suffix) (Suffixes e)
         else []
       else []) (Separators e)).

(** The names [GenerateFromWordlist] passes to [add] for one normalised
  word: the word, its seed combinations, its suffix and year expansions. *)
Definition wordCandidates (e : Engine) (seed word : string) : list string :=
  [word]
  ++ (if bool_decide (seed ≠ "") then
        [(seed +:+ "-") +:+ word; (word +:+ "-") +:+ seed;
         (seed +:+ ".") +:+ word; (word +:+ ".") +:+ seed]
      else [])
  ++ concat (map (fun suffix =>
       (word +:+ suffix) ::
       (if bool_decide (seed ≠ "") then [((seed +:+ "-") +:+ word) +:+ suffix] else []))
       (Suffixes e))
  ++ concat (map (fun year =>
       (word +:+ year) ::
       (if bool_decide (seed ≠ "") then [((seed +:+ "-") +:+ word) +:+ year] else []))
       (Years e)).

Definition wordlistCandidates `{Strings} (e : Engine) (words : list string)
    (seed : string) : list string :=
  concat (map (fun word =>
    let word := ToLower (TrimSpace word) in
    if bool_decide (word = "") then [] else wordCandidates e seed word) words).

(** "A running set keyed by exact string; first insertion wins, preserving
  insertion order": of a sequence of names, keep those that pass the filter
  [ok] and do not occur earlier in the sequence, in the order they come. *)
Fixpoint keepFirst (ok : string -> bool) (earlier names : list string) : list string :=
  match names with
  | [] => []
  | x :: names' =>
      (if ok x && bool_decide (x ∉ earlier) then [x] else [])
      ++ keepFirst ok (earlier ++ [x]) names'
  end.

Definition keepFirstValid : list string -> list string -> list string :=
  keepFirst IsValidBucketName.

(** The shape of the [add] closures: a name enters once, if it passes [ok]. *)
Definition addIf (ok : string -> bool) (st : Acc) (name : string) : Acc :=
  if negb (bool_decide (is_Some (seen st !! name))) && ok name
  then mkAcc (<[name := ()]> (seen st)) (results st ++ [name])
  else st.

(** The [seen] map holds exactly the accepted names among those met so far. *)
Definition tracks (ok : string -> bool) (st : Acc) (earlier : list string) : Prop :=
  forall x, is_Some (seen st !! x) <-> x ∈ earlier /\ ok x = true.

End permutation_spec.

(** ** Package ratelimit, the revision with a network-failure profile

  The second document of [src/pkg/permutation/engine_test.go] holds a later
  revision of [RecordResponse] that also reacts to status 0. *)

Module ratelimit_netfail.
Import ratelimit.

Definition RecordResponse (a : AdaptiveLimiter) (statusCode : Z) : AdaptiveLimiter :=
  let current := currentRPS a in
  if (statusCode =? 429) || (statusCode =? 503) || (statusCode =? 0) then
    let a := setCounters a (wrap64 (consecutive429 a + 1)) 0 in
    (* 0x1.3333333333333p-2 is the binary64 value nearest to 0.3 *)
    let decreaseFactor :=
      if statusCode =? 0 then 0x1.3333333333333p-2%float else 0.5%float in
    let threshold := if statusCode =? 0 then 1 else 3 in
    if threshold <=? consecutive429 a then
      let newRPS := (current * decreaseFactor)%float in
      let newRPS := if PrimFloat.ltb newRPS 5 then 5%float else newRPS in
      setCounters (setRate a newRPS) 0 (successCount a)
    else a
  else
    let a := setCounters a 0 (wrap64 (successCount a + 1)) in
    if (100 <=? successCount a) && PrimFloat.ltb current (maxRPS a) then
      setCounters (setRate a (increased current (maxRPS a))) (consecutive429 a) 0
    else a.

End ratelimit_netfail.

(** ** Package scanner: the prober ([src/pkg/scanner/prober.go]) *)

Module prober.

Inductive ProbeResult :=
| BucketNotFound
| BucketExists
| BucketForbidden
| BucketError.

#[global] Instance ProbeResult_eq_dec : EqDecision ProbeResult.
Proof. solve_decision. Defined.

Definition ProbeResult_String (r : ProbeResult) : string :=
  match r with
  | BucketNotFound => "not_found"
  | BucketExists => "public"
  | BucketForbidden => "private"
  | BucketError => "error"
  end.

(** A Go [error] value: [None] is [nil], [Some msg] carries the message. *)
Definition error := option string.

Record ProbeResponse := mkProbeResponse {
  Bucket : string;
  Result : ProbeResult;
  StatusCode : Z;
  Error : error
}.

(** What one pass of the retry loop meets: the limiter's [Wait] fails, the
  request cannot be built, the transport fails, or a response arrives. *)
Inductive Attempt :=
| WaitFails (err : string)
| NewRequestFails (err : string)
| DoFails (err : string)
| Responds (status : Z).

(** [fmt.Sprintf("%d", n)] *)
Definition formatInt (n : Z) : string := NilZero.string_of_int (Z.to_int n).

Definition maxRetries : Z := 2.

Definition withResult (resp : ProbeResponse) (r : ProbeResult) (e : error)
  : ProbeResponse :=
  {| Bucket := Bucket resp; Result := r; StatusCode := StatusCode resp; Error := e |}.

Definition withStatusCode (resp : ProbeResponse) (code : Z) : ProbeResponse :=
  {| Bucket := Bucket resp; Result := Result resp; StatusCode := code;
     Error := Error resp |}.

(** The [switch httpResp.StatusCode] that ends a probe. *)
Definition switchStatus (resp : ProbeResponse) (status : Z) : ProbeResponse :=
  if status =? 200 then withResult resp BucketExists (Error resp)
  else if status =? 403 then withResult resp BucketForbidden (Error resp)
  else if status =? 404 then withResult resp BucketNotFound (Error resp)
  else if (status =? 301) || (status =? 307)
       then withResult resp BucketForbidden (Error resp)
  else withResult resp BucketError
         (Some ("unexpected status code: " +:+ formatInt status)).

Section Check.
(** [p.limiter.RecordResponse], of either revision of the limiter. *)
Variable RecordResponse : ratelimit.AdaptiveLimiter -> Z -> ratelimit.AdaptiveLimiter.

(** The loop [for attempt := 0; attempt <= maxRetries; attempt++] with
  [remaining] passes left; [client attempt] is what pass [attempt] meets.
  The sleep before a retry only delays the next pass. *)
Fixpoint attempts (remaining : nat) (attempt : Z) (client : Z -> Attempt)
    (limiter : ratelimit.AdaptiveLimiter) (resp : ProbeResponse)
  : ProbeResponse * ratelimit.AdaptiveLimiter :=
  match remaining with
  | O => (resp, limiter)
  | S remaining' =>
      match client attempt with
      | WaitFails err => (withResult resp BucketError (Some err), limiter)
      | NewRequestFails err => (withResult resp BucketError (Some err), limiter)
      | DoFails err =>
          if attempt <? maxRetries then
            attempts remaining' (attempt + 1) client limiter resp
          else
            (withResult resp BucketError (Some ("network error: " +:+ err)),
             RecordResponse limiter 0)
      | Responds status =>
          if (500 <=? status) && (attempt <? maxRetries) then
            attempts remaining' (attempt + 1) client
              (RecordResponse limiter status) resp
          else
            let resp := withStatusCode resp status in
            let limiter := RecordResponse limiter status in
            (switchStatus resp status, limiter)
      end
  end.

Definition Check (client : Z -> Attempt) (limiter : ratelimit.AdaptiveLimiter)
    (bucket : string) : ProbeResponse * ratelimit.AdaptiveLimiter :=
  let resp := {| Bucket := bucket; Result := BucketNotFound; StatusCode := 0;
                 Error := None |} in
  attempts (Z.to_nat (maxRetries + 1)) 0 client limiter resp.

End Check.

End prober.

(** ** Package scanner: the inspector *)

(** The S3 answers the inspector reads. *)
Module s3.

Record ListObjectsV2Output := mkListObjectsV2Output {
  Contents : list (option string);
  IsTruncated : option bool;
  KeyCount : option Z
}.

Inductive ListResult :=
| ListFails (err : string)
| Listed (output : ListObjectsV2Output).

End s3.

Module inspector_common.

Record InspectResult := mkInspectResult {
  Bucket : string;
  Exists : bool;
  IsPublic : bool;
  ACL : string;
  Region : string;
  ObjectCount : Z;
  SampleKeys : list string;
  Error : string;
  Timestamp : Z
}.

(** What [checkPublicAccess] returns. *)
Record Access := mkAccess {
  isPublic : bool;
  acl : string;
  objects : list string;
  count : Z
}.

Definition regions : list string := [
  "us-east-1"; "us-east-2"; "us-west-1"; "us-west-2";
  "eu-west-1"; "eu-west-2"; "eu-west-3"; "eu-central-1";
  "ap-south-1"; "ap-northeast-1"; "ap-northeast-2"; "ap-southeast-1"; "ap-southeast-2";
  "sa-east-1"; "ca-central-1" ].

Fixpoint firstContained (errMsg : string) (rs : list string) : option string :=
  match rs with
  | [] => None
  | r :: rs' => if Contains errMsg r then Some r else firstContained errMsg rs'
  end.

Definition parseRegionFromError (errMsg : string) : string :=
  match firstContained errMsg regions with
  | Some r => r
  | None => "us-east-1"
  end.

(** The loop that gathers up to ten sample keys. *)
Fixpoint collectKeys (contents : list (option string)) (keys : list string)
  : list string :=
  match contents with
  | [] => keys
  | None :: rest => collectKeys rest keys
  | Some key :: rest =>
      let keys := keys ++ [key] in
      if (10 <=? length keys)%nat then keys else collectKeys rest keys
  end.

Definition truncated (output : s3.ListObjectsV2Output) : bool :=
  match s3.IsTruncated output with
  | Some b => b
  | None => false
  end.

End inspector_common.

(** The inspector of [src/unnamed/part_009]: the region comes from a HEAD
  request, and the list attempt can be retried in another region. *)
Module inspector.
Export inspector_common.

(** The network as the inspector sees it.  [head bucket] is the
  [x-amz-bucket-region] header of the HEAD response ([Some ""] when the
  header is absent, [None] when the request fails); [loadConfig region]
  tells whether the SDK configuration loads; [listObjectsV2 n region] is the
  answer to the list call number [n] (from 0), made against [region]. *)
Record Network := mkNetwork {
  head : string -> option string;
  loadConfig : string -> bool;
  listObjectsV2 : nat -> string -> s3.ListResult
}.

Definition getBucketRegion (net : Network) (bucket : string) : string * prober.error :=
  match head net bucket with
  | None => ("us-east-1", None)
  | Some region =>
      if bool_decide (region ≠ "") then (region, None) else ("us-east-1", None)
  end.

(** One activation of [checkPublicAccessWithRetry]; [self] stands for the
  recursive call, and [calls] logs the regions of the list calls made. *)
Definition checkPublicAccessWithRetry_body
    (self : string -> list string -> Access * list string)
    (net : Network) (region : string) (retried : bool) (calls : list string)
  : Access * list string :=
  let region :=
    if bool_decide (region = "") || bool_decide (region = "unknown")
    then "us-east-1" else region in
  if negb (loadConfig net region) then (mkAccess false "unknown" [] (-1), calls)
  else
    let answer := listObjectsV2 net (length calls) region in
    let calls := calls ++ [region] in
    match answer with
    | s3.ListFails errStr =>
        let fallThrough :=
          if Contains errStr "AccessDenied" then (mkAccess false "private" [] (-1), calls)
          else if Contains errStr "AllAccessDisabled"
               then (mkAccess false "disabled" [] (-1), calls)
          else (mkAccess false "unknown" [] (-1), calls) in
        if negb retried &&
           (Contains errStr "BucketRegionError" ||
            Contains errStr "PermanentRedirect" ||
            Contains errStr "please use the correct region")
        then
          let correctRegion := parseRegionFromError errStr in
          if bool_decide (correctRegion ≠ "") && bool_decide (correctRegion ≠ region)
          then self correctRegion calls
          else fallThrough
        else fallThrough
    | s3.Listed output =>
        let keys := collectKeys (s3.Contents output) [] in
        let count := Z.of_nat (length (s3.Contents output)) in
        let count := if truncated output then -2 else count in
        (mkAccess true "public-read" keys count, calls)
    end.

(** The recursion is one level deep: the inner activation runs with
  [retried = true] and cannot recurse again. *)
Definition checkPublicAccessWithRetry (net : Network) (region : string)
    (retried : bool) (calls : list string) : Access * list string :=
  checkPublicAccessWithRetry_body
    (fun region calls =>
       checkPublicAccessWithRetry_body (fun _ calls => (mkAccess false "unknown" [] (-1), calls))
         net region true calls)
    net region retried calls.

Definition checkPublicAccess (net : Network) (region : string)
    (calls : list string) : Access * list string :=
  checkPublicAccessWithRetry net region false calls.

Definition Inspect (net : Network) (now : Z) (bucket : string)
  : InspectResult * list string :=
  let '(region, err) := getBucketRegion net bucket in
  let '(resultError, resultRegion) :=
    match err with
    | Some e => ("region lookup failed: " +:+ e, "unknown")
    | None => ("", region)
    end in
  let '(access, calls) := checkPublicAccess net region [] in
  ({| Bucket := bucket;
      Exists := true;
      IsPublic := isPublic access;
      ACL := acl access;
      Region := resultRegion;
      ObjectCount := count access;
      SampleKeys := objects access;
      Error := resultError;
      Timestamp := now |}, calls).

End inspector.

(** The inspector of [src/pkg/scanner/inspector.go]: the region comes from
  [GetBucketLocation], and the list attempt is made once. *)
Module inspector_location.
Export inspector_common.

(** [loadConfig region] is [None] when the SDK configuration loads and the
  error otherwise; [getBucketLocation] is the location constraint or the
  error; [listObjectsV2 region] is the answer to the list call. *)
Record Network := mkNetwork {
  loadConfig : string -> prober.error;
  getBucketLocation : string + string;
  listObjectsV2 : string -> s3.ListResult
}.

Definition getBucketRegion (net : Network) : string * prober.error :=
  match loadConfig net "us-east-1" with
  | Some err => ("", Some err)
  | None =>
      match getBucketLocation net with
      | inr err =>
          if Contains err "PermanentRedirect" then (parseRegionFromError err, None)
          else ("us-east-1", None)
      | inl location =>
          if bool_decide (location = "") then ("us-east-1", None) else (location, None)
      end
  end.

(** [None] is the run-time panic of dereferencing a nil [KeyCount]. *)
Definition checkPublicAccess (net : Network) (region : string) : option Access :=
  let region :=
    if bool_decide (region = "") || bool_decide (region = "unknown")
    then "us-east-1" else region in
  match loadConfig net region with
  | Some _ => Some (mkAccess false "unknown" [] (-1))
  | None =>
      match listObjectsV2 net region with
      | s3.ListFails err =>
          if Contains err "AccessDenied" then Some (mkAccess false "private" [] (-1))
          else if Contains err "AllAccessDisabled"
               then Some (mkAccess false "disabled" [] (-1))
          else Some (mkAccess false "unknown" [] (-1))
      | s3.Listed output =>
          let keys := collectKeys (s3.Contents output) [] in
          match s3.KeyCount output with
          | None => None
          | Some keyCount =>
              let count := if truncated output then -2 else keyCount in
              Some (mkAccess true "public-read" keys count)
          end
      end
  end.

Definition Inspect (net : Network) (now : Z) (bucket : string) : option InspectResult :=
  let '(region, err) := getBucketRegion net in
  let '(resultError, resultRegion) :=
    match err with
    | Some e => ("region lookup failed: " +:+ e, "unknown")
    | None => ("", region)
    end in
  match checkPublicAccess net region with
  | None => None
  | Some access =>
      Some {| Bucket := bucket;
              Exists := true;
              IsPublic := isPublic access;
              ACL := acl access;
              Region := resultRegion;
              ObjectCount := count access;
              SampleKeys := objects access;
              Error := resultError;
              Timestamp := now |}
  end.

End inspector_location.

(** ** Package scanner: the orchestrator ([src/pkg/scanner/scanner.go]) *)

Module scanner.
Export prober.

Record ScanResult := mkScanResult {
  SR_Bucket : string;
  Probe : ProbeResult;
  Inspect : option inspector_common.InspectResult;
  SR_Timestamp : Z
}.

Record Stats := mkStats {
  Total : Z;
  Scanned : Z;
  Found : Z;
  Public : Z;
  Private : Z;
  Errors : Z;
  StartTime : Z
}.

(** The scanner's mutable state.  [limiter] is the state of the prober's
  rate limiter; [resultsChan] lists what has been sent on the results
  channel, oldest first. *)
Record Scanner := mkScanner {
  limiter : ratelimit.AdaptiveLimiter;
  workers : Z;
  deepInspect : bool;
  stats : Stats;
  resultsChan : list ScanResult
}.

(** What the outside world does while one name is processed.  [ctxDone]
  tells that the context is cancelled; a [select] between [ctx.Done()] and a
  channel operation takes the channel operation when the context is live,
  and either branch when it is cancelled: [pickDone] is the branch taken
  then. *)
Record World := mkWorld {
  client : Z -> Attempt;
  inspect : string -> inspector_common.InspectResult;
  now : Z;
  ctxDone : bool;
  pickDoneOnReceive : bool;
  pickDoneOnSend : bool
}.

(** The worker's [select] on the names channel returns. *)
Definition stops (w : World) : bool := ctxDone w && pickDoneOnReceive w.

(** The [select] around the send on the results channel drops the result. *)
Definition takesDone (w : World) : bool := ctxDone w && pickDoneOnSend w.

(** [atomic.AddInt64(&x, 1)] *)
Definition incr (x : Z) : Z := wrap64 (x + 1).

Definition withStats (s : Scanner) (st : Stats) : Scanner :=
  {| limiter := limiter s; workers := workers s; deepInspect := deepInspect s;
     stats := st; resultsChan := resultsChan s |}.

Definition withLimiter (s : Scanner) (l : ratelimit.AdaptiveLimiter) : Scanner :=
  {| limiter := l; workers := workers s; deepInspect := deepInspect s;
     stats := stats s; resultsChan := resultsChan s |}.

Definition send (s : Scanner) (r : ScanResult) : Scanner :=
  {| limiter := limiter s; workers := workers s; deepInspect := deepInspect s;
     stats := stats s; resultsChan := resultsChan s ++ [r] |}.

Definition addScanned (st : Stats) : Stats :=
  {| Total := Total st; Scanned := incr (Scanned st); Found := Found st;
     Public := Public st; Private := Private st; Errors := Errors st;
     StartTime := StartTime st |}.

Definition addPublic (st : Stats) : Stats :=
  {| Total := Total st; Scanned := Scanned st; Found := incr (Found st);
     Public := incr (Public st); Private := Private st; Errors := Errors st;
     StartTime := StartTime st |}.

Definition addPrivate (st : Stats) : Stats :=
  {| Total := Total st; Scanned := Scanned st; Found := incr (Found st);
     Public := Public st; Private := incr (Private st); Errors := Errors st;
     StartTime := StartTime st |}.

Definition addErrors (st : Stats) : Stats :=
  {| Total := Total st; Scanned := Scanned st; Found := Found st;
     Public := Public st; Private := Private st; Errors := incr (Errors st);
     StartTime := StartTime st |}.

Definition withInspect (r : ScanResult) (i : inspector_common.InspectResult)
  : ScanResult :=
  {| SR_Bucket := SR_Bucket r; Probe := Probe r; Inspect := Some i;
     SR_Timestamp := SR_Timestamp r |}.

Definition processBucket (s : Scanner) (w : World) (bucket : string) : Scanner :=
  let s := withStats s (addScanned (stats s)) in
  let '(probe, lim) := Check ratelimit.RecordResponse (client w) (limiter s) bucket in
  let s := withLimiter s lim in
  let result := {| SR_Bucket := bucket; Probe := Result probe; Inspect := None;
                   SR_Timestamp := now w |} in
  match Result probe with
  | BucketNotFound => s
  | BucketExists =>
      let s := withStats s (addPublic (stats s)) in
      let result :=
        if deepInspect s then withInspect result (inspect w bucket) else result in
      if takesDone w then s else send s result
  | BucketForbidden =>
      let s := withStats s (addPrivate (stats s)) in
      let result :=
        if deepInspect s then withInspect result (inspect w bucket) else result in
      if takesDone w then s else send s result
  | BucketError =>
      let s := withStats s (addErrors (stats s)) in
      if takesDone w then s else send s result
  end.

(** One worker draining the names channel; [world name] is what happens
  around that name. *)
Fixpoint worker (s : Scanner) (world : string -> World) (names : list string)
  : Scanner :=
  match names with
  | [] => s
  | name :: names' =>
      if stops (world name) then s
      else worker (processBucket s (world name) name) world names'
  end.

(** [New] followed by the start of [Scan]: fresh statistics, empty channel. *)
Definition New (workers : Z) (maxRPS : float) (deep : bool) : Scanner :=
  {| limiter := ratelimit.New maxRPS; workers := workers; deepInspect := deep;
     stats := mkStats 0 0 0 0 0 0 0; resultsChan := [] |}.

End scanner.

(** ** Package scanner: the two-stage orchestrator

  The second document of [src/pkg/scanner/prober_test.go] holds the
  revision of the scanner in which hits are queued on [inspectChan] and a
  separate pool of inspection workers sends them on. *)

Module scanner_pipeline.
Export prober.

Record ScanResult := mkScanResult {
  SR_Bucket : string;
  Probe : ProbeResult;
  Inspect : option inspector_common.InspectResult;
  SR_Error : string;
  SR_Timestamp : Z
}.

Record Stats := mkStats {
  Total : Z;
  Scanned : Z;
  Found : Z;
  Public : Z;
  Private : Z;
  Errors : Z;
  NotFound : Z;
  StartTime : Z
}.

(** [resultsChan] and [inspectChan] list what has been sent and not yet
  received, oldest first. *)
Record Scanner := mkScanner {
  limiter : ratelimit.AdaptiveLimiter;
  workers : Z;
  deepInspect : bool;
  stats : Stats;
  resultsChan : list ScanResult;
  inspectChan : list ScanResult
}.

Definition withStats (s : Scanner) (st : Stats) : Scanner :=
  {| limiter := limiter s; workers := workers s; deepInspect := deepInspect s;
     stats := st; resultsChan := resultsChan s; inspectChan := inspectChan s |}.

Definition withLimiter (s : Scanner) (l : ratelimit.AdaptiveLimiter) : Scanner :=
  {| limiter := l; workers := workers s; deepInspect := deepInspect s;
     stats := stats s; resultsChan := resultsChan s; inspectChan := inspectChan s |}.

Definition withChans (s : Scanner) (results queue : list ScanResult) : Scanner :=
  {| limiter := limiter s; workers := workers s; deepInspect := deepInspect s;
     stats := stats s; resultsChan := results; inspectChan := queue |}.

Definition send (s : Scanner) (r : ScanResult) : Scanner :=
  withChans s (resultsChan s ++ [r]) (inspectChan s).

Definition enqueue (s : Scanner) (r : ScanResult) : Scanner :=
  withChans s (resultsChan s) (inspectChan s ++ [r]).

Definition addScanned (st : Stats) : Stats :=
  {| Total := Total st; Scanned := scanner.incr (Scanned st); Found := Found st;
     Public := Public st; Private := Private st; Errors := Errors st;
     NotFound := NotFound st; StartTime := StartTime st |}.

Definition addNotFound (st : Stats) : Stats :=
  {| Total := Total st; Scanned := Scanned st; Found := Found st;
     Public := Public st; Private := Private st; Errors := Errors st;
     NotFound := scanner.incr (NotFound st); StartTime := StartTime st |}.

Definition addPublic (st : Stats) : Stats :=
  {| Total := Total st; Scanned := Scanned st; Found := scanner.incr (Found st);
     Public := scanner.incr (Public st); Private := Private st; Errors := Errors st;
     NotFound := NotFound st; StartTime := StartTime st |}.

Definition addPrivate (st : Stats) : Stats :=
  {| Total := Total st; Scanned := Scanned st; Found := scanner.incr (Found st);
     Public := Public st; Private := scanner.incr (Private st); Errors := Errors st;
     NotFound := NotFound st; StartTime := StartTime st |}.

Definition addErrors (st : Stats) : Stats :=
  {| Total := Total st; Scanned := Scanned st; Found := Found st;
     Public := Public st; Private := Private st; Errors := scanner.incr (Errors st);
     NotFound := NotFound st; StartTime := StartTime st |}.

Definition withInspect (r : ScanResult) (i : inspector_common.InspectResult)
  : ScanResult :=
  {| SR_Bucket := SR_Bucket r; Probe := Probe r; Inspect := Some i;
     SR_Error := SR_Error r; SR_Timestamp := SR_Timestamp r |}.

Definition processBucket (s : Scanner) (w : scanner.World) (bucket : string) : Scanner :=
  let s := withStats s (addScanned (stats s)) in
  let '(probe, lim) :=
    Check ratelimit_netfail.RecordResponse (scanner.client w) (limiter s) bucket in
  let s := withLimiter s lim in
  let result := {| SR_Bucket := bucket; Probe := Result probe; Inspect := None;
                   SR_Error := match Error probe with Some msg => msg | None => "" end;
                   SR_Timestamp := scanner.now w |} in
  match Result probe with
  | BucketNotFound => withStats s (addNotFound (stats s))
  | BucketExists =>
      let s := withStats s (addPublic (stats s)) in
      if deepInspect s then
        if scanner.takesDone w then s else enqueue s result
      else
        if scanner.takesDone w then s else send s result
  | BucketForbidden =>
      let s := withStats s (addPrivate (stats s)) in
      if deepInspect s then
        if scanner.takesDone w then s else enqueue s result
      else
        if scanner.takesDone w then s else send s result
  | BucketError =>
      let s := withStats s (addErrors (stats s)) in
      if scanner.takesDone w then s else send s result
  end.

Fixpoint worker (s : Scanner) (world : string -> scanner.World) (names : list string)
  : Scanner :=
  match names with
  | [] => s
  | name :: names' =>
      if scanner.stops (world name) then s
      else worker (processBucket s (world name) name) world names'
  end.

(** The loop of [inspectionWorker] over the queued results, with the
  results channel so far; it returns what is left of both. *)
Fixpoint inspectionLoop (queue results : list ScanResult)
    (world : string -> scanner.World) : list ScanResult * list ScanResult :=
  match queue with
  | [] => ([], results)
  | result :: queue' =>
      let w := world (SR_Bucket result) in
      if scanner.stops w then (queue, results)
      else
        let result := withInspect result (scanner.inspect w (SR_Bucket result)) in
        if scanner.takesDone w then inspectionLoop queue' results world
        else inspectionLoop queue' (results ++ [result]) world
  end.

Definition inspectionWorker (s : Scanner) (world : string -> scanner.World) : Scanner :=
  let '(queue, results) := inspectionLoop (inspectChan s) (resultsChan s) world in
  withChans s results queue.

Definition New (workers : Z) (maxRPS : float) (deep : bool) : Scanner :=
  {| limiter := ratelimit.New maxRPS; workers := workers; deepInspect := deep;
     stats := mkStats 0 0 0 0 0 0 0 0; resultsChan := []; inspectChan := [] |}.

(** One schedule of [Scan]: a probe worker drains the names, the inspect
  channel is closed, and an inspection worker drains it. *)
Definition Scan (s : Scanner) (world : string -> scanner.World) (names : list string)
  : Scanner :=
  let s := worker s world names in
  if deepInspect s then inspectionWorker s world else s.

End scanner_pipeline.

(** ** Package config ([src/internal/config/config.go]) *)

Module config.

(** The fields of [Config] that name generation reads. *)
Record Config := mkConfig {
  Seed : string;
  Wordlist : string;
  Domain : string;
  AIEnabled : bool
}.

Definition LF : ascii := "010"%char.
Definition CR : ascii := "013"%char.

(** The byte loop of [LoadWordlist]: [current] is the line being read. *)
Fixpoint readLines (data : string) (current : string) : list string :=
  match data with
  | "" => if (0 <? String.length current)%nat then [current] else []
  | String b data' =>
      if bool_decide (b = LF) || bool_decide (b = CR) then
        if (0 <? String.length current)%nat
        then current :: readLines data' ""
        else readLines data' current
      else readLines data' (current +:+ String b "")
  end.

(** [readFile path] is [os.ReadFile]: the bytes, or the error. *)
Definition LoadWordlist (readFile : string -> string + string) (path : string)
  : list string + string :=
  if bool_decide (path = "") then inl []
  else match readFile path with
       | inr err => inr err
       | inl data => inl (readLines data "")
       end.

End config.

(** ** Command s3finder ([src/cmd/s3finder/main.go]) *)

Module main_common.
Export permutation.

(** The closure [add] of [generateNames]: append the names not seen yet.
  [results] plays the part of [allNames]. *)
Definition add (st : Acc) (names : list string) : Acc :=
  foldl (fun st name =>
           let ok := bool_decide (is_Some (seen st !! name)) in
           if negb ok
           then mkAcc (<[name := ()]> (seen st)) (results st ++ [name])
           else st) st names.

End main_common.

(** The first document of the file: the seed is mandatory and the wordlist
  goes through the permutation engine. *)
Module main_seeded.
Export main_common.

Section generateNames.
Context `{Strings}.
Variable readFile : string -> string + string.
(** The outcome of the AI stage: the names, or [None] when it fails. *)
Variable aiGenerate : string -> option (list string).

Definition generateNames (cfg : config.Config) : list string + string :=
  let engine := Default in
  let permNames := Generate engine (config.Seed cfg) in
  let st := add emptyAcc permNames in
  let afterWordlist :=
    if bool_decide (config.Wordlist cfg ≠ "") then
      match config.LoadWordlist readFile (config.Wordlist cfg) with
      | inr err => inr ("failed to load wordlist: " +:+ err)
      | inl words => inl (add st (GenerateFromWordlist engine words (config.Seed cfg)))
      end
    else inl st in
  match afterWordlist with
  | inr err => inr err
  | inl st =>
      let st :=
        if config.AIEnabled cfg then
          match aiGenerate (config.Seed cfg) with
          | Some aiNames => add st aiNames
          | None => st
          end
        else st in
      inl (results st)
  end.

End generateNames.
End main_seeded.

(** [strings.TrimSuffix] and [strings.FieldsFunc], for the second document. *)
Definition HasSuffix (s suffix : string) : bool :=
  HasPrefix (String.rev s) (String.rev suffix).

Definition TrimSuffix (s suffix : string) : string :=
  if HasSuffix s suffix
  then substring 0 (String.length s - String.length suffix) s
  else s.

Fixpoint fields (f : ascii -> bool) (s : string) (current : string) : list string :=
  match s with
  | "" => if (0 <? String.length current)%nat then [current] else []
  | String c s' =>
      if f c then
        if (0 <? String.length current)%nat then current :: fields f s' "" else fields f s' ""
      else fields f s' (current +:+ String c "")
  end.

Definition FieldsFunc (s : string) (f : ascii -> bool) : list string := fields f s "".

(** The second document of the file: every input is optional and the
  wordlist is taken as it is. *)
Module main_raw.
Export main_common.

Section generateNames.
Context `{Strings}.
Variable readFile : string -> string + string.
(** [FetchSubdomains]: the subdomains, or [None] when the fetch fails. *)
Variable fetchSubdomains : string -> option (list string).
(** The order in which [range] visits the keys of a Go map. *)
Variable rangeOrder : gmap string unit -> list string.
(** The outcome of the AI stage: the names, or [None] when it fails. *)
Variable aiGenerate : string -> list string -> option (list string).

(** The words that the subdomains contribute. *)
Definition subdomainWords (domain : string) (subdomains : list string)
  : gmap string unit :=
  foldl (fun wordMap sub =>
    let cleanSub := TrimSuffix sub ("." +:+ domain) in
    let parts := FieldsFunc cleanSub
                   (fun r => bool_decide (r = "."%char) || bool_decide (r = "-"%char)) in
    foldl (fun wordMap part =>
             if (2 <? String.length part)%nat then <[part := ()]> wordMap else wordMap)
          wordMap parts) ∅ subdomains.

Definition generateNames (cfg : config.Config) : list string + string :=
  let st := emptyAcc in
  let contextWords : list string := [] in
  let engine := Default in
  let '(st, contextWords) :=
    if bool_decide (config.Domain cfg ≠ "") then
      match fetchSubdomains (config.Domain cfg) with
      | None => (st, contextWords)
      | Some subdomains =>
          let st := add st subdomains in
          let wordMap := subdomainWords (config.Domain cfg) subdomains in
          if (0 <? size wordMap)%nat then
            foldl (fun '(st, contextWords) word =>
                     (add st (Generate engine word), contextWords ++ [word]))
                  (st, contextWords) (rangeOrder wordMap)
          else (st, contextWords)
      end
    else (st, contextWords) in
  let st :=
    if bool_decide (config.Seed cfg ≠ "")
    then add st (Generate engine (config.Seed cfg)) else st in
  let afterWordlist :=
    if bool_decide (config.Wordlist cfg ≠ "") then
      match config.LoadWordlist readFile (config.Wordlist cfg) with
      | inr err => inr ("failed to load wordlist: " +:+ err)
      | inl words => inl (add st words)
      end
    else inl st in
  match afterWordlist with
  | inr err => inr err
  | inl st =>
      let st :=
        if config.AIEnabled cfg then
          if bool_decide (config.Seed cfg = "") && (length contextWords =? 0)%nat then st
          else match aiGenerate (config.Seed cfg) contextWords with
               | Some aiNames => add st aiNames
               | None => st
               end
        else st in
      inl (results st)
  end.

End generateNames.
End main_raw.

(** [strings.TrimPrefix] *)
Definition TrimPrefix (s prefix : string) : string :=
  if HasPrefix s prefix
  then substring (String.length prefix) (String.length s - String.length prefix) s
  else s.

(** [strings.Trim(s, cutset)] for a one-byte cutset. *)
Fixpoint trimLeftByte (c : ascii) (s : string) : string :=
  match s with
  | String b s' => if bool_decide (b = c) then trimLeftByte c s' else s
  | "" => ""
  end.

Definition Trim (s : string) (c : ascii) : string :=
  String.rev (trimLeftByte c (String.rev (trimLeftByte c s))).

(** ** Package ai: reading the answer of the model ([src/unnamed/part_004]) *)

Module ai.

Section parseBucketNames.
Context `{Strings}.

Definition parseBucketNames (content : string) : list string :=
  foldl (fun names line =>
    let name := TrimSpace line in
    let name := ToLower name in
    if bool_decide (name = "") || Contains name " " then names
    else
      let name := TrimPrefix name "- " in
      let name := TrimPrefix name "* " in
      let name := Trim name "`" in
      if (3 <=? String.length name)%nat && (String.length name <=? 63)%nat
      then names ++ [name] else names) [] (Split content config.LF).

End parseBucketNames.

End ai.

(** ** Package recon: subdomains from certificate logs
  (second document of [src/pkg/ratelimit/adaptive_test.go]) *)

Module recon.

(** The loop state of [extractSubdomains]; [returned] tells that the
  function has returned from inside the loops. *)
Record Extract := mkExtract {
  seen : gmap string unit;
  subdomains : list string;
  returned : bool
}.

Section extractSubdomains.
Context `{Strings}.

(** The body of the inner loop, for one name of a [NameValue]. *)
Definition visit (maxResults : Z) (baseDomain : string) (st : Extract) (name : string)
  : Extract :=
  if returned st then st
  else
    let name := TrimSpace (ToLower name) in
    let name := TrimPrefix name "*." in
    if bool_decide (name = "") || bool_decide (name = baseDomain) then st
    else if negb (HasSuffix name ("." +:+ baseDomain)) && bool_decide (name ≠ baseDomain)
    then st
    else if bool_decide (is_Some (seen st !! name)) then st
    else
      let subdomains := subdomains st ++ [name] in
      mkExtract (<[name := ()]> (seen st)) subdomains
        (maxResults <=? Z.of_nat (length subdomains)).

(** [results] lists the [NameValue] fields of the log entries. *)
Definition extractSubdomains (maxResults : Z) (results : list string)
    (baseDomain : string) : list string :=
  subdomains
    (foldl (fun st nameValue => foldl (visit maxResults baseDomain) st
                                  (Split nameValue config.LF))
           (mkExtract ∅ [] false) results).

End extractSubdomains.

End recon.

(** ** Package output: the report writer ([src/unnamed/part_006]) *)

Module output.

(** The counts of [Report]; the times are left out. *)
Record Report := mkReport {
  TotalScanned : Z;
  TotalFound : Z;
  PublicBuckets : Z;
  PrivateBuckets : Z;
  Results : list scanner.ScanResult
}.

(** [r.results = append(r.results, result)] *)
Definition WriteResult (results : list scanner.ScanResult) (result : scanner.ScanResult)
  : list scanner.ScanResult :=
  results ++ [result].

(** The report that [flushJSON] encodes. *)
Definition flushJSON (results : list scanner.ScanResult) : Report :=
  let '(public, private) :=
    foldl (fun '(public, private) result =>
             match scanner.Probe result with
             | prober.BucketExists => (wrap64 (public + 1), private)
             | prober.BucketForbidden => (public, wrap64 (private + 1))
             | _ => (public, private)
             end) (0, 0) results in
  {| TotalScanned := 0;
     TotalFound := Z.of_nat (length results);
     PublicBuckets := public;
     PrivateBuckets := private;
     Results := results |}.

(** [fmt.Sprintf("%v", keys)] of a slice of strings. *)
Definition formatKeys (keys : list string) : string :=
  "[" +:+ Join keys " " +:+ "]".

(** The lines that [flushTXT] prints. *)
Definition flushTXT (results : list scanner.ScanResult) : list string :=
  foldl (fun lines result =>
    let withInspect (line : string) : string :=
      match scanner.Inspect result with
      | Some inspect =>
          let line :=
            if bool_decide (inspector_common.Region inspect ≠ "")
               && bool_decide (inspector_common.Region inspect ≠ "unknown")
            then line +:+ " | region: " +:+ inspector_common.Region inspect
            else line in
          let line :=
            if 0 <? inspector_common.ObjectCount inspect
            then line +:+ " | objects: "
                   +:+ prober.formatInt (inspector_common.ObjectCount inspect)
            else line in
          if (0 <? length (inspector_common.SampleKeys inspect))%nat
          then line +:+ " | sample: "
                 +:+ formatKeys (take (Nat.min 3 (length (inspector_common.SampleKeys inspect)))
                                   (inspector_common.SampleKeys inspect))
          else line
      | None => line
      end in
    match scanner.Probe result with
    | prober.BucketExists =>
        lines ++ [withInspect ("[PUBLIC] " +:+ scanner.SR_Bucket result)]
    | prober.BucketForbidden =>
        lines ++ [withInspect ("[PRIVATE] " +:+ scanner.SR_Bucket result)]
    | _ => lines
    end) [] results.

End output.

(** ** The specification's words for the prober and the scanner *)

Module prober_spec.
Import prober.

(** "200 -> Exists, 403 -> Forbidden, 404 -> NotFound, 301, 307 ->
  Forbidden, anything else -> Error". *)
Definition classify (s : Z) : ProbeResult :=
  if decide (s = 200) then BucketExists
  else if decide (s = 403) then BucketForbidden
  else if decide (s = 404) then BucketNotFound
  else if decide (s = 301 \/ s = 307) then BucketForbidden
  else BucketError.

(** A pass that [Check] answers with another pass. *)
Definition retries (a : Attempt) : bool :=
  match a with
  | DoFails _ => true
  | Responds s => 500 <=? s
  | WaitFails _ | NewRequestFails _ => false
  end.

(** The probe's final HTTP response has status [s] and comes at pass [k]:
  the passes before it were retried, and pass [k] is not. *)
Definition finalResponse (client : Z -> Attempt) (k s : Z) : Prop :=
  0 <= k <= maxRetries
  /\ (forall j, 0 <= j < k -> retries (client j) = true)
  /\ client k = Responds s
  /\ (s < 500 \/ k = maxRetries).

End prober_spec.

(** A result that may surface: its probe is not classified NotFound. *)
Definition surfaced (r : scanner.ScanResult) : Prop :=
  scanner.Probe r <> prober.BucketNotFound.

Definition surfacedLater (r : scanner_pipeline.ScanResult) : Prop :=
  scanner_pipeline.Probe r <> prober.BucketNotFound.

(** An error message that reports a region mismatch. *)
Definition regionMismatch (errStr : string) : bool :=
  Contains errStr "BucketRegionError" ||
  Contains errStr "PermanentRedirect" ||
  Contains errStr "please use the correct region".

(** The region a list call is made against: the default for an empty or
  unknown one. *)
Definition effectiveRegion (region : string) : string :=
  if bool_decide (region = "") || bool_decide (region = "unknown")
  then "us-east-1" else region.

(** ** Scenarios of the specification *)

Module scenarios.

(** A prober stubbed to answer every pass with the same status. *)
Definition stubbed (status : Z) : Z -> prober.Attempt :=
  fun _ => prober.Responds status.

(** The rate-decrease scenario: ceiling 100, three 429 responses, then 100
  successes. *)
Definition afterThrottle : ratelimit.AdaptiveLimiter :=
  ratelimit.RecordAll (ratelimit.New 100) [429; 429; 429].

Definition afterRecovery : ratelimit.AdaptiveLimiter :=
  ratelimit.RecordAll afterThrottle (replicate 100 200).

(** The files of the wordlist scenarios. *)
Definition twoWords : string :=
  "backup" +:+ String config.LF ("logs" +:+ String config.LF "").

Definition paddedWord : string := " Backup" +:+ String config.LF "".

Definition onlyFile (path data : string) : string -> string + string :=
  fun p => if bool_decide (p = path) then inl data else inr "no such file".

(** One order in which a map can be ranged over. *)
Definition someOrder (m : gmap string unit) : list string := (map_to_list m).*1.

Definition wordlistOnly (path : string) : config.Config :=
  {| config.Seed := ""; config.Wordlist := path; config.Domain := "";
     config.AIEnabled := false |}.

Definition seededWordlist (seed path : string) : config.Config :=
  {| config.Seed := seed; config.Wordlist := path; config.Domain := "";
     config.AIEnabled := false |}.

(** The two-word wordlist run through the first [generateNames], with the
  seed that it requires. *)
Definition seededRun : list string + string :=
  @main_seeded.generateNames asciiStrings (onlyFile "w.txt" twoWords)
    (fun _ => None) (seededWordlist "acme" "w.txt").

Definition namesOf (r : list string + string) : list string :=
  match r with inl names => names | inr _ => [] end.

Definition failed (r : list string + string) : bool :=
  match r with inl _ => false | inr _ => true end.

(** The five names of the classifier scenario and their stubbed statuses. *)
Definition fiveNames : list string := ["n200"; "n403"; "n404"; "n301"; "n500"].

Definition statusOf (name : string) : Z :=
  if bool_decide (name = "n200") then 200
  else if bool_decide (name = "n403") then 403
  else if bool_decide (name = "n404") then 404
  else if bool_decide (name = "n301") then 301
  else 500.

Definition noInspect (bucket : string) : inspector_common.InspectResult :=
  inspector_common.mkInspectResult bucket true false "unknown" "us-east-1" (-1) [] "" 0.

(** A live context, and a cancelled one whose selects take [ctx.Done()]. *)
Definition liveWorld (name : string) : scanner.World :=
  {| scanner.client := stubbed (statusOf name); scanner.inspect := noInspect;
     scanner.now := 0; scanner.ctxDone := false;
     scanner.pickDoneOnReceive := false; scanner.pickDoneOnSend := false |}.

Definition cancelledWorld (name : string) : scanner.World :=
  {| scanner.client := stubbed (statusOf name); scanner.inspect := noInspect;
     scanner.now := 0; scanner.ctxDone := true;
     scanner.pickDoneOnReceive := false; scanner.pickDoneOnSend := true |}.

(** The networks of the region-retry scenario.  The HEAD request names no
  region; the first list call, against us-east-1, is refused with a pointer
  to eu-west-1; the second, against eu-west-1, lists two objects. *)
Definition redirectMessage : string :=
  "BucketRegionError: incorrect region, please use the correct region: eu-west-1".

Definition twoObjects : s3.ListObjectsV2Output :=
  s3.mkListObjectsV2Output [Some "a.txt"; Some "b.txt"] (Some false) (Some 2).

Definition redirectedNetwork : inspector.Network :=
  {| inspector.head := fun _ => Some "";
     inspector.loadConfig := fun _ => true;
     inspector.listObjectsV2 := fun n region =>
       if bool_decide (region = "eu-west-1") then s3.Listed twoObjects
       else s3.ListFails redirectMessage |}.

(** A mismatch error that names no region, met in the default region. *)
Definition unnamedRedirectNetwork : inspector.Network :=
  {| inspector.head := fun _ => Some "";
     inspector.loadConfig := fun _ => true;
     inspector.listObjectsV2 := fun n region => s3.ListFails "PermanentRedirect" |}.

(** The region-retry scenario as the inspector of [inspector.go] meets it:
  the location lookup names no region, a list call against eu-west-1 would
  list two objects, and one against any other region is refused with a
  pointer to eu-west-1. *)
Definition redirectedLocationNetwork : inspector_location.Network :=
  {| inspector_location.loadConfig := fun _ => None;
     inspector_location.getBucketLocation := inl "";
     inspector_location.listObjectsV2 := fun region =>
       if bool_decide (region = "eu-west-1") then s3.Listed twoObjects
       else s3.ListFails redirectMessage |}.

End scenarios.

(** ** Further specification words *)

Module limiter_spec.
Import ratelimit.

(** A status that the limiter of [part_008] counts as a throttle. *)
Definition throttled (code : Z) : bool := (code =? 429) || (code =? 503).

(** The codes hold no three throttles in a row, [run] of them having just
  been seen. *)
Fixpoint noThreeThrottles (run : nat) (codes : list Z) : bool :=
  match codes with
  | [] => true
  | code :: codes' =>
      if throttled code then (run <? 2)%nat && noThreeThrottles (S run) codes'
      else noThreeThrottles 0 codes'
  end.

(** The token bucket follows the stored rate. *)
Definition inSync (a : AdaptiveLimiter) : Prop :=
  limit (limiter a) = currentRPS a /\ burst (limiter a) = int_of_float (currentRPS a).

End limiter_spec.

Module probe_shapes.
Import prober.

(** A response whose fields agree: the classification goes with its status
  code, and only an error carries a message. *)
Definition coherent (bucket : string) (resp : ProbeResponse) : Prop :=
  Bucket resp = bucket
  /\ match Result resp with
     | BucketExists => StatusCode resp = 200 /\ Error resp = None
     | BucketForbidden =>
         (StatusCode resp = 403 \/ StatusCode resp = 301 \/ StatusCode resp = 307)
         /\ Error resp = None
     | BucketNotFound => StatusCode resp = 404 /\ Error resp = None
     | BucketError => Error resp <> None
     end.

(** A transport that fails on every pass, and a client that answers 500 on
  the three passes of a probe and would refuse a fourth. *)
Definition transportFails : Z -> Attempt :=
  fun attempt => DoFails ("timeout " +:+ formatInt attempt).

Definition failsFromThird : Z -> Attempt :=
  fun attempt => if attempt <=? 2 then Responds 500 else WaitFails "closed".

End probe_shapes.

Module inspect_shapes.
Import inspector_common.

(** The two shapes of what [checkPublicAccess] returns. *)
Definition accessShape (a : Access) : Prop :=
  (isPublic a = true /\ acl a = "public-read" /\ (length (objects a) <= 10)%nat
   /\ (count a = -2 \/ 0 <= count a))
  \/ (isPublic a = false /\ (acl a = "private" \/ acl a = "disabled" \/ acl a = "unknown")
      /\ objects a = [] /\ count a = -1).

End inspect_shapes.

Module scan_counts.
Import scanner.

(** The counters of a scan after [n] names: hits are public or private,
  every hit and error was scanned, and no more results were sent than hits
  and errors counted. *)
Definition statsInv (s : Scanner) (n : Z) : Prop :=
  let st := stats s in
  Found st = Public st + Private st
  /\ 0 <= Public st /\ 0 <= Private st /\ 0 <= Errors st
  /\ Found st + Errors st <= Scanned st <= n
  /\ Z.of_nat (length (resultsChan s)) <= Found st + Errors st.

(** With a live context nothing is skipped or dropped. *)
Definition statsLive (s : Scanner) (n : Z) : Prop :=
  Scanned (stats s) = n
  /\ Z.of_nat (length (resultsChan s)) = Found (stats s) + Errors (stats s).

Definition isHit (r : ProbeResult) : bool :=
  match r with
  | BucketExists | BucketForbidden => true
  | BucketNotFound | BucketError => false
  end.

(** What a sent result carries. *)
Definition wellFormed (deep : bool) (world : string -> World) (r : ScanResult) : Prop :=
  Probe r <> BucketNotFound
  /\ SR_Timestamp r = now (world (SR_Bucket r))
  /\ Inspect r =
     if deep && isHit (Probe r)
     then Some (inspect (world (SR_Bucket r)) (SR_Bucket r)) else None.

Definition pipelineInv (s : scanner_pipeline.Scanner) (n : Z) : Prop :=
  let st := scanner_pipeline.stats s in
  scanner_pipeline.Scanned st =
    scanner_pipeline.Found st + scanner_pipeline.Errors st + scanner_pipeline.NotFound st
  /\ scanner_pipeline.Found st = scanner_pipeline.Public st + scanner_pipeline.Private st
  /\ 0 <= scanner_pipeline.Public st /\ 0 <= scanner_pipeline.Private st
  /\ 0 <= scanner_pipeline.Errors st /\ 0 <= scanner_pipeline.NotFound st
  /\ scanner_pipeline.Scanned st <= n
  /\ Z.of_nat (length (scanner_pipeline.resultsChan s)
               + length (scanner_pipeline.inspectChan s))
     <= scanner_pipeline.Found st + scanner_pipeline.Errors st.

Definition pipelineLive (s : scanner_pipeline.Scanner) (n : Z) : Prop :=
  scanner_pipeline.Scanned (scanner_pipeline.stats s) = n
  /\ Z.of_nat (length (scanner_pipeline.resultsChan s)
               + length (scanner_pipeline.inspectChan s))
     = scanner_pipeline.Found (scanner_pipeline.stats s)
       + scanner_pipeline.Errors (scanner_pipeline.stats s).

End scan_counts.

Module wordlist_shapes.

Definition isNewline (b : ascii) : bool :=
  bool_decide (b = config.LF) || bool_decide (b = config.CR).

(** A word as [LoadWordlist] returns it: not empty, no line break inside. *)
Definition isWord (w : string) : Prop :=
  w <> "" /\ allBytes (fun b => negb (isNewline b)) w = true.

End wordlist_shapes.

Module answer_shapes.

(** What one line of the answer contributes, with the two [TrimPrefix]
  calls left out. *)
Definition parsedLine `{Strings} (line : string) : option string :=
  let name := ToLower (TrimSpace line) in
  if bool_decide (name = "") || Contains name " " then None
  else
    let name := Trim name "`" in
    if (3 <=? String.length name)%nat && (String.length name <=? 63)%nat
    then Some name else None.

(** An answer with a bulleted line, a quoted one, a sentence and a name
  that is too short. *)
Definition bulletedAnswer : string :=
  "- acme-backup" +:+ String config.LF
    ("`Acme-Logs`" +:+ String config.LF ("acme data" +:+ String config.LF "ab")).

End answer_shapes.

Module extract_shapes.

(** What the loops of [extractSubdomains] keep true. *)
Definition extractInv (maxResults : Z) (baseDomain : string) (st : recon.Extract) : Prop :=
  NoDup (recon.subdomains st)
  /\ (forall x, is_Some (recon.seen st !! x) <-> x ∈ recon.subdomains st)
  /\ Forall (fun name => name <> "" /\ name <> baseDomain
                         /\ HasSuffix name ("." +:+ baseDomain) = true)
       (recon.subdomains st)
  /\ Z.of_nat (length (recon.subdomains st)) <= Z.max 1 maxResults
  /\ (recon.returned st = false ->
      recon.subdomains st = [] \/ Z.of_nat (length (recon.subdomains st)) < maxResults).

(** The names of three log entries for example.com. *)
Definition certificateNames : list string :=
  ["*.Example.com" +:+ String config.LF "api.example.com";
   "example.com" +:+ String config.LF "API.example.com";
   "cdn.example.com" +:+ String config.LF "example.org"].

End extract_shapes.

Module report_counts.
Import scanner.

(** The number of results with a given classification. *)
Definition countProbe (p : ProbeResult) (results : list ScanResult) : Z :=
  Z.of_nat (length (filter (fun r => Probe r = p) results)).

(** The counters are the numbers of results sent, class by class. *)
Definition statsExact (s : Scanner) : Prop :=
  Public (stats s) = countProbe BucketExists (resultsChan s)
  /\ Private (stats s) = countProbe BucketForbidden (resultsChan s)
  /\ Errors (stats s) = countProbe BucketError (resultsChan s).

End report_counts.

(** * Properties *)

(** ** Machine integers *)

Lemma wrap64_id (z : Z) : min_int64 <= z <= max_int64 -> wrap64 z = z.
Proof.
unfold wrap64, min_int64, max_int64. intros H.
rewrite Z.mod_small; lia.
Qed.

(** ** Byte strings *)

Lemma app_cons (c : ascii) (s t : string) : String c s +:+ t = String c (s +:+ t).
Proof. reflexivity. Qed.

Lemma app_empty_l (t : string) : "" +:+ t = t.
Proof. reflexivity. Qed.

Lemma string_length_app (s t : string) :
  String.length (s +:+ t) = (String.length s + String.length t)%nat.
Proof. induction s as [|c s IH]; [reflexivity|]. rewrite app_cons. simpl. now rewrite IH. Qed.

Lemma app_assoc_s (a b c : string) : (a +:+ b) +:+ c = a +:+ (b +:+ c).
Proof. induction a as [|x a IH]; [reflexivity|]. rewrite !app_cons. now rewrite IH. Qed.

Lemma app_empty_r (s : string) : s +:+ "" = s.
Proof. induction s as [|c s IH]; [reflexivity|]. rewrite app_cons. now rewrite IH. Qed.

Lemma allBytes_app (p : ascii -> bool) (s t : string) :
  allBytes p (s +:+ t) = allBytes p s && allBytes p t.
Proof.
  induction s as [|c s IH]; [reflexivity|].
  rewrite app_cons. simpl. rewrite IH. now rewrite andb_assoc.
Qed.

Lemma HasPrefix_spec (s prefix : string) :
  HasPrefix s prefix = true <-> exists rest, s = prefix +:+ rest.
Proof.
  revert s. induction prefix as [|p prefix IH]; intros s; simpl.
  - destruct s; (split; [intros _; eexists; reflexivity | reflexivity]).
  - destruct s as [|c s].
    + split; [discriminate | intros [rest Hr]; rewrite app_cons in Hr; discriminate].
    + cbn [HasPrefix]. destruct (decide (c = p)) as [->|Hne].
      * rewrite IH. split; intros [rest Hr]; exists rest.
        -- rewrite app_cons. now rewrite Hr.
        -- rewrite app_cons in Hr. now inversion Hr.
      * split; [discriminate|]. intros [rest Hr]. rewrite app_cons in Hr.
        inversion Hr. contradiction.
Qed.

Lemma Contains_spec (s substr : string) :
  Contains s substr = true <-> exists pre post, s = pre +:+ substr +:+ post.
Proof.
  induction s as [|c s IH].
  - cbn [Contains]. rewrite orb_false_r, HasPrefix_spec. split.
    + intros [rest Hr]. exists "", rest. exact Hr.
    + intros [pre [post Hp]]. destruct pre as [|x pre].
      * exists post. exact Hp.
      * rewrite app_cons in Hp. discriminate.
  - cbn [Contains]. rewrite orb_true_iff, HasPrefix_spec, IH. split.
    + intros [[rest Hr] | [pre [post Hp]]].
      * exists "", rest. exact Hr.
      * exists (String c pre), post. rewrite app_cons. now rewrite Hp.
    + intros [pre [post Hp]]. destruct pre as [|x pre].
      * left. exists post. exact Hp.
      * right. rewrite app_cons in Hp. inversion Hp. now exists pre, post.
Qed.

Lemma Split_not_nil (s : string) (sep : ascii) : Split s sep <> [].
Proof.
  induction s as [|c s IH]; simpl; [discriminate|].
  destruct (decide (c = sep)); [discriminate|].
  destruct (Split s sep); discriminate.
Qed.

Lemma Join_cons (part : string) (parts : list string) (sep : ascii) :
  parts <> [] -> Join (part :: parts) sep = part +:+ String sep (Join parts sep).
Proof. destruct parts; [contradiction | reflexivity]. Qed.

(** Joining the pieces of a split gives the string back. *)
Lemma Join_Split (s : string) (sep : ascii) : Join (Split s sep) sep = s.
Proof.
  induction s as [|c s IH]; [reflexivity|]. simpl.
  destruct (decide (c = sep)) as [->|Hne].
  - rewrite Join_cons by apply Split_not_nil. now rewrite IH.
  - pose proof (Split_not_nil s sep) as Hnil.
    destruct (Split s sep) as [|part parts]; [contradiction|].
    destruct parts as [|part' parts].
    + simpl in *. now rewrite IH.
    + rewrite Join_cons by discriminate. rewrite Join_cons in IH by discriminate.
      rewrite app_cons. now rewrite IH.
Qed.

Lemma Split_no_sep (g : string) (sep : ascii) :
  allBytes (fun c => bool_decide (c <> sep)) g = true -> Split g sep = [g].
Proof.
  induction g as [|c g IH]; [reflexivity|]. simpl.
  intros [Hc Hg]%andb_true_iff. apply bool_decide_eq_true in Hc.
  destruct (decide (c = sep)); [contradiction|]. now rewrite IH.
Qed.

Lemma Split_app (g rest : string) (sep : ascii) :
  allBytes (fun c => bool_decide (c <> sep)) g = true ->
  Split (g +:+ String sep rest) sep = g :: Split rest sep.
Proof.
  induction g as [|c g IH].
  - intros _. rewrite app_empty_l. simpl. now destruct (decide (sep = sep)).
  - simpl. intros [Hc Hg]%andb_true_iff. apply bool_decide_eq_true in Hc.
    destruct (decide (c = sep)); [contradiction|].
    now rewrite IH.
Qed.

Lemma allBytes_impl (p q : ascii -> bool) (s : string) :
  (forall c, p c = true -> q c = true) -> allBytes p s = true -> allBytes q s = true.
Proof.
  intros Hpq. induction s as [|c s IH]; [reflexivity|]. simpl.
  intros [Hc Hs]%andb_true_iff. rewrite (Hpq _ Hc). now apply IH.
Qed.

(** ** The regular-expression matcher *)

Lemma runRepeat_spec (p : ascii -> bool) (min max : nat) (s rest : string) :
  rest ∈ regexp.runRepeat p min max s <->
  exists pre, s = pre +:+ rest /\ (min <= String.length pre <= max)%nat
              /\ allBytes p pre = true.
Proof.
  revert min s. induction max as [|max IH]; intros min s.
  - simpl. rewrite app_nil_r. destruct min as [|min].
    + rewrite list_elem_of_singleton. split.
      * intros ->. exists "". repeat split; auto.
      * intros [pre (-> & Hlen & _)]. destruct pre; [reflexivity | simpl in Hlen; lia].
    + split; [intros Hin; inversion Hin|].
      intros [pre (_ & Hlen & _)]. lia.
  - cbn [regexp.runRepeat]. rewrite elem_of_app. split.
    + intros [Hin | Hin].
      * destruct min; [|inversion Hin]. apply list_elem_of_singleton in Hin as ->.
        exists "". repeat split; simpl; auto; lia.
      * destruct s as [|c s]; [inversion Hin|].
        destruct (p c) eqn:Hc; [|inversion Hin].
        apply IH in Hin as [pre (-> & Hlen & Hall)].
        exists (String c pre). rewrite app_cons. simpl. rewrite Hc, Hall.
        repeat split; auto; lia.
    + intros [pre (-> & Hlen & Hall)]. destruct pre as [|c pre].
      * left. destruct min; [|simpl in Hlen; lia]. rewrite app_empty_l.
        apply list_elem_of_singleton. reflexivity.
      * right. rewrite app_cons. simpl in Hall, Hlen.
        apply andb_true_iff in Hall as [Hc Hall]. rewrite Hc.
        apply IH. exists pre. repeat split; auto; lia.
Qed.

Lemma run_Repeat (p : ascii -> bool) (min max : nat) (s rest : string) :
  rest ∈ regexp.run (regexp.Repeat min max p) s <->
  exists pre, s = pre +:+ rest /\ (min <= String.length pre <= max)%nat
              /\ allBytes p pre = true.
Proof. apply runRepeat_spec. Qed.

Lemma run_Class (p : ascii -> bool) (s rest : string) :
  rest ∈ regexp.run (regexp.Class p) s <-> exists c, s = String c rest /\ p c = true.
Proof.
  cbn [regexp.run]. destruct s as [|c s].
  - split; [intros Hin; inversion Hin | intros [c [Hc _]]; discriminate].
  - destruct (p c) eqn:Hc.
    + rewrite list_elem_of_singleton. split.
      * intros ->. eauto.
      * intros [c' [Heq _]]. now inversion Heq.
    + split; [intros Hin; inversion Hin|].
      intros [c' [Heq Hc']]. inversion Heq; subst. congruence.
Qed.

Lemma run_Seq (r1 r2 : regexp.Regexp) (s rest : string) :
  rest ∈ regexp.run (regexp.Seq r1 r2) s <->
  exists mid, mid ∈ regexp.run r1 s /\ rest ∈ regexp.run r2 mid.
Proof.
  cbn [regexp.run]. rewrite list_elem_of_In, in_concat. split.
  - intros [l [Hl Hrest]]. apply in_map_iff in Hl as [mid [<- Hmid]].
    exists mid. now rewrite !list_elem_of_In.
  - intros [mid [Hmid Hrest]]. rewrite list_elem_of_In in Hmid, Hrest.
    exists (regexp.run r2 mid). split; [|exact Hrest].
    apply in_map_iff. eauto.
Qed.

(** ** The name filter *)

Import permutation permutation_spec.

Lemma MatchString_validBucketName (s : string) :
  regexp.MatchString validBucketName s = true <-> matchesPattern s.
Proof.
  unfold regexp.MatchString, validBucketName, matchesPattern.
  rewrite existsb_exists. split.
  - intros [rest [Hin Hrest]]. apply bool_decide_eq_true in Hrest as ->.
    apply list_elem_of_In in Hin.
    apply run_Seq in Hin as [s1 [H1 Hin]].
    apply run_Seq in Hin as [s2 [H2 H3]].
    apply run_Class in H1 as [a [-> Ha]].
    apply run_Class in H3 as [z [-> Hz]].
    apply run_Repeat in H2 as [mid (-> & Hlen & Hmid)].
    exists a, mid, z. auto.
  - intros [a [mid [z (-> & Ha & Hlen & Hmid & Hz)]]].
    exists "". split; [|reflexivity].
    apply list_elem_of_In.
    apply run_Seq. exists (mid +:+ String z ""). split.
    { apply run_Class. eauto. }
    apply run_Seq. exists (String z ""). split.
    { apply run_Repeat. exists mid. auto. }
    apply run_Class. eauto.
Qed.

Lemma digit_not_dot (c : ascii) :
  isDigit c = true -> bool_decide (c <> "."%char) = true.
Proof.
  intros Hc. apply bool_decide_eq_true. intros ->. discriminate.
Qed.

Lemma isIPAddress_spec (s : string) : isIPAddress s = true <-> dottedQuad s.
Proof.
  unfold isIPAddress, dottedQuad. split.
  - pose proof (Join_Split s ".") as Hjoin.
    destruct (Split s ".") as [|g1 [|g2 [|g3 [|g4 [|g5 parts]]]]]; try discriminate.
    simpl. intros Hall. exists g1, g2, g3, g4.
    split; [now rewrite <- Hjoin|].
    repeat match type of Hall with
    | (if ?c then false else _) && _ = true =>
        let Hc := fresh "Hc" in
        destruct c eqn:Hc; [discriminate|];
        apply orb_false_iff in Hc as [?%Nat.eqb_neq ?%Nat.ltb_ge];
        apply andb_true_iff in Hall as [? Hall]
    end.
    unfold digitGroup. repeat split; auto; lia.
  - intros [g1 [g2 [g3 [g4 (-> & [L1 D1] & [L2 D2] & [L3 D3] & [L4 D4])]]]].
    rewrite !app_cons, !app_empty_l.
    rewrite !Split_app by (eapply allBytes_impl; [apply digit_not_dot | assumption]).
    rewrite Split_no_sep by (eapply allBytes_impl; [apply digit_not_dot | assumption]).
    simpl. rewrite D1, D2, D3, D4.
    repeat match goal with
    | |- context [(String.length ?g =? 0)%nat] =>
        destruct (Nat.eqb_spec (String.length g) 0); [lia|]
    | |- context [(3 <? String.length ?g)%nat] =>
        destruct (Nat.ltb_spec 3 (String.length g)); [lia|]
    end.
    reflexivity.
Qed.

Lemma matchesPattern_length (s : string) :
  matchesPattern s -> (3 <= String.length s <= 63)%nat.
Proof.
  intros [a [mid [z (-> & _ & Hlen & _)]]].
  simpl. rewrite string_length_app. simpl. lia.
Qed.

Lemma IsValidBucketName_spec (s : string) :
  IsValidBucketName s = true <-> ValidName s.
Proof.
  unfold IsValidBucketName, ValidName.
  rewrite <- isIPAddress_spec, <- MatchString_validBucketName.
  unfold hasDoubleDot. rewrite <- (Contains_spec s "..").
  destruct (Nat.ltb_spec (String.length s) 3);
    destruct (Nat.ltb_spec 63 (String.length s)); simpl;
    try (split; [discriminate | intros [? _]; lia]).
  destruct (isIPAddress s); [split; [discriminate | intros (_ & _ & _ & Hn); now destruct Hn]|].
  destruct (Contains s ".."); [split; [discriminate | intros (_ & _ & Hn & _); now destruct Hn]|].
  split.
  - intros Hm. repeat split; auto; lia.
  - intros (_ & Hm & _). exact Hm.
Qed.

(** ** The generator *)

Lemma forRange_add {A} (f : A -> string) (xs : list A) (st : Acc) :
  forRange xs (fun st x => add st (f x)) st = foldl add st (map f xs).
Proof.
  unfold forRange. revert st. induction xs as [|x xs IH]; intros st; [reflexivity|].
  simpl. apply IH.
Qed.

(** A loop whose body only calls [add] is a run of [add] over the names
  its iterations produce. *)
Lemma forRange_flat {A} (body : Acc -> A -> Acc) (names : A -> list string)
    (xs : list A) (st : Acc) :
  (forall st x, body st x = foldl add st (names x)) ->
  forRange xs body st = foldl add st (concat (map names xs)).
Proof.
  intros Hbody. unfold forRange. revert st.
  induction xs as [|x xs IH]; intros st; [reflexivity|].
  simpl. rewrite foldl_app, <- Hbody. apply IH.
Qed.

Section GeneratorFacts.
Context `{Strings}.

Lemma Generate_candidates (e : Engine) (seed : string) :
  Generate e seed =
  let seed := ToLower (TrimSpace seed) in
  if bool_decide (seed = "") then []
  else results (foldl add emptyAcc (candidates e seed)).
Proof.
  unfold Generate. cbv zeta. case_bool_decide as Hseed; [reflexivity|].
  unfold candidates. rewrite !foldl_app.
  set (seed' := ToLower (TrimSpace seed)).
  f_equal.
  rewrite (forRange_flat _ (fun sep =>
    if bool_decide (sep ≠ "-") then
      let variant := ReplaceAll seed' "-" sep in
      if bool_decide (variant ≠ seed')
      then variant :: map (fun suffix => variant +:+ suffix) (Suffixes e)
      else []
    else []));
    [f_equal | intros st sep; cbv zeta; repeat case_bool_decide;
               try reflexivity; simpl; apply forRange_add].
  rewrite (forRange_flat _ (fun suffix =>
    map (fun region => (seed' +:+ suffix) +:+ region) (Regions e)))
    by (intros; apply forRange_add).
  f_equal. rewrite forRange_add. f_equal.
  rewrite (forRange_flat _ (fun suffix =>
    map (fun year => (seed' +:+ suffix) +:+ year) (Years e)))
    by (intros; apply forRange_add).
  f_equal. rewrite forRange_add. f_equal.
  rewrite (forRange_flat _ (fun prefix =>
    map (fun suffix => (prefix +:+ seed') +:+ suffix) (Suffixes e)))
    by (intros; apply forRange_add).
  f_equal. rewrite forRange_add. f_equal. rewrite forRange_add. reflexivity.
Qed.

Lemma GenerateFromWordlist_candidates (e : Engine) (words : list string) (seed : string) :
  GenerateFromWordlist e words seed =
  results (foldl add emptyAcc (wordlistCandidates e words (ToLower (TrimSpace seed)))).
Proof.
  unfold GenerateFromWordlist, wordlistCandidates. cbv zeta. f_equal.
  apply forRange_flat. intros st word.
  case_bool_decide as Hword; [reflexivity|].
  unfold wordCandidates. rewrite !foldl_app.
  set (seed' := ToLower (TrimSpace seed)). set (word' := ToLower (TrimSpace word)).
  rewrite (forRange_flat _ (fun year => (word' +:+ year) ::
    (if bool_decide (seed' ≠ "") then [((seed' +:+ "-") +:+ word') +:+ year] else [])))
    by (intros; case_bool_decide; reflexivity).
  rewrite (forRange_flat _ (fun suffix => (word' +:+ suffix) ::
    (if bool_decide (seed' ≠ "") then [((seed' +:+ "-") +:+ word') +:+ suffix] else [])))
    by (intros; case_bool_decide; reflexivity).
  case_bool_decide; reflexivity.
Qed.

End GeneratorFacts.

Lemma tracks_empty (ok : string -> bool) : tracks ok emptyAcc [].
Proof.
  intros x. simpl. split.
  - intros Hx. now apply lookup_empty_is_Some in Hx.
  - intros [Hx _]. inversion Hx.
Qed.

Lemma foldl_addIf_results (ok : string -> bool) (names earlier : list string) (st : Acc) :
  tracks ok st earlier ->
  results (foldl (addIf ok) st names) = results st ++ keepFirst ok earlier names.
Proof.
  revert earlier st. induction names as [|x names IH]; intros earlier st Htr.
  - simpl. now rewrite app_nil_r.
  - cbn [foldl keepFirst]. unfold addIf at 2.
    case_bool_decide as Hseen; cbn [negb andb].
    + apply Htr in Hseen as Hx. destruct Hx as [Hearlier Hok].
      rewrite Hok, andb_true_l, bool_decide_eq_false_2 by (intros Hn; contradiction).
      rewrite app_nil_l. apply IH.
      intros y. rewrite elem_of_app, list_elem_of_singleton, (Htr y). split.
      * intros [? ?]; auto.
      * intros [[Hy | ->] Hv]; auto.
    + destruct (ok x) eqn:Hok.
      * rewrite andb_true_l, bool_decide_eq_true_2
          by (intros Hin; apply Hseen, Htr; auto).
        rewrite (IH (earlier ++ [x])).
        { simpl. now rewrite <- app_assoc. }
        intros y. simpl. rewrite lookup_insert_is_Some, elem_of_app,
          list_elem_of_singleton, (Htr y). split.
        -- intros [<- | [_ [? ?]]]; auto.
        -- intros [[Hy | ->] Hv]; [|auto].
           destruct (decide (x = y)); [auto | right; auto].
      * rewrite andb_false_l, app_nil_l. apply IH.
        intros y. rewrite elem_of_app, list_elem_of_singleton, (Htr y). split.
        -- intros [? ?]; auto.
        -- intros [[Hy | ->] Hv]; auto. congruence.
Qed.

Lemma keepFirst_elem (ok : string -> bool) (names earlier : list string) (y : string) :
  y ∈ keepFirst ok earlier names <-> y ∈ names /\ ok y = true /\ y ∉ earlier.
Proof.
  revert earlier. induction names as [|x names IH]; intros earlier.
  - simpl. split; [intros Hy; inversion Hy | intros [Hy _]; inversion Hy].
  - cbn [keepFirst]. rewrite elem_of_app, IH, elem_of_cons.
    rewrite elem_of_app, list_elem_of_singleton.
    destruct (ok x) eqn:Hok; simpl.
    + case_bool_decide as Hx.
      * rewrite list_elem_of_singleton. split.
        -- intros [-> | (Hy & Hv & Hn)]; [auto|]. split; [auto|]. split; auto.
        -- intros ([-> | Hy] & Hv & Hn); [auto|].
           destruct (decide (y = x)) as [->|Hne]; [auto|].
           right. split; [auto|]. split; [auto|]. intros [? | ?]; auto.
      * split.
        -- intros [Hy | (Hy & Hv & Hn)]; [inversion Hy|].
           split; [auto|]. split; auto.
        -- intros ([-> | Hy] & Hv & Hn); [contradiction|].
           right. split; [auto|]. split; [auto|]. intros [? | ->]; auto.
    + split.
      * intros [Hy | (Hy & Hv & Hn)]; [inversion Hy|].
        split; [auto|]. split; auto.
      * intros ([-> | Hy] & Hv & Hn); [congruence|].
        right. split; [auto|]. split; [auto|]. intros [? | ->]; [auto | congruence].
Qed.

Lemma keepFirst_NoDup (ok : string -> bool) (names earlier : list string) :
  NoDup (keepFirst ok earlier names).
Proof.
  revert earlier. induction names as [|x names IH]; intros earlier.
  - constructor.
  - cbn [keepFirst].
    destruct (ok x && bool_decide (x ∉ earlier)); [|apply IH].
    simpl. constructor; [|apply IH].
    rewrite keepFirst_elem. intros (_ & _ & Hn). apply Hn.
    apply elem_of_app. right. now apply list_elem_of_singleton.
Qed.

Lemma keepFirst_sublist (ok : string -> bool) (names earlier : list string) :
  sublist (keepFirst ok earlier names) names.
Proof.
  revert earlier. induction names as [|x names IH]; intros earlier.
  - constructor.
  - cbn [keepFirst].
    destruct (ok x && bool_decide (x ∉ earlier)); simpl.
    + apply sublist_skip, IH.
    + apply sublist_cons, IH.
Qed.

Lemma keepFirst_ok (ok : string -> bool) (names earlier : list string) :
  Forall (fun x => ok x = true) (keepFirst ok earlier names).
Proof.
  apply Forall_forall. intros x Hx. now apply keepFirst_elem in Hx.
Qed.

Lemma add_addIf : add = addIf IsValidBucketName.
Proof. reflexivity. Qed.

Lemma run_add_results (names : list string) :
  results (foldl add emptyAcc names) = keepFirstValid [] names.
Proof.
  rewrite add_addIf.
  now rewrite (foldl_addIf_results _ names [] emptyAcc (tracks_empty _)).
Qed.

Section GeneratorOutput.
Context `{Strings}.

Lemma Generate_keepFirst (e : Engine) (seed : string) :
  Generate e seed =
  if bool_decide (ToLower (TrimSpace seed) = "") then []
  else keepFirstValid [] (candidates e (ToLower (TrimSpace seed))).
Proof.
  rewrite Generate_candidates. cbv zeta.
  case_bool_decide; [reflexivity | apply run_add_results].
Qed.

Lemma GenerateFromWordlist_keepFirst (e : Engine) (words : list string) (seed : string) :
  GenerateFromWordlist e words seed =
  keepFirstValid [] (wordlistCandidates e words (ToLower (TrimSpace seed))).
Proof. rewrite GenerateFromWordlist_candidates. apply run_add_results. Qed.

Lemma Generate_valid (e : Engine) (seed : string) :
  Forall (fun x => IsValidBucketName x = true) (Generate e seed).
Proof.
  rewrite Generate_keepFirst. case_bool_decide; [constructor | apply keepFirst_ok].
Qed.

Lemma GenerateFromWordlist_valid (e : Engine) (words : list string) (seed : string) :
  Forall (fun x => IsValidBucketName x = true) (GenerateFromWordlist e words seed).
Proof. rewrite GenerateFromWordlist_keepFirst. apply keepFirst_ok. Qed.

End GeneratorOutput.

(** C5: the filter [IsValidBucketName] accepts exactly the strings of
  length 3 to 63 that match [^[a-z0-9][a-z0-9.-]{1,61}[a-z0-9]$], contain no
  [..] and are not four dot-separated groups of 1 to 3 digits.  Names of
  length 2 and 64 are rejected, names of length 3 and 63 can be accepted,
  [1.2.3.4] is rejected, [1.2.3.a] is accepted, and everything the engine
  generates passes the filter. *)
Theorem IsValidBucketName_exact :
  (forall s, IsValidBucketName s = true <-> ValidName s)
  /\ (forall s, String.length s = 2%nat \/ String.length s = 64%nat ->
                IsValidBucketName s = false)
  /\ IsValidBucketName "abc" = true
  /\ IsValidBucketName
       "abcdefghijklmnopqrstuvwxyz0123456789-abcdefghijklmnopqrstuvwxyz" = true
  /\ String.length
       "abcdefghijklmnopqrstuvwxyz0123456789-abcdefghijklmnopqrstuvwxyz" = 63%nat
  /\ (forall s, dottedQuad s -> IsValidBucketName s = false)
  /\ IsValidBucketName "1.2.3.4" = false
  /\ IsValidBucketName "1.2.3.a" = true
  /\ (forall (S : Strings) e seed,
        Forall (fun x => IsValidBucketName x = true) (Generate e seed))
  /\ (forall (S : Strings) e words seed,
        Forall (fun x => IsValidBucketName x = true) (GenerateFromWordlist e words seed)).
Proof.
  split; [exact IsValidBucketName_spec|].
  split.
  { intros s Hlen. unfold IsValidBucketName.
    destruct Hlen as [-> | ->]; reflexivity. }
  split; [vm_compute; reflexivity|].
  split; [vm_compute; reflexivity|].
  split; [reflexivity|].
  split.
  { intros s Hq. apply not_true_is_false. intros Hv.
    apply IsValidBucketName_spec in Hv as (_ & _ & _ & Hn). contradiction. }
  split; [vm_compute; reflexivity|].
  split; [vm_compute; reflexivity|].
  split; [intros; apply Generate_valid | intros; apply GenerateFromWordlist_valid].
Qed.

(** C9: [Generate] is a function of the engine's knob lists and the seed
  alone, so two runs on the same input give the same sequence; its output
  has no duplicates; and it is the sequence of names handed to [add] with
  every name that fails the filter or occurred earlier removed, so the first
  insertion of a string wins and insertion order is preserved. *)
Theorem Generate_deterministic_nodup (S : Strings) (e : Engine) (seed : string) :
  let seed' := ToLower (TrimSpace seed) in
  (forall e2 seed2, e2 = e -> seed2 = seed -> Generate e2 seed2 = Generate e seed)
  /\ NoDup (Generate e seed)
  /\ Generate e seed =
       (if bool_decide (seed' = "") then [] else keepFirstValid [] (candidates e seed'))
  /\ sublist (Generate e seed) (candidates e seed')
  /\ (forall x, x ∈ Generate e seed <->
                seed' <> "" /\ x ∈ candidates e seed' /\ IsValidBucketName x = true).
Proof.
  intros seed'. split; [intros e2 seed2 -> ->; reflexivity|].
  rewrite Generate_keepFirst. fold seed'. case_bool_decide as Hseed.
  - split; [constructor|]. split; [reflexivity|]. split; [apply sublist_nil_l|].
    intros x. split; [intros Hx; inversion Hx | intros [Hn _]; contradiction].
  - split; [apply keepFirst_NoDup|]. split; [reflexivity|].
    split; [apply keepFirst_sublist|].
    intros x. unfold keepFirstValid. rewrite keepFirst_elem. split.
    + intros (Hx & Hv & _). auto.
    + intros (_ & Hx & Hv). split; [auto|]. split; [auto|]. intros Hin; inversion Hin.
Qed.

(** ** The prober *)

Import prober prober_spec scenarios.

Lemma switchStatus_spec (resp : ProbeResponse) (s : Z) :
  Error resp = None ->
  let out := switchStatus resp s in
  Result out = classify s
  /\ StatusCode out = StatusCode resp
  /\ Bucket out = Bucket resp
  /\ Error out = match classify s with
                 | BucketError => Some ("unexpected status code: " +:+ formatInt s)
                 | _ => None
                 end.
Proof.
  intros Herr. unfold switchStatus, classify.
  destruct (Z.eqb_spec s 200) as [->|H200]; [simpl; auto|].
  destruct (Z.eqb_spec s 403) as [->|H403]; [simpl; auto|].
  destruct (Z.eqb_spec s 404) as [->|H404]; [simpl; auto|].
  destruct (Z.eqb_spec s 301) as [->|H301]; [simpl; auto|].
  destruct (Z.eqb_spec s 307) as [->|H307]; [simpl; auto|].
  repeat (case_decide; [lia|]). simpl. auto.
Qed.

(** A pass that meets a response it does not retry ends the probe. *)
Lemma attempts_final (record : ratelimit.AdaptiveLimiter -> Z -> ratelimit.AdaptiveLimiter)
    (remaining : nat) (attempt : Z) (client : Z -> Attempt)
    (lim : ratelimit.AdaptiveLimiter) (resp : ProbeResponse) (s : Z) :
  client attempt = Responds s ->
  s < 500 \/ attempt = maxRetries ->
  attempts record (S remaining) attempt client lim resp =
  (switchStatus (withStatusCode resp s) s, record lim s).
Proof.
  intros Hc Hlast. cbn [attempts]. rewrite Hc.
  destruct Hlast as [Hs | ->].
  - destruct (Z.leb_spec 500 s); [lia | reflexivity].
  - rewrite Z.ltb_irrefl, andb_false_r. reflexivity.
Qed.

(** A retried pass hands the same response record to the next pass. *)
Lemma attempts_retry (record : ratelimit.AdaptiveLimiter -> Z -> ratelimit.AdaptiveLimiter)
    (remaining : nat) (attempt : Z) (client : Z -> Attempt)
    (lim : ratelimit.AdaptiveLimiter) (resp : ProbeResponse) :
  attempt < maxRetries ->
  retries (client attempt) = true ->
  exists lim',
    attempts record (S remaining) attempt client lim resp =
    attempts record remaining (attempt + 1) client lim' resp.
Proof.
  intros Hlt Hret. cbn [attempts].
  destruct (client attempt) as [err|err|err|status]; try discriminate.
  - destruct (Z.ltb_spec attempt maxRetries); [|lia]. eauto.
  - simpl in Hret. rewrite Hret.
    destruct (Z.ltb_spec attempt maxRetries); [|lia]. simpl. eauto.
Qed.

(** C1: when the final HTTP response of a probe has status [s], [Check]
  classifies it as Exists for 200, Forbidden for 403, NotFound for 404,
  Forbidden for 301 and 307, and Error (with an error message) for any other
  status, and the returned response carries the status code [s]. *)
Theorem Check_classifies
    (record : ratelimit.AdaptiveLimiter -> Z -> ratelimit.AdaptiveLimiter)
    (client : Z -> Attempt) (lim : ratelimit.AdaptiveLimiter)
    (bucket : string) (k s : Z) :
  finalResponse client k s ->
  let resp := (Check record client lim bucket).1 in
  Result resp = classify s
  /\ StatusCode resp = s
  /\ Bucket resp = bucket
  /\ Error resp = match classify s with
                  | BucketError => Some ("unexpected status code: " +:+ formatInt s)
                  | _ => None
                  end.
Proof.
  intros (Hk & Hret & Hfin & Hlast). unfold maxRetries in Hk.
  set (resp0 := {| Bucket := bucket; Result := BucketNotFound; StatusCode := 0;
                   Error := None |}).
  assert (Hend : forall remaining lim0,
    let out := (attempts record (S remaining) k client lim0 resp0).1 in
    Result out = classify s /\ StatusCode out = s /\ Bucket out = bucket
    /\ Error out = match classify s with
                   | BucketError => Some ("unexpected status code: " +:+ formatInt s)
                   | _ => None
                   end).
  { intros remaining lim0. rewrite (attempts_final _ _ _ _ _ _ s Hfin Hlast).
    cbn [fst]. pose proof (switchStatus_spec (withStatusCode resp0 s) s eq_refl) as Hsw.
    cbv zeta in Hsw. exact Hsw. }
  unfold Check. fold resp0. change (Z.to_nat (maxRetries + 1)) with 3%nat.
  assert (Hcases : k = 0 \/ k = 1 \/ k = 2) by lia.
  destruct Hcases as [-> | [-> | ->]].
  - apply Hend.
  - destruct (attempts_retry record 2 0 client lim resp0) as [lim1 ->];
      [unfold maxRetries; lia | apply Hret; lia |].
    change (0 + 1) with 1. apply Hend.
  - destruct (attempts_retry record 2 0 client lim resp0) as [lim1 ->];
      [unfold maxRetries; lia | apply Hret; lia |].
    change (0 + 1) with 1.
    destruct (attempts_retry record 1 1 client lim1 resp0) as [lim2 ->];
      [unfold maxRetries; lia | apply Hret; lia |].
    change (1 + 1) with 2. apply Hend.
Qed.

Lemma stubbed_final_low (s : Z) : s < 500 -> finalResponse (stubbed s) 0 s.
Proof.
  intros Hs. unfold finalResponse, maxRetries. repeat split; try lia; auto.
Defined.

Lemma stubbed_final_high (s : Z) : 500 <= s -> finalResponse (stubbed s) 2 s.
Proof.
  intros Hs. unfold finalResponse, maxRetries.
  repeat split; try lia; auto.
  intros j _. simpl. now apply Z.leb_le.
Defined.

(** The classifier scenario: statuses 200, 403, 404, 301 and 500 give
  Exists, Forbidden, NotFound, Forbidden and Error. *)
Lemma Check_classifies_witness :
  let probe s :=
    (Check ratelimit.RecordResponse (stubbed s) (ratelimit.New 100) "name").1 in
  (Result (probe 200) = BucketExists /\ StatusCode (probe 200) = 200)
  /\ (Result (probe 403) = BucketForbidden /\ StatusCode (probe 403) = 403)
  /\ (Result (probe 404) = BucketNotFound /\ StatusCode (probe 404) = 404)
  /\ (Result (probe 301) = BucketForbidden /\ StatusCode (probe 301) = 301)
  /\ (Result (probe 500) = BucketError /\ StatusCode (probe 500) = 500
      /\ Error (probe 500) = Some "unexpected status code: 500").
Proof.
  intros probe.
  pose proof (Check_classifies ratelimit.RecordResponse (stubbed 200)
                (ratelimit.New 100) "name" 0 200
                (stubbed_final_low 200 ltac:(lia))) as (R200 & S200 & _).
  pose proof (Check_classifies ratelimit.RecordResponse (stubbed 403)
                (ratelimit.New 100) "name" 0 403
                (stubbed_final_low 403 ltac:(lia))) as (R403 & S403 & _).
  pose proof (Check_classifies ratelimit.RecordResponse (stubbed 404)
                (ratelimit.New 100) "name" 0 404
                (stubbed_final_low 404 ltac:(lia))) as (R404 & S404 & _).
  pose proof (Check_classifies ratelimit.RecordResponse (stubbed 301)
                (ratelimit.New 100) "name" 0 301
                (stubbed_final_low 301 ltac:(lia))) as (R301 & S301 & _).
  pose proof (Check_classifies ratelimit.RecordResponse (stubbed 500)
                (ratelimit.New 100) "name" 2 500
                (stubbed_final_high 500 ltac:(lia))) as (R500 & S500 & _ & E500).
  repeat split; assumption.
Defined.

(** ** The rate limiter *)

Import ratelimit.

Lemma wrap64_succ (z : Z) : min_int64 <= z < max_int64 -> wrap64 (z + 1) = z + 1.
Proof. intros H. apply wrap64_id. unfold min_int64, max_int64 in *. lia. Qed.

Lemma RecordResponse_throttle (a : AdaptiveLimiter) (code : Z) :
  code = 429 \/ code = 503 ->
  min_int64 <= consecutive429 a < max_int64 ->
  let a' := RecordResponse a code in
  successCount a' = 0
  /\ maxRPS a' = maxRPS a
  /\ (consecutive429 a + 1 < 3 ->
      consecutive429 a' = consecutive429 a + 1 /\ currentRPS a' = currentRPS a)
  /\ (3 <= consecutive429 a + 1 ->
      consecutive429 a' = 0
      /\ currentRPS a' =
         (if PrimFloat.ltb (currentRPS a * 0.5) 10 then 10 else currentRPS a * 0.5)%float).
Proof.
  intros Hcode Hrange. unfold RecordResponse.
  assert (Hc : (code =? 429) || (code =? 503) = true).
  { destruct Hcode as [-> | ->]; reflexivity. }
  rewrite Hc. cbn [setCounters consecutive429 successCount].
  rewrite (wrap64_succ _ Hrange).
  destruct (Z.leb_spec 3 (consecutive429 a + 1)); simpl; repeat split; auto; lia.
Qed.

Lemma RecordResponse_other (a : AdaptiveLimiter) (code : Z) :
  code <> 429 -> code <> 503 ->
  min_int64 <= successCount a < max_int64 ->
  let a' := RecordResponse a code in
  consecutive429 a' = 0
  /\ maxRPS a' = maxRPS a
  /\ (100 <= successCount a + 1 -> PrimFloat.ltb (currentRPS a) (maxRPS a) = true ->
      successCount a' = 0
      /\ currentRPS a' =
         (let newRPS := currentRPS a * 0x1.199999999999ap+0 in
          if PrimFloat.ltb (maxRPS a) newRPS then maxRPS a else newRPS)%float)
  /\ (successCount a + 1 < 100 \/ PrimFloat.ltb (currentRPS a) (maxRPS a) = false ->
      successCount a' = successCount a + 1 /\ currentRPS a' = currentRPS a).
Proof.
  intros H429 H503 Hrange. unfold RecordResponse.
  assert (Hc : (code =? 429) || (code =? 503) = false).
  { apply orb_false_iff. split; now apply Z.eqb_neq. }
  rewrite Hc. cbn [setCounters consecutive429 successCount maxRPS].
  rewrite (wrap64_succ _ Hrange).
  destruct (Z.leb_spec 100 (successCount a + 1));
    destruct (PrimFloat.ltb (currentRPS a) (maxRPS a)) eqn:Hlt; simpl;
    repeat split; auto; try lia; try discriminate;
    intros [? | ?]; (lia || discriminate).
Qed.

Lemma wrap64_range (z : Z) : min_int64 <= wrap64 z <= max_int64.
Proof.
  unfold wrap64, min_int64, max_int64.
  pose proof (Z.mod_pos_bound (z + 2 ^ 63) (2 ^ 64) ltac:(lia)). lia.
Qed.

(** The counters stay in range: the failure counter never reaches 3. *)
Lemma RecordResponse_counters (a : AdaptiveLimiter) (code : Z) :
  0 <= consecutive429 a <= 2 ->
  min_int64 <= successCount a <= max_int64 ->
  0 <= consecutive429 (RecordResponse a code) <= 2
  /\ min_int64 <= successCount (RecordResponse a code) <= max_int64.
Proof.
  intros Hc Hs. unfold RecordResponse.
  destruct ((code =? 429) || (code =? 503)).
  - cbn [setCounters consecutive429 successCount].
    rewrite wrap64_succ by (unfold min_int64, max_int64; lia).
    destruct (Z.leb_spec 3 (consecutive429 a + 1)); simpl;
      unfold min_int64, max_int64; lia.
  - cbn [setCounters consecutive429 successCount maxRPS].
    pose proof (wrap64_range (successCount a + 1)).
    destruct (_ && _); simpl; unfold min_int64, max_int64 in *; lia.
Qed.

Lemma RecordAll_counters (codes : list Z) (a : AdaptiveLimiter) :
  0 <= consecutive429 a <= 2 ->
  min_int64 <= successCount a <= max_int64 ->
  0 <= consecutive429 (RecordAll a codes) <= 2
  /\ min_int64 <= successCount (RecordAll a codes) <= max_int64.
Proof.
  unfold RecordAll. revert a. induction codes as [|code codes IH]; intros a Hc Hs.
  - simpl. auto.
  - simpl. destruct (RecordResponse_counters a code Hc Hs) as [Hc' Hs'].
    now apply IH.
Qed.

(** Two floats with different comparison outcomes are different. *)
Lemma float_neq (x y : float) : PrimFloat.eqb x y = false -> PrimFloat.eqb y y = true -> x <> y.
Proof. intros Hxy Hyy ->. congruence. Qed.

(** C2, as the limiter computes it: the 100 successes after the three 429
  responses leave the rate one unit in the last place above 55. *)
Lemma RecordResponse_recovery_not_55 : currentRPS afterRecovery <> 55%float.
Proof. apply float_neq; vm_compute; reflexivity. Qed.

(** C2 (amended): a 429 or 503 increments the failure counter and resets
  the success counter; the third consecutive one halves the rate, floored at
  10, and resets the failure counter; any other status resets the failure
  counter and increments the success counter, and the hundredth consecutive
  success below the ceiling raises the rate to min(ceiling, rate * 1.1) and
  resets the success counter.  From ceiling 100, three 429 responses leave
  the rate at 50, and 100 further successes leave it at the binary64 product
  50 * 1.1, which is 55.000000000000007. *)
Theorem RecordResponse_aimd :
  (forall a code, code = 429 \/ code = 503 ->
     min_int64 <= consecutive429 a < max_int64 ->
     let a' := RecordResponse a code in
     successCount a' = 0
     /\ maxRPS a' = maxRPS a
     /\ (consecutive429 a + 1 < 3 ->
         consecutive429 a' = consecutive429 a + 1 /\ currentRPS a' = currentRPS a)
     /\ (3 <= consecutive429 a + 1 ->
         consecutive429 a' = 0
         /\ currentRPS a' =
            (if PrimFloat.ltb (currentRPS a * 0.5) 10 then 10
             else currentRPS a * 0.5)%float))
  /\ (forall a code, code <> 429 -> code <> 503 ->
     min_int64 <= successCount a < max_int64 ->
     let a' := RecordResponse a code in
     consecutive429 a' = 0
     /\ maxRPS a' = maxRPS a
     /\ (100 <= successCount a + 1 -> PrimFloat.ltb (currentRPS a) (maxRPS a) = true ->
         successCount a' = 0
         /\ currentRPS a' =
            (let newRPS := currentRPS a * 0x1.199999999999ap+0 in
             if PrimFloat.ltb (maxRPS a) newRPS then maxRPS a else newRPS)%float)
     /\ (successCount a + 1 < 100 \/ PrimFloat.ltb (currentRPS a) (maxRPS a) = false ->
         successCount a' = successCount a + 1 /\ currentRPS a' = currentRPS a))
  /\ (forall ceiling codes,
      let a := RecordAll (New ceiling) codes in
      0 <= consecutive429 a <= 2 /\ min_int64 <= successCount a <= max_int64)
  /\ currentRPS (New 100) = 100%float
  /\ currentRPS afterThrottle = 50%float
  /\ consecutive429 afterThrottle = 0
  /\ currentRPS afterRecovery = (50 * 0x1.199999999999ap+0)%float
  /\ currentRPS afterRecovery = 0x1.b800000000001p+5%float
  /\ (currentRPS afterRecovery - 55 = 0x1p-47)%float
  /\ successCount afterRecovery = 0.
Proof.
  split; [exact RecordResponse_throttle|].
  split; [exact RecordResponse_other|].
  split.
  { intros ceiling codes. apply RecordAll_counters; simpl;
      unfold min_int64, max_int64; lia. }
  repeat split; vm_compute; reflexivity.
Qed.

(** C3, on the limiter of [src/unnamed/part_008]: status 0 takes the branch
  of the non-throttle statuses, so a network failure counts as a success
  and the rate is not decreased. *)
Theorem RecordResponse_zero_is_success :
  let a := RecordResponse (New 100) 0 in
  currentRPS a = 100%float
  /\ currentRPS a <> (100 * 0x1.3333333333333p-2)%float
  /\ consecutive429 a = 0
  /\ successCount a = 1
  /\ (forall a0, RecordResponse a0 0 = RecordResponse a0 200).
Proof.
  cbv zeta. split; [vm_compute; reflexivity|].
  split; [apply float_neq; vm_compute; reflexivity|].
  split; [reflexivity|]. split; [reflexivity|].
  intros a0. reflexivity.
Qed.


Lemma netfail_RecordResponse_zero_100 :
  currentRPS (ratelimit_netfail.RecordResponse (New 100) 0) = 30%float.
Proof. vm_compute. reflexivity. Qed.

(** C8, at ceiling 5: the limiter starts below the floor of 10, and three
  429 responses lift the rate to 10, above the ceiling. *)
Theorem RecordResponse_exceeds_small_ceiling :
  let a0 := New 5 in
  let a := RecordAll a0 [429; 429; 429] in
  maxRPS a = 5%float
  /\ currentRPS a0 = 5%float
  /\ PrimFloat.ltb (currentRPS a0) 10 = true
  /\ currentRPS a = 10%float
  /\ PrimFloat.ltb (maxRPS a) (currentRPS a) = true.
Proof. repeat split; vm_compute; reflexivity. Qed.

(** ** The rate limiter over runs of responses *)

Import limiter_spec.

Lemma SFcompare_refl_not_lt (f : spec_float) : SFcompare f f <> Some Lt.
Proof.
  destruct f as [s|s| |s m e]; simpl; try destruct s; try discriminate.
  - rewrite Z.compare_refl. rewrite Pos.compare_cont_refl. discriminate.
  - rewrite Z.compare_refl. rewrite Pos.compare_cont_refl. discriminate.
Qed.

Lemma ltb_irrefl (x : float) : PrimFloat.ltb x x = false.
Proof.
  rewrite ltb_spec. unfold SFltb.
  pose proof (SFcompare_refl_not_lt (Prim2SF x)).
  destruct (SFcompare (Prim2SF x) (Prim2SF x)) as [[]|]; congruence.
Qed.

Lemma RecordResponse_maxRPS (a : AdaptiveLimiter) (code : Z) :
  maxRPS (RecordResponse a code) = maxRPS a.
Proof.
  unfold RecordResponse.
  destruct ((code =? 429) || (code =? 503)); cbn.
  - destruct (3 <=? wrap64 (consecutive429 a + 1)); reflexivity.
  - destruct ((100 <=? wrap64 (successCount a + 1)) && _); reflexivity.
Qed.

Lemma RecordResponse_inSync (a : AdaptiveLimiter) (code : Z) :
  inSync a -> inSync (RecordResponse a code).
Proof.
  intros [Hl Hb]. unfold RecordResponse, inSync.
  destruct ((code =? 429) || (code =? 503)); cbn.
  - destruct (3 <=? wrap64 (consecutive429 a + 1)); cbn; auto.
  - destruct ((100 <=? wrap64 (successCount a + 1)) && _); cbn; auto.
Qed.

Lemma RecordAll_maxRPS (codes : list Z) (a : AdaptiveLimiter) :
  maxRPS (RecordAll a codes) = maxRPS a.
Proof.
  unfold RecordAll. revert a. induction codes as [|code codes IH]; intros a; [reflexivity|].
  cbn [foldl]. now rewrite IH, RecordResponse_maxRPS.
Qed.

(** X1: whatever statuses are recorded after [New], the ceiling stays the one
  [New] fixed (100 for a ceiling that is not positive) and the token bucket
  keeps the stored rate as its limit and its truncation as its burst. *)
Theorem RecordAll_ceiling_and_bucket (m : float) (codes : list Z) :
  let a := RecordAll (New m) codes in
  maxRPS a = (if PrimFloat.leb m 0 then 100%float else m)
  /\ limit (limiter a) = currentRPS a
  /\ burst (limiter a) = int_of_float (currentRPS a).
Proof.
  cbv zeta.
  assert (Hgen : forall a, inSync a ->
            maxRPS (RecordAll a codes) = maxRPS a /\ inSync (RecordAll a codes)).
  { unfold RecordAll. induction codes as [|code codes IH]; intros a Ha; cbn [foldl].
    - auto.
    - destruct (IH (RecordResponse a code)) as [Hm Hs].
      + now apply RecordResponse_inSync.
      + split; [|exact Hs]. now rewrite Hm, RecordResponse_maxRPS. }
  destruct (Hgen (New m)) as [Hm [Hl Hb]].
  - split; reflexivity.
  - rewrite Hm. auto.
Qed.

Lemma RecordResponse_steady (a : AdaptiveLimiter) (code : Z) (run : nat) :
  consecutive429 a = Z.of_nat run ->
  (if throttled code then run < 2 else run <= 2)%nat ->
  currentRPS a = maxRPS a ->
  RecordResponse a code =
  if throttled code then setCounters a (Z.of_nat (S run)) 0
  else setCounters a 0 (wrap64 (successCount a + 1)).
Proof.
  intros Hc Hrun Hcur. unfold RecordResponse, throttled in *.
  destruct ((code =? 429) || (code =? 503)).
  - rewrite Hc. rewrite wrap64_id by (unfold min_int64, max_int64; lia).
    cbn [consecutive429 setCounters].
    destruct (3 <=? Z.of_nat run + 1) eqn:E; [apply Z.leb_le in E; lia|].
    f_equal. lia.
  - cbn [successCount setCounters maxRPS].
    now rewrite Hcur, ltb_irrefl, andb_false_r.
Qed.

Lemma RecordAll_steady (codes : list Z) (run : nat) (a : AdaptiveLimiter) :
  noThreeThrottles run codes = true ->
  consecutive429 a = Z.of_nat run -> (run <= 2)%nat ->
  currentRPS a = maxRPS a ->
  currentRPS (RecordAll a codes) = currentRPS a
  /\ limiter (RecordAll a codes) = limiter a.
Proof.
  unfold RecordAll. revert run a.
  induction codes as [|code codes IH]; intros run a Hno Hc Hrun Hcur; cbn [foldl].
  - auto.
  - cbn [noThreeThrottles] in Hno.
    rewrite (RecordResponse_steady a code run Hc); [| |exact Hcur].
    + destruct (throttled code).
      * apply andb_true_iff in Hno as [Hlt Hno]. apply Nat.ltb_lt in Hlt.
        apply (IH (S run) (setCounters a (Z.of_nat (S run)) 0)); cbn; auto; lia.
      * apply (IH 0%nat (setCounters a 0 (wrap64 (successCount a + 1)))); cbn; auto; lia.
    + destruct (throttled code); [|exact Hrun].
      apply andb_true_iff in Hno as [Hlt _]. now apply Nat.ltb_lt in Hlt.
Qed.

(** X2: from a fresh limiter, a run of statuses that never holds three
  throttles (429 or 503) in a row leaves the rate and the token bucket as
  [New] set them. *)
Theorem RecordAll_no_triple_keeps_rate (m : float) (codes : list Z) :
  noThreeThrottles 0 codes = true ->
  let a := RecordAll (New m) codes in
  currentRPS a = maxRPS a
  /\ currentRPS a = currentRPS (New m)
  /\ limiter a = limiter (New m).
Proof.
  intros Hno a.
  destruct (RecordAll_steady codes 0 (New m) Hno) as [Hc Hl]; try reflexivity; try lia.
  subst a. rewrite Hc, Hl. repeat split.
  now rewrite RecordAll_maxRPS.
Qed.

Lemma RecordAll_no_triple_keeps_rate_witness :
  noThreeThrottles 0 [429; 429; 200; 503; 429; 404; 503] = true
  /\ currentRPS (RecordAll (New 40) [429; 429; 200; 503; 429; 404; 503]) = 40%float.
Proof.
  split; [reflexivity|].
  destruct (RecordAll_no_triple_keeps_rate 40 [429; 429; 200; 503; 429; 404; 503])
    as (_ & H & _); [reflexivity|exact H].
Defined.

(** X3: one [RecordResponse] either keeps the rate, or, on a throttle,
  stores the floor 10 or half the rate, never a value below 10, or, on
  another status, stores a value that does not exceed the ceiling, and only
  when the rate was below it. *)
Theorem RecordResponse_clamped (a : AdaptiveLimiter) (code : Z) :
  let a' := RecordResponse a code in
  currentRPS a' = currentRPS a
  \/ (throttled code = true /\ PrimFloat.ltb (currentRPS a') 10 = false
      /\ (currentRPS a' = 10%float \/ currentRPS a' = (currentRPS a * 0.5)%float))
  \/ (throttled code = false /\ PrimFloat.ltb (maxRPS a) (currentRPS a') = false
      /\ PrimFloat.ltb (currentRPS a) (maxRPS a) = true).
Proof.
  cbv zeta. unfold RecordResponse, throttled.
  destruct ((code =? 429) || (code =? 503)).
  - destruct (3 <=? _); [|now left].
    right; left. cbn. unfold decreased.
    destruct (PrimFloat.ltb (currentRPS a * 0.5) 10) eqn:E; auto.
  - destruct (100 <=? _); cbn [andb setCounters maxRPS]; [|now left].
    destruct (PrimFloat.ltb (currentRPS a) (maxRPS a)) eqn:Hlt; [|now left].
    right; right. cbn. unfold increased.
    destruct (PrimFloat.ltb (maxRPS a) (currentRPS a * _)) eqn:E;
      auto using ltb_irrefl.
Qed.




(** ** The prober and the limiter together *)

Import probe_shapes.

Lemma switchStatus_coherent (resp : ProbeResponse) (s : Z) :
  Error resp = None ->
  coherent (Bucket resp) (switchStatus (withStatusCode resp s) s).
Proof.
  intros He. unfold switchStatus, coherent.
  destruct (s =? 200) eqn:E200; [apply Z.eqb_eq in E200; cbn; auto|].
  destruct (s =? 403) eqn:E403; [apply Z.eqb_eq in E403; cbn; auto|].
  destruct (s =? 404) eqn:E404; [apply Z.eqb_eq in E404; cbn; auto|].
  destruct ((s =? 301) || (s =? 307)) eqn:E3; cbn.
  - apply orb_true_iff in E3 as [E|E]; apply Z.eqb_eq in E; auto.
  - split; [reflexivity|discriminate].
Qed.

Lemma attempts_coherent (record : ratelimit.AdaptiveLimiter -> Z -> ratelimit.AdaptiveLimiter)
    (client : Z -> Attempt) (remaining : nat) (attempt : Z)
    (lim : ratelimit.AdaptiveLimiter) (resp : ProbeResponse) :
  attempt + Z.of_nat remaining = maxRetries + 1 ->
  (0 < remaining)%nat ->
  Error resp = None ->
  coherent (Bucket resp) (attempts record remaining attempt client lim resp).1.
Proof.
  revert attempt lim.
  induction remaining as [|remaining IH]; intros attempt lim Hsum Hpos He; [lia|].
  unfold maxRetries in Hsum.
  cbn [attempts].
  destruct (client attempt) as [err|err|err|s].
  - cbn. split; [reflexivity|discriminate].
  - cbn. split; [reflexivity|discriminate].
  - destruct (attempt <? maxRetries) eqn:E.
    + apply Z.ltb_lt in E. unfold maxRetries in E.
      apply IH; auto; unfold maxRetries; lia.
    + cbn. split; [reflexivity|discriminate].
  - destruct ((500 <=? s) && (attempt <? maxRetries)) eqn:E.
    + apply andb_true_iff in E as [_ E]. apply Z.ltb_lt in E. unfold maxRetries in E.
      apply IH; auto; unfold maxRetries; lia.
    + cbn [fst]. now apply switchStatus_coherent.
Qed.

(** X5: whatever the passes of a probe meet, the response of [Check] names
  the probed bucket and its fields agree: Exists comes with status 200,
  Forbidden with 403, 301 or 307, NotFound with 404, each without an error,
  and Error always carries one; the zero value NotFound never leaks out with
  status 0. *)
Theorem Check_coherent (record : ratelimit.AdaptiveLimiter -> Z -> ratelimit.AdaptiveLimiter)
    (client : Z -> Attempt) (lim : ratelimit.AdaptiveLimiter) (bucket : string) :
  let resp := (Check record client lim bucket).1 in
  Bucket resp = bucket
  /\ match Result resp with
     | BucketExists => StatusCode resp = 200 /\ Error resp = None
     | BucketForbidden =>
         (StatusCode resp = 403 \/ StatusCode resp = 301 \/ StatusCode resp = 307)
         /\ Error resp = None
     | BucketNotFound => StatusCode resp = 404 /\ Error resp = None
     | BucketError => Error resp <> None
     end.
Proof.
  unfold Check.
  apply (attempts_coherent record client (Z.to_nat (maxRetries + 1)) 0 lim
           {| Bucket := bucket; Result := BucketNotFound; StatusCode := 0; Error := None |}).
  - reflexivity.
  - change (Z.to_nat (maxRetries + 1)) with 3%nat. lia.
  - reflexivity.
Qed.

(** X6: when the transport fails on all three passes, [Check] answers
  Error with status 0 and the last failure wrapped as a network error, and
  reports status 0 to the limiter once. *)
Theorem Check_transport_failure
    (record : ratelimit.AdaptiveLimiter -> Z -> ratelimit.AdaptiveLimiter)
    (client : Z -> Attempt) (lim : ratelimit.AdaptiveLimiter) (bucket : string)
    (e0 e1 e2 : string) :
  client 0 = DoFails e0 -> client 1 = DoFails e1 -> client 2 = DoFails e2 ->
  Check record client lim bucket =
  ({| Bucket := bucket; Result := BucketError; StatusCode := 0;
      Error := Some ("network error: " +:+ e2) |}, record lim 0).
Proof.
  intros H0 H1 H2. unfold Check.
  change (Z.to_nat (maxRetries + 1)) with 3%nat.
  cbn [attempts]. rewrite H0. change (0 <? maxRetries) with true. cbv iota.
  change (0 + 1) with 1. rewrite H1. change (1 <? maxRetries) with true. cbv iota.
  change (1 + 1) with 2. rewrite H2. reflexivity.
Qed.

Lemma Check_transport_failure_witness :
  Check ratelimit.RecordResponse transportFails (ratelimit.New 100) "name" =
  ({| Bucket := "name"; Result := BucketError; StatusCode := 0;
      Error := Some "network error: timeout 2" |},
   ratelimit.RecordResponse (ratelimit.New 100) 0).
Proof.
  exact (Check_transport_failure ratelimit.RecordResponse transportFails
           (ratelimit.New 100) "name" "timeout 0" "timeout 1" "timeout 2"
           eq_refl eq_refl eq_refl).
Defined.

Lemma Check_three_responses
    (record : ratelimit.AdaptiveLimiter -> Z -> ratelimit.AdaptiveLimiter)
    (client : Z -> Attempt) (lim : ratelimit.AdaptiveLimiter) (bucket : string)
    (s0 s1 s2 : Z) :
  client 0 = Responds s0 -> client 1 = Responds s1 -> client 2 = Responds s2 ->
  500 <= s0 -> 500 <= s1 ->
  Check record client lim bucket =
  (switchStatus (withStatusCode
     {| Bucket := bucket; Result := BucketNotFound; StatusCode := 0; Error := None |} s2) s2,
   record (record (record lim s0) s1) s2).
Proof.
  intros H0 H1 H2 Hs0 Hs1. unfold Check.
  change (Z.to_nat (maxRetries + 1)) with 3%nat.
  cbn [attempts]. rewrite H0. change (0 <? maxRetries) with true.
  replace (500 <=? s0) with true by (symmetry; now apply Z.leb_le). cbn [andb]. cbv iota.
  change (0 + 1) with 1. rewrite H1. change (1 <? maxRetries) with true.
  replace (500 <=? s1) with true by (symmetry; now apply Z.leb_le). cbn [andb]. cbv iota.
  change (1 + 1) with 2. rewrite H2. change (2 <? maxRetries) with false.
  rewrite andb_false_r. reflexivity.
Qed.

(** X7: when the first two passes are answered with 5xx statuses, [Check]
  reports all three responses to the limiter, in order, and keeps the status
  of the third. *)
Theorem Check_retried_responses_reported
    (record : ratelimit.AdaptiveLimiter -> Z -> ratelimit.AdaptiveLimiter)
    (client : Z -> Attempt) (lim : ratelimit.AdaptiveLimiter) (bucket : string)
    (s0 s1 s2 : Z) :
  client 0 = Responds s0 -> client 1 = Responds s1 -> client 2 = Responds s2 ->
  500 <= s0 -> 500 <= s1 ->
  (Check record client lim bucket).2 = record (record (record lim s0) s1) s2
  /\ StatusCode (Check record client lim bucket).1 = s2.
Proof.
  intros H0 H1 H2 Hs0 Hs1.
  rewrite (Check_three_responses record client lim bucket s0 s1 s2) by assumption.
  cbn [fst snd]. split; [reflexivity|].
  destruct (switchStatus_spec (withStatusCode
     {| Bucket := bucket; Result := BucketNotFound; StatusCode := 0; Error := None |} s2) s2)
    as (_ & Hst & _); [reflexivity|].
  exact Hst.
Qed.

Lemma Check_retried_responses_reported_witness :
  (Check ratelimit.RecordResponse (stubbed 502) (ratelimit.New 100) "name").2 =
  ratelimit.RecordAll (ratelimit.New 100) [502; 502; 502]
  /\ StatusCode (Check ratelimit.RecordResponse (stubbed 502) (ratelimit.New 100) "name").1
     = 502.
Proof.
  apply (Check_retried_responses_reported ratelimit.RecordResponse (stubbed 502)
           (ratelimit.New 100) "name" 502 502 502); try reflexivity; lia.
Defined.

Lemma RecordResponse_503_step (a : ratelimit.AdaptiveLimiter) :
  0 <= ratelimit.consecutive429 a <= 2 ->
  let a' := ratelimit.RecordResponse a 503 in
  (ratelimit.consecutive429 a < 2 ->
   ratelimit.consecutive429 a' = ratelimit.consecutive429 a + 1
   /\ ratelimit.currentRPS a' = ratelimit.currentRPS a)
  /\ (ratelimit.consecutive429 a = 2 ->
      ratelimit.consecutive429 a' = 0
      /\ ratelimit.currentRPS a' = ratelimit.decreased (ratelimit.currentRPS a)).
Proof.
  intros Hc.
  destruct (RecordResponse_throttle a 503) as (_ & _ & Hlow & Hhigh);
    [now right|unfold min_int64, max_int64; lia|].
  split; intros H; [apply Hlow; lia|apply Hhigh; lia].
Qed.

(** X8: a bucket that answers 503 on every pass makes the limiter of
  [part_008] halve its rate (floored at 10) exactly once, from any reachable
  count of earlier throttles, and the probe ends as Error with status 503. *)
Theorem Check_persistent_503 (client : Z -> Attempt)
    (lim : ratelimit.AdaptiveLimiter) (bucket : string) :
  (forall k, 0 <= k <= maxRetries -> client k = Responds 503) ->
  0 <= ratelimit.consecutive429 lim <= 2 ->
  let out := Check ratelimit.RecordResponse client lim bucket in
  Result out.1 = BucketError
  /\ StatusCode out.1 = 503
  /\ Error out.1 = Some "unexpected status code: 503"
  /\ ratelimit.currentRPS out.2 = ratelimit.decreased (ratelimit.currentRPS lim)
  /\ ratelimit.consecutive429 out.2 = ratelimit.consecutive429 lim.
Proof.
  intros Hall Hc. cbv zeta.
  rewrite (Check_three_responses ratelimit.RecordResponse client lim bucket 503 503 503)
    by (try apply Hall; unfold maxRetries; lia).
  cbn [fst snd].
  split; [reflexivity|]. split; [reflexivity|]. split; [reflexivity|].
  set (a1 := ratelimit.RecordResponse lim 503).
  set (a2 := ratelimit.RecordResponse a1 503).
  destruct (RecordResponse_503_step lim Hc) as [L1 H1]. fold a1 in L1, H1.
  assert (Hc1 : 0 <= ratelimit.consecutive429 a1 <= 2).
  { destruct (Z.eq_dec (ratelimit.consecutive429 lim) 2) as [E|E];
      [destruct (H1 E); lia|destruct L1; lia]. }
  destruct (RecordResponse_503_step a1 Hc1) as [L2 H2]. fold a2 in L2, H2.
  assert (Hc2 : 0 <= ratelimit.consecutive429 a2 <= 2).
  { destruct (Z.eq_dec (ratelimit.consecutive429 a1) 2) as [E|E];
      [destruct (H2 E); lia|destruct L2; lia]. }
  destruct (RecordResponse_503_step a2 Hc2) as [L3 H3].
  destruct (Z.eq_dec (ratelimit.consecutive429 lim) 2) as [E0|E0].
  - destruct (H1 E0) as [C1 R1].
    destruct L2 as [C2 R2]; [lia|]. destruct L3 as [C3 R3]; [lia|].
    rewrite R3, R2, R1. split; [reflexivity|lia].
  - destruct L1 as [C1 R1]; [lia|].
    destruct (Z.eq_dec (ratelimit.consecutive429 a1) 2) as [E1|E1].
    + destruct (H2 E1) as [C2 R2]. destruct L3 as [C3 R3]; [lia|].
      rewrite R3, R2, R1. split; [reflexivity|lia].
    + destruct L2 as [C2 R2]; [lia|]. destruct H3 as [C3 R3]; [lia|].
      rewrite R3, R2, R1. split; [reflexivity|lia].
Qed.

Lemma Check_persistent_503_witness :
  ratelimit.currentRPS
    (Check ratelimit.RecordResponse (stubbed 503) (ratelimit.New 100) "name").2 = 50%float.
Proof.
  destruct (Check_persistent_503 (stubbed 503) (ratelimit.New 100) "name")
    as (_ & _ & _ & H & _); [reflexivity|cbn; lia|exact H].
Defined.

Lemma attempts_agree (record : ratelimit.AdaptiveLimiter -> Z -> ratelimit.AdaptiveLimiter)
    (c1 c2 : Z -> Attempt) (remaining : nat) (attempt : Z)
    (lim : ratelimit.AdaptiveLimiter) (resp : ProbeResponse) :
  attempt + Z.of_nat remaining = maxRetries + 1 ->
  0 <= attempt ->
  (forall k, 0 <= k <= maxRetries -> c1 k = c2 k) ->
  attempts record remaining attempt c1 lim resp =
  attempts record remaining attempt c2 lim resp.
Proof.
  intros Hsum Hpos Hagree. revert attempt lim Hsum Hpos.
  induction remaining as [|remaining IH]; intros attempt lim Hsum Hpos; [reflexivity|].
  cbn [attempts]. rewrite <- (Hagree attempt) by lia.
  destruct (c1 attempt) as [err|err|err|s]; try reflexivity.
  - destruct (attempt <? maxRetries); [apply IH; lia|reflexivity].
  - destruct ((500 <=? s) && (attempt <? maxRetries)); [apply IH; lia|reflexivity].
Qed.

(** X9: [Check] makes at most three passes: two clients that agree on the
  passes 0, 1 and 2 give the same response and the same limiter. *)
Theorem Check_three_passes
    (record : ratelimit.AdaptiveLimiter -> Z -> ratelimit.AdaptiveLimiter)
    (c1 c2 : Z -> Attempt) (lim : ratelimit.AdaptiveLimiter) (bucket : string) :
  (forall k, 0 <= k <= maxRetries -> c1 k = c2 k) ->
  Check record c1 lim bucket = Check record c2 lim bucket.
Proof.
  intros Hagree. unfold Check. apply attempts_agree; [reflexivity|lia|exact Hagree].
Qed.

Lemma Check_three_passes_witness :
  Check ratelimit.RecordResponse failsFromThird (ratelimit.New 100) "name" =
  Check ratelimit.RecordResponse (stubbed 500) (ratelimit.New 100) "name".
Proof.
  apply (Check_three_passes ratelimit.RecordResponse failsFromThird (stubbed 500)).
  intros k Hk. unfold failsFromThird, stubbed, maxRetries in *.
  destruct (k <=? 2) eqn:E; [reflexivity|apply Z.leb_gt in E; lia].
Defined.

(** ** Wordlists *)

Lemma existsb_elem (x : string) (l : list string) :
  existsb (String.eqb x) l = true -> x ∈ l.
Proof.
  intros Hex. apply existsb_exists in Hex as [y [Hy Heq]].
  apply String.eqb_eq in Heq as ->. now apply list_elem_of_In.
Qed.

Lemma elem_of_concat_map {A} (f : A -> list string) (xs : list A) (x : A) (y : string) :
  x ∈ xs -> y ∈ f x -> y ∈ concat (map f xs).
Proof.
  rewrite !list_elem_of_In. intros Hx Hy. apply in_concat.
  exists (f x). split; [now apply in_map | exact Hy].
Qed.

Lemma wordCandidates_word (e : Engine) (seed word : string) :
  word ∈ wordCandidates e seed word.
Proof.
  unfold wordCandidates. apply elem_of_app. left.
  apply list_elem_of_singleton. reflexivity.
Qed.

Lemma wordCandidates_suffix (e : Engine) (seed word suffix : string) :
  suffix ∈ Suffixes e -> (word +:+ suffix) ∈ wordCandidates e seed word.
Proof.
  intros Hs. unfold wordCandidates.
  apply elem_of_app. right. apply elem_of_app. right. apply elem_of_app. left.
  eapply elem_of_concat_map; [exact Hs|]. apply elem_of_cons. now left.
Qed.

Lemma wordCandidates_year (e : Engine) (seed word year : string) :
  year ∈ Years e -> (word +:+ year) ∈ wordCandidates e seed word.
Proof.
  intros Hy. unfold wordCandidates.
  apply elem_of_app. right. apply elem_of_app. right. apply elem_of_app. right.
  eapply elem_of_concat_map; [exact Hy|]. apply elem_of_cons. now left.
Qed.

Lemma IsValidBucketName_not_empty (s : string) : IsValidBucketName s = true -> s <> "".
Proof. intros Hv ->. discriminate. Qed.

Section WordlistFacts.
Context `{Strings}.

(** Every valid name among the candidates of a wordlist line is generated. *)
Lemma GenerateFromWordlist_elem (e : Engine) (words : list string) (seed word x : string) :
  word ∈ words ->
  ToLower (TrimSpace word) <> "" ->
  x ∈ wordCandidates e (ToLower (TrimSpace seed)) (ToLower (TrimSpace word)) ->
  IsValidBucketName x = true ->
  x ∈ GenerateFromWordlist e words seed.
Proof.
  intros Hword Hne Hx Hv. rewrite GenerateFromWordlist_keepFirst.
  unfold keepFirstValid. apply keepFirst_elem.
  split; [|split; [exact Hv | intros Hin; inversion Hin]].
  unfold wordlistCandidates.
  eapply elem_of_concat_map; [exact Hword|]. cbv zeta.
  rewrite bool_decide_eq_false_2 by exact Hne. exact Hx.
Qed.

End WordlistFacts.

Lemma main_add_addIf (st : Acc) (names : list string) :
  main_common.add st names = foldl (addIf (fun _ => true)) st names.
Proof.
  unfold main_common.add. revert st.
  induction names as [|name names IH]; intros st; [reflexivity|].
  cbn [foldl]. rewrite IH. f_equal. unfold addIf. now rewrite andb_true_r.
Qed.

Lemma main_add_results (names : list string) :
  results (main_common.add emptyAcc names) = keepFirst (fun _ => true) [] names.
Proof.
  rewrite main_add_addIf.
  now rewrite (foldl_addIf_results _ names [] emptyAcc (tracks_empty _)).
Qed.

(** With only a wordlist given, the second [generateNames] returns the
  lines of the file as they are, each at its first occurrence. *)
Lemma generateNames_raw_wordlist `{Strings} (readFile : string -> string + string)
    (fetchSubdomains : string -> option (list string))
    (rangeOrder : gmap string unit -> list string)
    (aiGenerate : string -> list string -> option (list string))
    (path data : string) :
  path <> "" ->
  readFile path = inl data ->
  main_raw.generateNames readFile fetchSubdomains rangeOrder aiGenerate
    {| config.Seed := ""; config.Wordlist := path; config.Domain := "";
       config.AIEnabled := false |}
  = inl (keepFirst (fun _ => true) [] (config.readLines data "")).
Proof.
  intros Hpath Hread. unfold main_raw.generateNames. cbn [config.Seed config.Wordlist
    config.Domain config.AIEnabled].
  rewrite (bool_decide_eq_false_2 ("" ≠ "")) by (intros Hn; now apply Hn).
  rewrite (bool_decide_eq_true_2 (path ≠ "")) by exact Hpath.
  unfold config.LoadWordlist.
  rewrite (bool_decide_eq_false_2 (path = "")) by exact Hpath.
  rewrite Hread. cbv zeta. now rewrite main_add_results.
Qed.

Lemma elem_of_concat_map_iff {A} (f : A -> list string) (xs : list A) (y : string) :
  y ∈ concat (map f xs) <-> exists x, x ∈ xs /\ y ∈ f x.
Proof.
  rewrite list_elem_of_In, in_concat. split.
  - intros (l & Hl & Hy). apply in_map_iff in Hl as (x & <- & Hx).
    exists x. now rewrite !list_elem_of_In.
  - intros (x & Hx & Hy). exists (f x).
    apply list_elem_of_In in Hx. apply list_elem_of_In in Hy.
    split; [now apply in_map | exact Hy].
Qed.

#[local] Set Warnings "-clear-no-such-hyp".

(** The candidates of one normalised word, spelled out. *)
Lemma wordCandidates_elem (e : Engine) (s w x : string) :
  x ∈ wordCandidates e s w <->
  x = w
  \/ (exists suffix, suffix ∈ Suffixes e /\ x = w +:+ suffix)
  \/ (exists year, year ∈ Years e /\ x = w +:+ year)
  \/ (s <> "" /\
      (x = (s +:+ "-") +:+ w \/ x = (w +:+ "-") +:+ s
       \/ x = (s +:+ ".") +:+ w \/ x = (w +:+ ".") +:+ s
       \/ (exists suffix, suffix ∈ Suffixes e /\ x = ((s +:+ "-") +:+ w) +:+ suffix)
       \/ (exists year, year ∈ Years e /\ x = ((s +:+ "-") +:+ w) +:+ year))).
Proof.
  unfold wordCandidates.
  rewrite !elem_of_app, !elem_of_concat_map_iff.
  case_bool_decide as Hs; set_unfold; naive_solver.
Qed.

Section WordlistMembership.
Context `{Strings}.

Lemma GenerateFromWordlist_elem_iff (e : Engine) (words : list string) (seed x : string) :
  x ∈ GenerateFromWordlist e words seed <->
  IsValidBucketName x = true
  /\ exists word, word ∈ words
       /\ ToLower (TrimSpace word) <> ""
       /\ x ∈ wordCandidates e (ToLower (TrimSpace seed)) (ToLower (TrimSpace word)).
Proof.
  rewrite GenerateFromWordlist_keepFirst. unfold keepFirstValid.
  rewrite keepFirst_elem. unfold wordlistCandidates.
  rewrite elem_of_concat_map_iff. split.
  - intros ((word & Hword & Hx) & Hv & _). split; [exact Hv|].
    exists word. cbv zeta in Hx. case_bool_decide as Hw; [inversion Hx|]. auto.
  - intros (Hv & word & Hword & Hw & Hx).
    split; [|split; [exact Hv|intros Hin; inversion Hin]].
    exists word. split; [exact Hword|]. cbv zeta.
    now rewrite bool_decide_eq_false_2 by exact Hw.
Qed.

End WordlistMembership.

Lemma addIf_closed (st : Acc) (x : string) :
  tracks (fun _ : string => true) st (results st) ->
  tracks (fun _ : string => true) (addIf (fun _ : string => true) st x)
    (results (addIf (fun _ : string => true) st x)).
Proof.
  intros Htr y. unfold addIf. cbv beta. rewrite andb_true_r.
  case_bool_decide as Hseen; cbn [negb]; [apply Htr|].
  cbn [seen results]. rewrite lookup_insert_is_Some, elem_of_app, list_elem_of_singleton.
  rewrite (Htr y). cbv beta. split.
  - intros [<- | [_ [Hy _]]]; auto.
  - intros [[Hy | ->] _]; [|auto].
    destruct (decide (x = y)); [auto|right; auto].
Qed.

Lemma main_add_closed (names : list string) (st : Acc) :
  tracks (fun _ : string => true) st (results st) ->
  tracks (fun _ : string => true) (main_common.add st names) (results (main_common.add st names)).
Proof.
  rewrite main_add_addIf. revert st.
  induction names as [|x names IH]; intros st Htr; [exact Htr|].
  cbn [foldl]. apply IH. now apply addIf_closed.
Qed.

Lemma main_add_results_from (names : list string) (st : Acc) :
  tracks (fun _ : string => true) st (results st) ->
  results (main_common.add st names) =
  results st ++ keepFirst (fun _ : string => true) (results st) names.
Proof.
  intros Htr. rewrite main_add_addIf. now apply foldl_addIf_results.
Qed.

Lemma emptyAcc_closed : tracks (fun _ : string => true) emptyAcc (results emptyAcc).
Proof. apply tracks_empty. Qed.

Section RawPath.
Context `{Strings}.
Variable readFile : string -> string + string.
Variable fetchSubdomains : string -> option (list string).
Variable rangeOrder : gmap string unit -> list string.
Variable aiGenerate : string -> list string -> option (list string).

Lemma contextLoop_closed (words : list string) (st : Acc) (contextWords : list string) :
  tracks (fun _ : string => true) st (results st) ->
  let out := foldl (fun '(st, contextWords) word =>
                      (main_common.add st (Generate Default word), contextWords ++ [word]))
                   (st, contextWords) words in
  tracks (fun _ : string => true) out.1 (results out.1).
Proof.
  revert st contextWords.
  induction words as [|word words IH]; intros st contextWords Htr; [exact Htr|].
  cbn [foldl]. apply IH. now apply main_add_closed.
Qed.

Lemma generateNames_raw_general (cfg : config.Config) (data : string) :
  config.Wordlist cfg <> "" ->
  readFile (config.Wordlist cfg) = inl data ->
  exists before after,
    main_raw.generateNames readFile fetchSubdomains rangeOrder aiGenerate
      {| config.Seed := config.Seed cfg; config.Wordlist := "";
         config.Domain := config.Domain cfg; config.AIEnabled := false |}
    = inl before
    /\ main_raw.generateNames readFile fetchSubdomains rangeOrder aiGenerate cfg
       = inl (before ++ keepFirst (fun _ => true) before (config.readLines data "") ++ after)
    /\ (config.AIEnabled cfg = false -> after = [])
    /\ (forall x, x ∈ after ->
          exists contextWords aiNames,
            aiGenerate (config.Seed cfg) contextWords = Some aiNames /\ x ∈ aiNames).
Proof.
  intros Hpath Hread. unfold main_raw.generateNames.
  cbn [config.Seed config.Wordlist config.Domain config.AIEnabled].
  rewrite (bool_decide_eq_false_2 ("" ≠ "")) by (intros Hn; now apply Hn).
  rewrite (bool_decide_eq_true_2 (config.Wordlist cfg ≠ "")) by exact Hpath.
  unfold config.LoadWordlist.
  rewrite (bool_decide_eq_false_2 (config.Wordlist cfg = "")) by exact Hpath.
  rewrite Hread.
  match goal with
  | |- context [let '(st, contextWords) := ?pre in _] =>
      assert (Hpre : tracks (fun _ : string => true) pre.1 (results pre.1));
        [|destruct pre as [st0 contextWords]]
  end.
  { case_bool_decide; [|apply emptyAcc_closed].
    destruct (fetchSubdomains (config.Domain cfg)) as [subdomains|]; [|apply emptyAcc_closed].
    destruct (0 <? size _)%nat.
    - apply contextLoop_closed. apply main_add_closed, emptyAcc_closed.
    - apply main_add_closed, emptyAcc_closed. }
  cbn [fst] in Hpre. cbv zeta.
  set (st1 := if bool_decide (config.Seed cfg ≠ "")
              then main_common.add st0 (Generate Default (config.Seed cfg)) else st0).
  assert (Hst1 : tracks (fun _ : string => true) st1 (results st1)).
  { subst st1. case_bool_decide; [now apply main_add_closed|exact Hpre]. }
  set (lines := config.readLines data "").
  pose proof (main_add_results_from lines st1 Hst1) as Hmid.
  pose proof (main_add_closed lines st1 Hst1) as Hst2.
  exists (results st1).
  destruct (config.AIEnabled cfg).
  - destruct (bool_decide (config.Seed cfg = "") && (length contextWords =? 0)%nat).
    + exists []. rewrite app_nil_r, Hmid.
      split; [reflexivity|]. split; [reflexivity|]. split; [reflexivity|].
      intros x Hx. inversion Hx.
    + destruct (aiGenerate (config.Seed cfg) contextWords) as [aiNames|] eqn:Hai.
      * exists (keepFirst (fun _ : string => true) (results (main_common.add st1 lines)) aiNames).
        rewrite (main_add_results_from aiNames _ Hst2), Hmid, <- app_assoc.
        split; [reflexivity|]. split; [reflexivity|]. split; [discriminate|].
        intros x Hx. apply keepFirst_elem in Hx as (Hx & _). eauto.
      * exists []. rewrite app_nil_r, Hmid.
        split; [reflexivity|]. split; [reflexivity|]. split; [reflexivity|].
        intros x Hx. inversion Hx.
  - exists []. rewrite app_nil_r, Hmid.
    split; [reflexivity|]. split; [reflexivity|]. split; [reflexivity|].
    intros x Hx. inversion Hx.
Qed.

End RawPath.

Lemma keepFirst_fresh (ok : string -> bool) (names earlier : list string) :
  NoDup names ->
  (forall x, x ∈ names -> ok x = true /\ x ∉ earlier) ->
  keepFirst ok earlier names = names.
Proof.
  revert earlier. induction names as [|x names IH]; intros earlier Hnd Hall; [reflexivity|].
  apply NoDup_cons in Hnd as [Hx Hnd].
  cbn [keepFirst]. destruct (Hall x) as [Hok Hfresh]; [apply elem_of_cons; now left|].
  rewrite Hok, bool_decide_eq_true_2 by exact Hfresh. cbn [andb app]. f_equal.
  apply IH; [exact Hnd|]. intros y Hy.
  destruct (Hall y) as [Hoky Hfy]; [apply elem_of_cons; now right|].
  split; [exact Hoky|]. rewrite elem_of_app, list_elem_of_singleton.
  intros [Hin | ->]; contradiction.
Qed.

Section SeededPath.
Context `{Strings}.
Variable readFile : string -> string + string.
Variable aiGenerate : string -> option (list string).

Lemma Generate_NoDup (e : Engine) (seed : string) : NoDup (Generate e seed).
Proof.
  rewrite Generate_keepFirst. case_bool_decide; [constructor|apply keepFirst_NoDup].
Qed.

Lemma generateNames_seeded_general (cfg : config.Config) (data : string) :
  config.Wordlist cfg <> "" ->
  readFile (config.Wordlist cfg) = inl data ->
  let permNames := Generate Default (config.Seed cfg) in
  let wordlistNames :=
    GenerateFromWordlist Default (config.readLines data "") (config.Seed cfg) in
  exists after,
    main_seeded.generateNames readFile aiGenerate cfg
    = inl (permNames ++ keepFirst (fun _ => true) permNames wordlistNames ++ after)
    /\ (config.AIEnabled cfg = false -> after = [])
    /\ (forall x, x ∈ after ->
          exists aiNames, aiGenerate (config.Seed cfg) = Some aiNames /\ x ∈ aiNames).
Proof.
  intros Hpath Hread permNames wordlistNames. unfold main_seeded.generateNames.
  rewrite (bool_decide_eq_true_2 (config.Wordlist cfg ≠ "")) by exact Hpath.
  unfold config.LoadWordlist.
  rewrite (bool_decide_eq_false_2 (config.Wordlist cfg = "")) by exact Hpath.
  rewrite Hread. cbv zeta. fold permNames. fold wordlistNames.
  set (st1 := main_common.add emptyAcc permNames).
  assert (Hst1 : tracks (fun _ : string => true) st1 (results st1))
    by apply main_add_closed, emptyAcc_closed.
  assert (Hperm : results st1 = permNames).
  { subst st1. rewrite (main_add_results_from _ _ emptyAcc_closed). cbn [results app].
    apply keepFirst_fresh; [apply Generate_NoDup|].
    intros x _. split; [reflexivity|intros Hin; inversion Hin]. }
  pose proof (main_add_results_from wordlistNames st1 Hst1) as Hmid.
  pose proof (main_add_closed wordlistNames st1 Hst1) as Hst2.
  rewrite Hperm in Hmid.
  destruct (config.AIEnabled cfg).
  - destruct (aiGenerate (config.Seed cfg)) as [aiNames|] eqn:Hai.
    + exists (keepFirst (fun _ : string => true)
                (results (main_common.add st1 wordlistNames)) aiNames).
      rewrite (main_add_results_from aiNames _ Hst2), Hmid, <- app_assoc.
      split; [reflexivity|]. split; [discriminate|].
      intros x Hx. apply keepFirst_elem in Hx as (Hx & _). eauto.
    + exists []. rewrite app_nil_r, Hmid.
      split; [reflexivity|]. split; [reflexivity|]. intros x Hx. inversion Hx.
  - exists []. rewrite app_nil_r, Hmid.
    split; [reflexivity|]. split; [reflexivity|]. intros x Hx. inversion Hx.
Qed.

End SeededPath.

(** C4, as the code runs: the engine expands the two words into 68 names,
  and the raw path keeps a line with its blank and its capital letter. *)
Lemma wordlist_not_verbatim_normalised :
  @GenerateFromWordlist asciiStrings Default ["backup"; "logs"] "" <> ["backup"; "logs"]
  /\ @main_raw.generateNames asciiStrings (onlyFile "w.txt" paddedWord)
       (fun _ => None) someOrder (fun _ _ => None) (wordlistOnly "w.txt")
     = inl [" Backup"]
  /\ @ToLower asciiStrings (@TrimSpace asciiStrings " Backup") = "backup".
Proof.
  split; [|split].
  - intros Heq. apply (f_equal length) in Heq. vm_compute in Heq. discriminate.
  - rewrite (generateNames_raw_wordlist _ _ _ _ "w.txt" paddedWord);
      [reflexivity | discriminate | reflexivity].
  - reflexivity.
Qed.

(** C4 (amended): [GenerateFromWordlist] trims and lowercases each
  wordlist line, skips the lines that become empty, and returns, each once,
  exactly the valid names among: the line, the line followed by an engine
  suffix or year, and, when the trimmed and lowercased seed is not empty,
  seed-line, line-seed, seed.line, line.seed and seed-line followed by a
  suffix or year.  The first [generateNames] passes the wordlist through it
  with the configured seed.  The raw wordlist path of the second
  [generateNames] adds, for every configuration, the lines of the file as
  they are, leaving out those already present, with no expansion.  For the
  wordlist "backup", "logs" and no seed the engine yields 68 names that
  begin with "backup" and include "logs" and "backup-dev", and the raw path
  yields exactly "backup", "logs". *)
Theorem wordlist_modes :
  (forall (S : Strings) e words seed word,
     word ∈ words ->
     let w := ToLower (TrimSpace word) in
     (IsValidBucketName w = true -> w ∈ GenerateFromWordlist e words seed)
     /\ (forall suffix, suffix ∈ Suffixes e -> w <> "" ->
           IsValidBucketName (w +:+ suffix) = true ->
           (w +:+ suffix) ∈ GenerateFromWordlist e words seed)
     /\ (forall year, year ∈ Years e -> w <> "" ->
           IsValidBucketName (w +:+ year) = true ->
           (w +:+ year) ∈ GenerateFromWordlist e words seed))
  /\ (forall (S : Strings) e words seed x,
     let s := ToLower (TrimSpace seed) in
     x ∈ GenerateFromWordlist e words seed <->
     IsValidBucketName x = true
     /\ exists word, word ∈ words
          /\ let w := ToLower (TrimSpace word) in
             w <> ""
             /\ (x = w
                 \/ (exists suffix, suffix ∈ Suffixes e /\ x = w +:+ suffix)
                 \/ (exists year, year ∈ Years e /\ x = w +:+ year)
                 \/ (s <> "" /\
                     (x = (s +:+ "-") +:+ w \/ x = (w +:+ "-") +:+ s
                      \/ x = (s +:+ ".") +:+ w \/ x = (w +:+ ".") +:+ s
                      \/ (exists suffix, suffix ∈ Suffixes e
                            /\ x = ((s +:+ "-") +:+ w) +:+ suffix)
                      \/ (exists year, year ∈ Years e
                            /\ x = ((s +:+ "-") +:+ w) +:+ year)))))
  /\ (forall (S : Strings) e words seed, NoDup (GenerateFromWordlist e words seed))
  /\ (forall (S : Strings) readFile aiGenerate cfg data,
     config.Wordlist cfg <> "" ->
     readFile (config.Wordlist cfg) = inl data ->
     let permNames := Generate Default (config.Seed cfg) in
     let wordlistNames :=
       GenerateFromWordlist Default (config.readLines data "") (config.Seed cfg) in
     exists after,
       main_seeded.generateNames readFile aiGenerate cfg
       = inl (permNames ++ keepFirst (fun _ => true) permNames wordlistNames ++ after)
       /\ (config.AIEnabled cfg = false -> after = [])
       /\ (forall x, x ∈ after ->
             exists aiNames, aiGenerate (config.Seed cfg) = Some aiNames /\ x ∈ aiNames))
  /\ (forall (S : Strings) readFile fetchSubdomains rangeOrder aiGenerate cfg data,
     config.Wordlist cfg <> "" ->
     readFile (config.Wordlist cfg) = inl data ->
     exists before after,
       main_raw.generateNames readFile fetchSubdomains rangeOrder aiGenerate
         {| config.Seed := config.Seed cfg; config.Wordlist := "";
            config.Domain := config.Domain cfg; config.AIEnabled := false |}
       = inl before
       /\ main_raw.generateNames readFile fetchSubdomains rangeOrder aiGenerate cfg
          = inl (before
                 ++ keepFirst (fun _ => true) before (config.readLines data "")
                 ++ after)
       /\ (config.AIEnabled cfg = false -> after = [])
       /\ (forall x, x ∈ after ->
             exists contextWords aiNames,
               aiGenerate (config.Seed cfg) contextWords = Some aiNames /\ x ∈ aiNames))
  /\ (forall (S : Strings) readFile fetchSubdomains rangeOrder aiGenerate path data,
     path <> "" ->
     readFile path = inl data ->
     main_raw.generateNames readFile fetchSubdomains rangeOrder aiGenerate
       (wordlistOnly path)
     = inl (keepFirst (fun _ => true) [] (config.readLines data "")))
  /\ (let names := @GenerateFromWordlist asciiStrings Default ["backup"; "logs"] "" in
      length names = 68%nat
      /\ head names = Some "backup"
      /\ "logs" ∈ names /\ "backup-dev" ∈ names /\ "logs-2024" ∈ names)
  /\ @main_raw.generateNames asciiStrings (onlyFile "w.txt" twoWords)
       (fun _ => None) someOrder (fun _ _ => None) (wordlistOnly "w.txt")
     = inl ["backup"; "logs"]
  /\ (let names := namesOf seededRun in
      failed seededRun = false
      /\ length names = 877%nat
      /\ "backup" ∈ names /\ "logs" ∈ names
      /\ "backup-dev" ∈ names /\ "acme.backup" ∈ names).
Proof.
  split.
  { intros S e words seed word Hword w. split; [|split].
    - intros Hv. eapply GenerateFromWordlist_elem; eauto.
      + now apply IsValidBucketName_not_empty.
      + apply wordCandidates_word.
    - intros suffix Hs Hne Hv. eapply GenerateFromWordlist_elem; eauto.
      now apply wordCandidates_suffix.
    - intros year Hy Hne Hv. eapply GenerateFromWordlist_elem; eauto.
      now apply wordCandidates_year. }
  split.
  { intros S e words seed x s. rewrite GenerateFromWordlist_elem_iff.
    split; intros (Hv & word & Hword & Hw & Hx); (split; [exact Hv|]);
      exists word; (split; [exact Hword|]); cbv zeta; (split; [exact Hw|]);
      now apply wordCandidates_elem. }
  split.
  { intros S e words seed. rewrite GenerateFromWordlist_keepFirst.
    apply keepFirst_NoDup. }
  split.
  { intros S readFile aiGenerate cfg data Hpath Hread.
    now apply generateNames_seeded_general. }
  split.
  { intros S readFile fetchSubdomains rangeOrder aiGenerate cfg data Hpath Hread.
    now apply generateNames_raw_general. }
  split.
  { intros S readFile fetchSubdomains rangeOrder aiGenerate path data Hpath Hread.
    now apply generateNames_raw_wordlist. }
  split.
  { cbv zeta.
    split; [vm_compute; reflexivity|].
    split; [vm_compute; reflexivity|].
    split; [apply existsb_elem; vm_compute; reflexivity|].
    split; apply existsb_elem; vm_compute; reflexivity. }
  split.
  { rewrite (generateNames_raw_wordlist _ _ _ _ "w.txt" twoWords);
      [reflexivity | discriminate | reflexivity]. }
  cbv zeta.
  split; [vm_compute; reflexivity|].
  split; [vm_compute; reflexivity|].
  split; [apply existsb_elem; vm_compute; reflexivity|].
  split; [apply existsb_elem; vm_compute; reflexivity|].
  split; apply existsb_elem; vm_compute; reflexivity.
Qed.

(** ** Wordlist files and name generation *)

Import wordlist_shapes.

Lemma length_pos_not_empty (s : string) : (0 <? String.length s)%nat = true <-> s <> "".
Proof.
  destruct s; cbn; split; intros Hs; try reflexivity; try discriminate.
  now contradiction Hs.
Qed.

Lemma readLines_isWord (data current : string) :
  allBytes (fun b => negb (isNewline b)) current = true ->
  Forall isWord (config.readLines data current).
Proof.
  revert current. induction data as [|b data IH]; intros current Hcur; cbn [config.readLines].
  - destruct (0 <? String.length current)%nat eqn:E; [|constructor].
    repeat constructor; [now apply length_pos_not_empty|exact Hcur].
  - fold (isNewline b). destruct (isNewline b) eqn:Hb.
    + destruct (0 <? String.length current)%nat eqn:E.
      * constructor; [split; [now apply length_pos_not_empty|exact Hcur]|].
        now apply IH.
      * now apply IH.
    + apply IH. rewrite allBytes_app, Hcur. cbn. now rewrite Hb.
Qed.

(** X16: every word that [LoadWordlist] returns is not empty and holds no
  line feed or carriage return; an empty path gives no words. *)
Theorem LoadWordlist_words (readFile : string -> string + string) (path : string)
    (words : list string) :
  config.LoadWordlist readFile path = inl words ->
  Forall (fun w => w <> ""
                   /\ allBytes (fun b => negb (bool_decide (b = config.LF)
                                               || bool_decide (b = config.CR))) w = true)
         words.
Proof.
  unfold config.LoadWordlist. case_bool_decide.
  - intros [= <-]. constructor.
  - destruct (readFile path) as [data|err]; [|discriminate].
    intros [= <-]. now apply (readLines_isWord data "").
Qed.

Lemma readLines_word (w rest current : string) :
  allBytes (fun b => negb (isNewline b)) w = true ->
  config.readLines (w +:+ rest) current = config.readLines rest (current +:+ w).
Proof.
  revert current. induction w as [|b w IH]; intros current Hw.
  - now rewrite app_empty_l, app_empty_r.
  - cbn [allBytes] in Hw. apply andb_true_iff in Hw as [Hb Hw].
    rewrite app_cons. cbn [config.readLines]. fold (isNewline b).
    apply negb_true_iff in Hb. rewrite Hb. rewrite IH by exact Hw.
    f_equal. now rewrite app_assoc_s.
Qed.

Lemma readLines_breaks (sep rest : string) :
  allBytes isNewline sep = true ->
  config.readLines (sep +:+ rest) "" = config.readLines rest "".
Proof.
  induction sep as [|b sep IH]; intros Hsep; [now rewrite app_empty_l|].
  cbn [allBytes] in Hsep. apply andb_true_iff in Hsep as [Hb Hsep].
  rewrite app_cons. cbn [config.readLines]. fold (isNewline b). rewrite Hb.
  cbn. now apply IH.
Qed.

Lemma readLines_line (w sep rest : string) :
  isWord w -> sep <> "" -> allBytes isNewline sep = true ->
  config.readLines (w +:+ sep +:+ rest) "" = w :: config.readLines rest "".
Proof.
  intros [Hne Hw] Hsep Hall. rewrite readLines_word by exact Hw. rewrite app_empty_l.
  destruct sep as [|b sep]; [contradiction|].
  cbn [allBytes] in Hall. apply andb_true_iff in Hall as [Hb Hall].
  rewrite app_cons. cbn [config.readLines]. fold (isNewline b). rewrite Hb.
  apply length_pos_not_empty in Hne. rewrite Hne. f_equal.
  now apply readLines_breaks.
Qed.

(** X17: words that are not empty and hold no line break are read back as
  they are from a file that ends each of them with the same run of line
  breaks, and from one that separates them by a line feed. *)
Theorem readLines_round_trip (words : list string) (sep : string) :
  Forall (fun w => w <> ""
                   /\ allBytes (fun b => negb (bool_decide (b = config.LF)
                                               || bool_decide (b = config.CR))) w = true)
         words ->
  sep <> "" ->
  allBytes (fun b => bool_decide (b = config.LF) || bool_decide (b = config.CR)) sep = true ->
  config.readLines (foldr (fun w rest => w +:+ sep +:+ rest) "" words) "" = words
  /\ config.readLines (Join words config.LF) "" = words.
Proof.
  intros Hwords Hsep Hall. split.
  - induction Hwords as [|w words Hw _ IH]; [reflexivity|].
    cbn [foldr]. rewrite (readLines_line w sep _ Hw Hsep Hall). now rewrite IH.
  - induction Hwords as [|w words Hw Hrest IH]; [reflexivity|].
    destruct words as [|w' words].
    + cbn [Join]. rewrite <- (app_empty_r w) at 1.
      destruct Hw as [Hne Hw].
      rewrite readLines_word by exact Hw. rewrite app_empty_l. cbn [config.readLines].
      apply length_pos_not_empty in Hne. now rewrite Hne.
    + rewrite Join_cons by discriminate.
      change (String config.LF (Join (w' :: words) config.LF))
        with (String config.LF "" +:+ Join (w' :: words) config.LF).
      rewrite (readLines_line w (String config.LF "") _ Hw); [|discriminate|reflexivity].
      now rewrite IH.
Qed.

Lemma readLines_round_trip_witness :
  config.readLines
    (foldr (fun w rest => w +:+ String config.CR (String config.LF "") +:+ rest) ""
       ["backup"; "Logs 2024"]) "" = ["backup"; "Logs 2024"]
  /\ config.readLines (Join ["backup"; "Logs 2024"] config.LF) "" = ["backup"; "Logs 2024"].
Proof.
  apply (readLines_round_trip ["backup"; "Logs 2024"]
           (String config.CR (String config.LF ""))).
  - repeat constructor; discriminate.
  - discriminate.
  - reflexivity.
Defined.

Lemma LoadWordlist_words_witness :
  Forall (fun w => w <> ""
                   /\ allBytes (fun b => negb (bool_decide (b = config.LF)
                                               || bool_decide (b = config.CR))) w = true)
         ["backup"; "logs"].
Proof.
  apply (LoadWordlist_words (onlyFile "w.txt" twoWords) "w.txt"). reflexivity.
Defined.

Lemma keepFirst_app (ok : string -> bool) (a b earlier : list string) :
  keepFirst ok earlier (a ++ b) = keepFirst ok earlier a ++ keepFirst ok (earlier ++ a) b.
Proof.
  revert earlier. induction a as [|x a IH]; intros earlier.
  - cbn. now rewrite app_nil_r.
  - cbn [app keepFirst]. rewrite IH, <- !app_assoc. reflexivity.
Qed.

Lemma keepFirst_seen (ok : string -> bool) (names earlier : list string) :
  (forall x, x ∈ names -> x ∈ earlier) -> keepFirst ok earlier names = [].
Proof.
  revert earlier. induction names as [|x names IH]; intros earlier Hall; [reflexivity|].
  cbn [keepFirst].
  rewrite (bool_decide_eq_false_2 (x ∉ earlier))
    by (intros Hn; apply Hn, Hall, elem_of_cons; now left).
  rewrite andb_false_r. cbn [app]. apply IH.
  intros y Hy. apply elem_of_app. left. apply Hall, elem_of_cons. now right.
Qed.

Section GeneratorMore.
Context `{Strings}.

(** X18: when the trimmed, lowercased seed is a valid bucket name, it is the
  first name that [Generate] returns. *)
Theorem Generate_starts_with_seed (e : Engine) (seed : string) :
  IsValidBucketName (ToLower (TrimSpace seed)) = true ->
  exists rest, Generate e seed = ToLower (TrimSpace seed) :: rest.
Proof.
  intros Hv. rewrite Generate_keepFirst.
  rewrite bool_decide_eq_false_2 by now apply IsValidBucketName_not_empty.
  unfold keepFirstValid, candidates. cbn [app keepFirst]. rewrite Hv.
  rewrite bool_decide_eq_true_2 by (intros Hin; inversion Hin).
  cbn [andb app]. eauto.
Qed.

(** X19: wordlist lines that repeat earlier lines add nothing to the output
  of [GenerateFromWordlist]. *)
Theorem GenerateFromWordlist_repeats (e : Engine) (words again : list string)
    (seed : string) :
  (forall w, w ∈ again -> w ∈ words) ->
  GenerateFromWordlist e (words ++ again) seed = GenerateFromWordlist e words seed.
Proof.
  intros Hagain. rewrite !GenerateFromWordlist_keepFirst. unfold keepFirstValid.
  unfold wordlistCandidates. rewrite map_app, concat_app, keepFirst_app.
  match goal with
  | |- ?kept ++ keepFirst ?ok ?earlier ?names = _ =>
      assert (Hseen : keepFirst ok earlier names = []);
        [apply keepFirst_seen|now rewrite Hseen, app_nil_r]
  end.
  intros x Hx. cbn [app].
  apply list_elem_of_In, in_concat in Hx as (l & Hl & Hx).
  apply in_map_iff in Hl as (w & <- & Hw).
  apply list_elem_of_In, in_concat. eexists. split; [|exact Hx].
  apply in_map_iff. exists w. split; [reflexivity|].
  apply list_elem_of_In, Hagain, list_elem_of_In, Hw.
Qed.

End GeneratorMore.

Lemma Generate_starts_with_seed_witness :
  exists rest, @Generate asciiStrings Default " Acme " = "acme" :: rest.
Proof.
  apply (@Generate_starts_with_seed asciiStrings Default " Acme "). reflexivity.
Defined.

Lemma GenerateFromWordlist_repeats_witness :
  @GenerateFromWordlist asciiStrings Default (["backup"; "logs"] ++ ["logs"; "backup"]) ""
  = @GenerateFromWordlist asciiStrings Default ["backup"; "logs"] "".
Proof.
  apply (@GenerateFromWordlist_repeats asciiStrings Default).
  intros w Hw. apply list_elem_of_In in Hw. apply list_elem_of_In.
  cbn in *. tauto.
Defined.

Lemma main_add_NoDup (names : list string) (st : Acc) :
  tracks (fun _ : string => true) st (results st) ->
  NoDup (results st) ->
  NoDup (results (main_common.add st names)).
Proof.
  intros Htr Hnd. rewrite (main_add_results_from names st Htr).
  apply NoDup_app. split; [exact Hnd|]. split; [|apply keepFirst_NoDup].
  intros x Hx Hk. apply keepFirst_elem in Hk as (_ & _ & Hn). contradiction.
Qed.

Section RawOutcome.
Context `{Strings}.
Variable readFile : string -> string + string.
Variable fetchSubdomains : string -> option (list string).
Variable rangeOrder : gmap string unit -> list string.

Lemma contextLoop_NoDup (words : list string) (st : Acc) (contextWords : list string) :
  tracks (fun _ : string => true) st (results st) ->
  NoDup (results st) ->
  let out := foldl (fun '(st, contextWords) word =>
                      (main_common.add st (Generate Default word), contextWords ++ [word]))
                   (st, contextWords) words in
  NoDup (results out.1).
Proof.
  revert st contextWords.
  induction words as [|word words IH]; intros st contextWords Htr Hnd; [exact Hnd|].
  cbn [foldl]. apply IH; [now apply main_add_closed|now apply main_add_NoDup].
Qed.

(** X20: the second [generateNames] never returns a name twice, whatever
  its sources deliver, and it fails exactly when a wordlist is named and
  cannot be read, with the read error wrapped. *)
Theorem generateNames_raw_outcome
    (aiGenerate : string -> list string -> option (list string)) (cfg : config.Config) :
  let out := main_raw.generateNames readFile fetchSubdomains rangeOrder aiGenerate cfg in
  (forall names, out = inl names -> NoDup names)
  /\ (forall msg, out = inr msg <->
        config.Wordlist cfg <> ""
        /\ exists err, readFile (config.Wordlist cfg) = inr err
                       /\ msg = "failed to load wordlist: " +:+ err).
Proof.
  cbv zeta. unfold main_raw.generateNames.
  match goal with
  | |- context [let '(st, contextWords) := ?pre in _] =>
      assert (Hpre : tracks (fun _ : string => true) pre.1 (results pre.1)
                     /\ NoDup (results pre.1));
        [|destruct pre as [st0 contextWords]]
  end.
  { case_bool_decide; [|split; [apply emptyAcc_closed|constructor]].
    destruct (fetchSubdomains (config.Domain cfg)) as [subdomains|];
      [|split; [apply emptyAcc_closed|constructor]].
    assert (Hsub : tracks (fun _ : string => true) (main_common.add emptyAcc subdomains)
                     (results (main_common.add emptyAcc subdomains))
                   /\ NoDup (results (main_common.add emptyAcc subdomains))).
    { split; [apply main_add_closed, emptyAcc_closed|].
      apply main_add_NoDup; [apply emptyAcc_closed|constructor]. }
    destruct Hsub as [Ht Hn].
    destruct (0 <? size _)%nat; [|auto].
    split; [now apply contextLoop_closed|now apply contextLoop_NoDup]. }
  cbn [fst] in Hpre. destruct Hpre as [Htr0 Hnd0]. cbv zeta.
  set (st1 := if bool_decide (config.Seed cfg ≠ "")
              then main_common.add st0 (Generate Default (config.Seed cfg)) else st0).
  assert (Hst1 : tracks (fun _ : string => true) st1 (results st1) /\ NoDup (results st1)).
  { subst st1. case_bool_decide; [|auto].
    split; [now apply main_add_closed|now apply main_add_NoDup]. }
  destruct Hst1 as [Htr1 Hnd1].
  unfold config.LoadWordlist.
  case_bool_decide as Hw.
  - rewrite (bool_decide_eq_false_2 (config.Wordlist cfg = "")) by exact Hw.
    destruct (readFile (config.Wordlist cfg)) as [data|err].
    + split.
      * intros names [= <-].
        pose proof (main_add_closed (config.readLines data "") st1 Htr1) as Htr2.
        pose proof (main_add_NoDup (config.readLines data "") st1 Htr1 Hnd1) as Hnd2.
        destruct (config.AIEnabled cfg); [|exact Hnd2].
        destruct (_ && _); [exact Hnd2|].
        destruct (aiGenerate _ _); [now apply main_add_NoDup|exact Hnd2].
      * intros msg. split; [discriminate|]. intros (_ & err & [=] & _).
    + split; [discriminate|]. intros msg. split.
      * intros [= <-]. eauto.
      * intros (_ & err' & [= <-] & ->). reflexivity.
  - split.
    + intros names [= <-].
      destruct (config.AIEnabled cfg); [|exact Hnd1].
      destruct (_ && _); [exact Hnd1|].
      destruct (aiGenerate _ _); [now apply main_add_NoDup|exact Hnd1].
    + intros msg. split; [discriminate|]. intros (Hne & _). contradiction.
Qed.

(** X21: with no seed and no words drawn from subdomains, the second
  [generateNames] never consults the AI stage. *)
Theorem generateNames_raw_skips_ai
    (ai1 ai2 : string -> list string -> option (list string)) (cfg : config.Config) :
  config.Seed cfg = "" ->
  config.Domain cfg = "" \/ fetchSubdomains (config.Domain cfg) = None ->
  main_raw.generateNames readFile fetchSubdomains rangeOrder ai1 cfg
  = main_raw.generateNames readFile fetchSubdomains rangeOrder ai2 cfg.
Proof.
  intros Hseed Hdom. unfold main_raw.generateNames. rewrite Hseed.
  assert (Hpre : (if bool_decide (config.Domain cfg ≠ "")
      then match fetchSubdomains (config.Domain cfg) with
           | Some subdomains =>
               if (0 <? size (main_raw.subdomainWords (config.Domain cfg) subdomains))%nat
               then foldl (fun '(st, contextWords) word =>
                      (main_common.add st (Generate Default word), contextWords ++ [word]))
                      (main_common.add emptyAcc subdomains, [])
                      (rangeOrder (main_raw.subdomainWords (config.Domain cfg) subdomains))
               else (main_common.add emptyAcc subdomains, [])
           | None => (emptyAcc, [])
           end
      else (emptyAcc, [])) = (emptyAcc, @nil string)).
  { destruct Hdom as [Hd | Hf].
    - rewrite Hd. now rewrite bool_decide_eq_false_2 by (intros Hn; now apply Hn).
    - rewrite Hf. now case_bool_decide. }
  rewrite Hpre. cbv zeta.
  rewrite (bool_decide_eq_false_2 ("" ≠ "")) by (intros Hn; now apply Hn).
  rewrite (bool_decide_eq_true_2 ("" = "")) by reflexivity.
  cbn [length Nat.eqb andb].
  reflexivity.
Qed.

End RawOutcome.

Section SeededOutcome.
Context `{Strings}.
Variable readFile : string -> string + string.
Variable aiGenerate : string -> option (list string).

(** X22: the first [generateNames] never returns a name twice, returns only
  valid bucket names when the AI stage is off, and fails exactly when a
  wordlist is named and cannot be read. *)
Theorem generateNames_seeded_outcome (cfg : config.Config) :
  let out := main_seeded.generateNames readFile aiGenerate cfg in
  (forall names, out = inl names ->
     NoDup names
     /\ (config.AIEnabled cfg = false ->
         Forall (fun x => IsValidBucketName x = true) names))
  /\ (forall msg, out = inr msg <->
        config.Wordlist cfg <> ""
        /\ exists err, readFile (config.Wordlist cfg) = inr err
                       /\ msg = "failed to load wordlist: " +:+ err).
Proof.
  cbv zeta. unfold main_seeded.generateNames. cbv zeta.
  set (permNames := Generate Default (config.Seed cfg)).
  set (st1 := main_common.add emptyAcc permNames).
  assert (Htr1 : tracks (fun _ : string => true) st1 (results st1))
    by apply main_add_closed, emptyAcc_closed.
  assert (Hnd1 : NoDup (results st1))
    by (apply main_add_NoDup; [apply emptyAcc_closed|constructor]).
  assert (Hv1 : Forall (fun x => IsValidBucketName x = true) (results st1)).
  { subst st1. rewrite (main_add_results_from _ _ emptyAcc_closed). cbn [results app].
    apply Forall_forall. intros x Hx. apply keepFirst_elem in Hx as (Hx & _).
    pose proof (Generate_valid Default (config.Seed cfg)) as Hall.
    rewrite Forall_forall in Hall. now apply Hall. }
  unfold config.LoadWordlist.
  case_bool_decide as Hw.
  - rewrite (bool_decide_eq_false_2 (config.Wordlist cfg = "")) by exact Hw.
    destruct (readFile (config.Wordlist cfg)) as [data|err].
    + set (wordlistNames := GenerateFromWordlist Default _ _).
      pose proof (main_add_closed wordlistNames st1 Htr1) as Htr2.
      pose proof (main_add_NoDup wordlistNames st1 Htr1 Hnd1) as Hnd2.
      assert (Hv2 : Forall (fun x => IsValidBucketName x = true)
                      (results (main_common.add st1 wordlistNames))).
      { rewrite (main_add_results_from _ _ Htr1). apply Forall_app. split; [exact Hv1|].
        apply Forall_forall. intros x Hx. apply keepFirst_elem in Hx as (Hx & _).
        pose proof (GenerateFromWordlist_valid Default (config.readLines data "")
                      (config.Seed cfg)) as Hall.
        rewrite Forall_forall in Hall. now apply Hall. }
      split.
      * intros names [= <-].
        destruct (config.AIEnabled cfg); [|split; [exact Hnd2|intros _; exact Hv2]].
        split; [|discriminate].
        destruct (aiGenerate _); [now apply main_add_NoDup|exact Hnd2].
      * intros msg. split; [discriminate|]. intros (_ & err & [=] & _).
    + split; [discriminate|]. intros msg. split.
      * intros [= <-]. eauto.
      * intros (_ & err' & [= <-] & ->). reflexivity.
  - split.
    + intros names [= <-].
      destruct (config.AIEnabled cfg); [|split; [exact Hnd1|intros _; exact Hv1]].
      split; [|discriminate].
      destruct (aiGenerate _); [now apply main_add_NoDup|exact Hnd1].
    + intros msg. split; [discriminate|]. intros (Hne & _). contradiction.
Qed.

End SeededOutcome.

Lemma generateNames_raw_skips_ai_witness :
  @main_raw.generateNames asciiStrings (onlyFile "w.txt" twoWords) (fun _ => None)
    someOrder (fun _ _ => Some ["from-ai"])
    {| config.Seed := ""; config.Wordlist := "w.txt"; config.Domain := "example.com";
       config.AIEnabled := true |}
  = @main_raw.generateNames asciiStrings (onlyFile "w.txt" twoWords) (fun _ => None)
    someOrder (fun _ _ => None)
    {| config.Seed := ""; config.Wordlist := "w.txt"; config.Domain := "example.com";
       config.AIEnabled := true |}.
Proof.
  apply (@generateNames_raw_skips_ai asciiStrings); [reflexivity|right; reflexivity].
Defined.

(** ** The answer of the model and the certificate logs *)

Import answer_shapes extract_shapes.

Lemma string_rev_app_acc (s acc : string) : String.rev_app s acc = String.rev s +:+ acc.
Proof.
  unfold String.rev. revert acc. induction s as [|c s IH]; intros acc; [reflexivity|].
  cbn [String.rev_app]. rewrite (IH (String c acc)), (IH (String c "")).
  now rewrite app_assoc_s.
Qed.

Lemma string_rev_cons (c : ascii) (s : string) : String.rev (String c s) = String.rev s +:+ String c "".
Proof. unfold String.rev at 1. cbn [String.rev_app]. apply string_rev_app_acc. Qed.

Lemma string_rev_app (a b : string) : String.rev (a +:+ b) = String.rev b +:+ String.rev a.
Proof.
  induction a as [|c a IH].
  - rewrite app_empty_l. change (String.rev "") with "". now rewrite app_empty_r.
  - rewrite app_cons, !string_rev_cons, IH. now rewrite app_assoc_s.
Qed.

Lemma string_rev_involutive (s : string) : String.rev (String.rev s) = s.
Proof.
  induction s as [|c s IH]; [reflexivity|].
  rewrite string_rev_cons, string_rev_app, IH. reflexivity.
Qed.

Lemma allBytes_string_rev (p : ascii -> bool) (s : string) :
  allBytes p (String.rev s) = allBytes p s.
Proof.
  induction s as [|c s IH]; [reflexivity|].
  rewrite string_rev_cons, allBytes_app, IH. cbn [allBytes]. rewrite andb_true_r. apply andb_comm.
Qed.

(** [trimLeftByte] splits off a run of the byte. *)
Lemma trimLeftByte_split (c : ascii) (s : string) :
  exists run, s = run +:+ trimLeftByte c s
    /\ allBytes (fun b => bool_decide (b = c)) run = true
    /\ HasPrefix (trimLeftByte c s) (String c "") = false.
Proof.
  induction s as [|b s (run & Hs & Hrun & Hp)].
  - exists "". repeat split.
  - cbn [trimLeftByte]. case_bool_decide as Hb.
    + exists (String b run). rewrite app_cons, <- Hs.
      split; [reflexivity|]. split; [|exact Hp]. cbn [allBytes].
      now rewrite bool_decide_eq_true_2 by exact Hb.
    + exists "". split; [reflexivity|]. split; [reflexivity|].
      cbn [HasPrefix]. destruct (decide (b = c)); [contradiction|reflexivity].
Qed.

Lemma trimLeftByte_allBytes (p : ascii -> bool) (c : ascii) (s : string) :
  allBytes p s = true -> allBytes p (trimLeftByte c s) = true.
Proof.
  intros Hs. destruct (trimLeftByte_split c s) as (run & Heq & _).
  rewrite Heq, allBytes_app in Hs. now apply andb_true_iff in Hs.
Qed.

Lemma Trim_allBytes (p : ascii -> bool) (c : ascii) (s : string) :
  allBytes p s = true -> allBytes p (Trim s c) = true.
Proof.
  intros Hs. unfold Trim. rewrite allBytes_string_rev. apply trimLeftByte_allBytes.
  rewrite allBytes_string_rev. now apply trimLeftByte_allBytes.
Qed.

Lemma Trim_ends (c : ascii) (s : string) :
  HasPrefix (Trim s c) (String c "") = false
  /\ HasSuffix (Trim s c) (String c "") = false.
Proof.
  unfold Trim.
  destruct (trimLeftByte_split c s) as (run1 & _ & _ & Hp1).
  set (t := trimLeftByte c s) in *.
  destruct (trimLeftByte_split c (String.rev t)) as (run2 & Heq2 & Hrun2 & Hp2).
  set (x := trimLeftByte c (String.rev t)) in *.
  split.
  - destruct (HasPrefix (String.rev x) (String c "")) eqn:E; [|reflexivity].
    apply HasPrefix_spec in E as [rest Hrest].
    apply (f_equal String.rev) in Heq2. rewrite string_rev_involutive, string_rev_app, Hrest in Heq2.
    rewrite <- Hp1. symmetry. apply HasPrefix_spec.
    exists (rest +:+ String.rev run2). rewrite Heq2. now rewrite !app_cons, app_empty_l.
  - unfold HasSuffix. rewrite string_rev_involutive. exact Hp2.
Qed.

Lemma Contains_byte (s : string) (c : ascii) :
  Contains s (String c "") = negb (allBytes (fun b => bool_decide (b <> c)) s).
Proof.
  induction s as [|b s IH]; [reflexivity|].
  cbn [Contains HasPrefix allBytes]. rewrite IH.
  destruct (decide (b = c)) as [->|Hne].
  - rewrite (bool_decide_eq_false_2 (c <> c)) by (intros Hn; now apply Hn).
    now destruct s.
  - rewrite (bool_decide_eq_true_2 (b <> c)) by exact Hne. reflexivity.
Qed.

Lemma TrimPrefix_second_byte (s : string) (a b : ascii) :
  Contains s (String b "") = false -> TrimPrefix s (String a (String b "")) = s.
Proof.
  intros Hc. unfold TrimPrefix.
  destruct (HasPrefix s (String a (String b ""))) eqn:E; [|reflexivity].
  apply HasPrefix_spec in E as [rest ->].
  assert (Hin : Contains (String a (String b "") +:+ rest) (String b "") = true).
  { apply Contains_spec. exists (String a ""), rest. reflexivity. }
  congruence.
Qed.

Lemma foldl_omap {A} (g : list string -> A -> list string) (f : A -> option string)
    (l : list A) (acc : list string) :
  (forall names x,
     g names x = match f x with Some y => names ++ [y] | None => names end) ->
  foldl g acc l = acc ++ omap f l.
Proof.
  intros Hg. revert acc. induction l as [|x l IH]; intros acc; cbn [foldl omap list_omap].
  - now rewrite app_nil_r.
  - rewrite IH, Hg. destruct (f x); [now rewrite <- app_assoc|reflexivity].
Qed.

Section ParseFacts.
Context `{Strings}.

Lemma parseBucketNames_omap (content : string) :
  ai.parseBucketNames content = omap parsedLine (Split content config.LF).
Proof.
  unfold ai.parseBucketNames. rewrite (foldl_omap _ parsedLine); [reflexivity|].
  intros names line. unfold parsedLine. cbv zeta.
  destruct (bool_decide (ToLower (TrimSpace line) = "")); [reflexivity|]. cbn [orb].
  destruct (Contains (ToLower (TrimSpace line)) " ") eqn:Hc; [reflexivity|].
  rewrite (TrimPrefix_second_byte _ "-" " " Hc), (TrimPrefix_second_byte _ "*" " " Hc).
  destruct (_ && _); reflexivity.
Qed.

(** X23: the two [TrimPrefix] calls of [parseBucketNames] never change a
  name: a line is dropped when it is empty or holds a space after trimming
  and lowercasing, so a line with a markdown bullet is dropped as a whole;
  the other lines lose the backticks at their ends and are kept when 3 to 63
  bytes remain. *)
Theorem parseBucketNames_bullets_dropped (content : string) :
  ai.parseBucketNames content =
  omap (fun line =>
          let name := ToLower (TrimSpace line) in
          if bool_decide (name = "") || Contains name " " then None
          else
            let name := Trim name "`" in
            if (3 <=? String.length name)%nat && (String.length name <=? 63)%nat
            then Some name else None)
       (Split content config.LF).
Proof. apply parseBucketNames_omap. Qed.

Lemma parseBucketNames_bulleted :
  @ai.parseBucketNames asciiStrings bulletedAnswer = ["acme-logs"].
Proof. vm_compute. reflexivity. Qed.

(** X24: every name that [parseBucketNames] returns has 3 to 63 bytes, holds
  no space and neither begins nor ends with a backtick. *)
Theorem parseBucketNames_names (content name : string) :
  name ∈ ai.parseBucketNames content ->
  (3 <= String.length name <= 63)%nat
  /\ Contains name " " = false
  /\ HasPrefix name "`" = false
  /\ HasSuffix name "`" = false.
Proof.
  rewrite parseBucketNames_omap. intros Hin.
  apply list_elem_of_omap in Hin as (line & _ & Hline).
  unfold parsedLine in Hline. cbv zeta in Hline.
  destruct (bool_decide (ToLower (TrimSpace line) = "")); [discriminate|]. cbn [orb] in Hline.
  destruct (Contains (ToLower (TrimSpace line)) " ") eqn:Hc; [discriminate|].
  destruct (_ && _) eqn:Hlen; [|discriminate].
  injection Hline as <-.
  apply andb_true_iff in Hlen as [Hlo Hhi].
  apply Nat.leb_le in Hlo. apply Nat.leb_le in Hhi.
  split; [lia|]. split; [|apply Trim_ends].
  rewrite Contains_byte in Hc |- *. apply negb_false_iff in Hc. apply negb_false_iff.
  now apply Trim_allBytes.
Qed.

End ParseFacts.

Lemma parseBucketNames_names_witness :
  (3 <= String.length "acme-logs" <= 63)%nat
  /\ Contains "acme-logs" " " = false
  /\ HasPrefix "acme-logs" "`" = false
  /\ HasSuffix "acme-logs" "`" = false.
Proof.
  apply (@parseBucketNames_names asciiStrings bulletedAnswer "acme-logs").
  apply list_elem_of_In. vm_compute. tauto.
Defined.

Section ExtractFacts.
Context `{Strings}.

Lemma visit_inv (maxResults : Z) (baseDomain : string) (st : recon.Extract)
    (name : string) :
  extractInv maxResults baseDomain st ->
  extractInv maxResults baseDomain (recon.visit maxResults baseDomain st name).
Proof.
  intros Hinv. unfold recon.visit.
  destruct (recon.returned st) eqn:Hret; [exact Hinv|]. cbv zeta.
  set (n := TrimPrefix (TrimSpace (ToLower name)) "*.").
  case_bool_decide as Hempty; cbn [orb]; [exact Hinv|].
  case_bool_decide as Hbase; cbn [orb]; [exact Hinv|].
  destruct (HasSuffix n ("." +:+ baseDomain)) eqn:Hsuf; cbn [negb andb].
  2:{ rewrite bool_decide_eq_true_2 by exact Hbase. exact Hinv. }
  case_bool_decide as Hseen; [exact Hinv|].
  destruct Hinv as (Hnd & Htr & Hgood & Hlen & Hroom).
  specialize (Hroom Hret).
  unfold extractInv. cbn [recon.subdomains recon.seen recon.returned].
  split; [|split; [|split; [|split]]].
  - apply NoDup_app. split; [exact Hnd|]. split; [|apply NoDup_singleton].
    intros x Hx Hx'. apply list_elem_of_singleton in Hx' as ->.
    apply Hseen, Htr, Hx.
  - intros x. rewrite lookup_insert_is_Some, elem_of_app, list_elem_of_singleton, (Htr x).
    split.
    + intros [<- | [_ Hx]]; auto.
    + intros [Hx | ->]; [|auto]. destruct (decide (n = x)); auto.
  - apply Forall_app. split; [exact Hgood|]. repeat constructor; assumption.
  - rewrite length_app. cbn [length]. destruct Hroom as [-> | Hlt]; cbn; lia.
  - intros Hnot. apply Z.leb_gt in Hnot. right. exact Hnot.
Qed.

Lemma extract_inv (maxResults : Z) (baseDomain : string) (results : list string)
    (st : recon.Extract) :
  extractInv maxResults baseDomain st ->
  extractInv maxResults baseDomain
    (foldl (fun st nameValue => foldl (recon.visit maxResults baseDomain) st
                                  (Split nameValue config.LF)) st results).
Proof.
  revert st. induction results as [|nameValue results IH]; intros st Hinv; [exact Hinv|].
  cbn [foldl]. apply IH. clear IH.
  revert st Hinv. induction (Split nameValue config.LF) as [|name names IH];
    intros st Hinv; [exact Hinv|].
  cbn [foldl]. apply IH. now apply visit_inv.
Qed.

(** X25: [extractSubdomains] returns no name twice, only names that are not
  empty, differ from the base domain and end with a dot and the base domain,
  and at most [maxResults] of them, or one when [maxResults] is below 1. *)
Theorem extractSubdomains_sound (maxResults : Z) (results : list string)
    (baseDomain : string) :
  let out := recon.extractSubdomains maxResults results baseDomain in
  NoDup out
  /\ Z.of_nat (length out) <= Z.max 1 maxResults
  /\ Forall (fun name => name <> "" /\ name <> baseDomain
                         /\ HasSuffix name ("." +:+ baseDomain) = true) out.
Proof.
  cbv zeta. unfold recon.extractSubdomains.
  destruct (extract_inv maxResults baseDomain results (recon.mkExtract ∅ [] false))
    as (Hnd & _ & Hgood & Hlen & _).
  - unfold extractInv. cbn. split; [constructor|]. split.
    + intros x. split; [intros Hx; now apply lookup_empty_is_Some in Hx|].
      intros Hx. inversion Hx.
    + split; [constructor|]. split; [lia|]. intros _. now left.
  - auto.
Qed.

End ExtractFacts.

Lemma extractSubdomains_example :
  @recon.extractSubdomains asciiStrings 10 certificateNames "example.com"
  = ["api.example.com"; "cdn.example.com"]
  /\ @recon.extractSubdomains asciiStrings 0 certificateNames "example.com"
     = ["api.example.com"].
Proof. split; vm_compute; reflexivity. Qed.

(** ** The scanner *)

Import scanner.

Lemma processBucket_resultsChan (s : Scanner) (w : World) (bucket : string) :
  let probe := (Check RecordResponse (client w) (limiter s) bucket).1 in
  resultsChan (processBucket s w bucket) =
  match Result probe with
  | BucketNotFound => resultsChan s
  | _ =>
      if takesDone w then resultsChan s
      else resultsChan s ++
           [{| SR_Bucket := bucket; Probe := Result probe;
               Inspect := match Result probe with
                          | BucketExists | BucketForbidden =>
                              if deepInspect s then Some (inspect w bucket) else None
                          | _ => None
                          end;
               SR_Timestamp := now w |}]
  end.
Proof.
  unfold processBucket. cbn [withStats limiter].
  destruct (Check RecordResponse (client w) (limiter s) bucket) as [probe lim]. cbn [fst].
  destruct (Result probe); cbn [withLimiter withStats deepInspect];
    try reflexivity; destruct (takesDone w); try reflexivity;
    destruct (deepInspect s); reflexivity.
Qed.

Lemma processBucket_surfaced (s : Scanner) (w : World) (bucket : string) :
  Forall surfaced (resultsChan s) ->
  Forall surfaced (resultsChan (processBucket s w bucket)).
Proof.
  intros Hs. rewrite processBucket_resultsChan. cbv zeta.
  destruct (Result (Check RecordResponse (client w) (limiter s) bucket).1) eqn:Hres; auto;
    destruct (takesDone w); auto;
    apply Forall_app; (split; [exact Hs|]); repeat constructor; unfold surfaced; simpl;
    discriminate.
Qed.

Lemma worker_surfaced (names : list string) (s : Scanner) (world : string -> World) :
  Forall surfaced (resultsChan s) ->
  Forall surfaced (resultsChan (worker s world names)).
Proof.
  revert s. induction names as [|name names IH]; intros s Hs; simpl; [exact Hs|].
  destruct (stops (world name)); [exact Hs|].
  apply IH. now apply processBucket_surfaced.
Qed.

(** The same facts for the two-stage revision of the scanner. *)

Lemma pipeline_processBucket_chans (s : scanner_pipeline.Scanner) (w : World)
    (bucket : string) :
  let probe := (Check ratelimit_netfail.RecordResponse (client w)
       (scanner_pipeline.limiter s) bucket).1 in
  let s' := scanner_pipeline.processBucket s w bucket in
  let r := {| scanner_pipeline.SR_Bucket := bucket;
              scanner_pipeline.Probe := Result probe;
              scanner_pipeline.Inspect := None;
              scanner_pipeline.SR_Error :=
                match Error probe with Some msg => msg | None => "" end;
              scanner_pipeline.SR_Timestamp := now w |} in
  let queued :=
    match Result probe with
    | BucketExists | BucketForbidden => scanner_pipeline.deepInspect s
    | _ => false
    end in
  scanner_pipeline.resultsChan s' =
    (if bool_decide (Result probe = BucketNotFound) || takesDone w || queued
     then scanner_pipeline.resultsChan s
     else scanner_pipeline.resultsChan s ++ [r])
  /\ scanner_pipeline.inspectChan s' =
    (if bool_decide (Result probe = BucketNotFound) || takesDone w || negb queued
     then scanner_pipeline.inspectChan s
     else scanner_pipeline.inspectChan s ++ [r]).
Proof.
  unfold scanner_pipeline.processBucket. cbn [scanner_pipeline.withStats
    scanner_pipeline.limiter].
  destruct (Check ratelimit_netfail.RecordResponse (client w)
       (scanner_pipeline.limiter s) bucket) as [probe lim].
  cbn [fst]. cbv zeta.
  destruct (Result probe); cbn [scanner_pipeline.withLimiter
    scanner_pipeline.withStats scanner_pipeline.deepInspect];
    try destruct (scanner_pipeline.deepInspect s);
    destruct (takesDone w); split; reflexivity.
Qed.

Lemma pipeline_processBucket_surfaced (s : scanner_pipeline.Scanner) (w : World)
    (bucket : string) :
  Forall surfacedLater (scanner_pipeline.resultsChan s) ->
  Forall surfacedLater (scanner_pipeline.inspectChan s) ->
  Forall surfacedLater
    (scanner_pipeline.resultsChan (scanner_pipeline.processBucket s w bucket))
  /\ Forall surfacedLater
    (scanner_pipeline.inspectChan (scanner_pipeline.processBucket s w bucket)).
Proof.
  intros Hr Hq.
  destruct (pipeline_processBucket_chans s w bucket) as [-> ->].
  destruct (Result (Check ratelimit_netfail.RecordResponse (client w)
       (scanner_pipeline.limiter s) bucket).1) eqn:Hres;
    cbn [bool_decide decide_rel orb negb];
    try (rewrite bool_decide_eq_true_2 by reflexivity);
    try (rewrite bool_decide_eq_false_2 by discriminate);
    cbn [orb]; destruct (takesDone w); cbn [orb];
    try destruct (scanner_pipeline.deepInspect s); cbn [orb negb];
    (split; auto);
    apply Forall_app; (split; [assumption|]); repeat constructor;
    unfold surfacedLater; simpl; discriminate.
Qed.

Lemma pipeline_worker_surfaced (names : list string) (s : scanner_pipeline.Scanner)
    (world : string -> World) :
  Forall surfacedLater (scanner_pipeline.resultsChan s) ->
  Forall surfacedLater (scanner_pipeline.inspectChan s) ->
  Forall surfacedLater (scanner_pipeline.resultsChan (scanner_pipeline.worker s world names))
  /\ Forall surfacedLater
       (scanner_pipeline.inspectChan (scanner_pipeline.worker s world names)).
Proof.
  revert s. induction names as [|name names IH]; intros s Hr Hq; simpl; [auto|].
  destruct (stops (world name)); [auto|].
  destruct (pipeline_processBucket_surfaced s (world name) name Hr Hq) as [Hr' Hq'].
  now apply IH.
Qed.

Lemma inspectionLoop_surfaced (queue results : list scanner_pipeline.ScanResult)
    (world : string -> World) :
  Forall surfacedLater queue ->
  Forall surfacedLater results ->
  Forall surfacedLater (scanner_pipeline.inspectionLoop queue results world).2.
Proof.
  revert results. induction queue as [|r queue IH]; intros results Hq Hr; simpl; [exact Hr|].
  inversion Hq as [|? ? Hhead Htail]; subst.
  destruct (stops (world (scanner_pipeline.SR_Bucket r))); [exact Hr|].
  destruct (takesDone (world (scanner_pipeline.SR_Bucket r))).
  - now apply IH.
  - apply IH; [exact Htail|]. apply Forall_app. split; [exact Hr|].
    repeat constructor. exact Hhead.
Qed.

(** With a live context the inspection worker forwards every queued result. *)
Lemma inspectionLoop_live (queue results : list scanner_pipeline.ScanResult)
    (world : string -> World) :
  (forall name, ctxDone (world name) = false) ->
  scanner_pipeline.inspectionLoop queue results world =
  ([], results ++
       map (fun r => scanner_pipeline.withInspect r
                       (inspect (world (scanner_pipeline.SR_Bucket r))
                          (scanner_pipeline.SR_Bucket r))) queue).
Proof.
  intros Hlive. revert results.
  induction queue as [|r queue IH]; intros results; simpl.
  - now rewrite app_nil_r.
  - unfold stops, takesDone. rewrite Hlive. cbn [andb].
    rewrite IH. now rewrite <- app_assoc.
Qed.

Lemma pipeline_Scan_surfaced (s : scanner_pipeline.Scanner) (world : string -> World)
    (names : list string) :
  Forall surfacedLater (scanner_pipeline.resultsChan s) ->
  Forall surfacedLater (scanner_pipeline.inspectChan s) ->
  Forall surfacedLater (scanner_pipeline.resultsChan (scanner_pipeline.Scan s world names)).
Proof.
  intros Hr Hq. unfold scanner_pipeline.Scan.
  destruct (pipeline_worker_surfaced names s world Hr Hq) as [Hr' Hq'].
  destruct (scanner_pipeline.deepInspect _); [|exact Hr'].
  unfold scanner_pipeline.inspectionWorker.
  pose proof (inspectionLoop_surfaced _ _ world Hq' Hr') as Hloop.
  destruct (scanner_pipeline.inspectionLoop _ _ world) as [queue results].
  exact Hloop.
Qed.

(** C6, under cancellation: the probe of "n200" is classified Exists, and
  the select around the send takes [ctx.Done()], so nothing is emitted. *)
Lemma processBucket_cancelled_drops :
  let s := scanner.New 1 100 false in
  Result (Check RecordResponse (client (cancelledWorld "n200")) (limiter s) "n200").1 = BucketExists
  /\ resultsChan (processBucket s (cancelledWorld "n200") "n200") = [].
Proof. split; vm_compute; reflexivity. Qed.

(** C6 (amended): a name whose probe is classified NotFound is never sent
  on the results channel; every other classification is sent, unless the
  select around the send takes the branch of a cancelled context; a worker
  never sends a NotFound result.  With statuses 200, 403, 404, 301, 500 for
  five names and a live context exactly 4 results are sent. *)
Theorem processBucket_emits :
  (forall s w bucket,
     let probe := (Check RecordResponse (client w) (limiter s) bucket).1 in
     let s' := processBucket s w bucket in
     (Result probe = BucketNotFound -> resultsChan s' = resultsChan s)
     /\ (Result probe <> BucketNotFound -> takesDone w = false ->
         exists r, resultsChan s' = resultsChan s ++ [r]
                   /\ SR_Bucket r = bucket /\ Probe r = Result probe)
     /\ (takesDone w = true -> resultsChan s' = resultsChan s))
  /\ (forall w, ctxDone w = false -> takesDone w = false)
  /\ (forall s world names,
        Forall surfaced (resultsChan s) ->
        Forall surfaced (resultsChan (worker s world names)))
  /\ (let out := resultsChan (worker (scanner.New 1 100 false) liveWorld fiveNames) in
      length out = 4%nat
      /\ map SR_Bucket out = ["n200"; "n403"; "n301"; "n500"]
      /\ map Probe out = [BucketExists; BucketForbidden; BucketForbidden; BucketError])
  /\ (forall s w bucket,
     let probe := (Check ratelimit_netfail.RecordResponse (client w)
       (scanner_pipeline.limiter s) bucket).1 in
     let s' := scanner_pipeline.processBucket s w bucket in
     (Result probe = BucketNotFound ->
      scanner_pipeline.resultsChan s' = scanner_pipeline.resultsChan s
      /\ scanner_pipeline.inspectChan s' = scanner_pipeline.inspectChan s)
     /\ (Result probe <> BucketNotFound -> takesDone w = false ->
         exists r, scanner_pipeline.SR_Bucket r = bucket
                   /\ scanner_pipeline.Probe r = Result probe
                   /\ ((scanner_pipeline.resultsChan s' = scanner_pipeline.resultsChan s ++ [r]
                        /\ scanner_pipeline.inspectChan s' = scanner_pipeline.inspectChan s)
                       \/ (scanner_pipeline.inspectChan s' = scanner_pipeline.inspectChan s ++ [r]
                           /\ scanner_pipeline.resultsChan s' = scanner_pipeline.resultsChan s))))
  /\ (forall queue results world,
        (forall name, ctxDone (world name) = false) ->
        let out := scanner_pipeline.inspectionLoop queue results world in
        out.1 = [] /\ length out.2 = (length results + length queue)%nat)
  /\ (forall s world names,
        Forall surfacedLater (scanner_pipeline.resultsChan s) ->
        Forall surfacedLater (scanner_pipeline.inspectChan s) ->
        Forall surfacedLater
          (scanner_pipeline.resultsChan (scanner_pipeline.Scan s world names)))
  /\ (let out := scanner_pipeline.resultsChan
                   (scanner_pipeline.Scan (scanner_pipeline.New 1 100 true)
                      liveWorld fiveNames) in
      length out = 4%nat
      /\ map scanner_pipeline.SR_Bucket out = ["n500"; "n200"; "n403"; "n301"]
      /\ map scanner_pipeline.Probe out =
           [BucketError; BucketExists; BucketForbidden; BucketForbidden]).
Proof.
  split.
  { intros s w bucket probe s'. subst s'.
    rewrite processBucket_resultsChan. fold probe. cbv zeta. split; [|split].
    - intros ->. reflexivity.
    - intros Hne Hlive. rewrite Hlive.
      destruct (Result probe) eqn:Hres; [contradiction| | |]; eexists; eauto.
    - intros ->. now destruct (Result probe). }
  split.
  { intros w Hlive. unfold takesDone. now rewrite Hlive. }
  split.
  { intros s world names. apply worker_surfaced. }
  split; [cbv zeta; repeat split; vm_compute; reflexivity|].
  split.
  { intros s w bucket probe s'. subst s'.
    destruct (pipeline_processBucket_chans s w bucket) as [Hres Hque].
    cbv zeta in Hres, Hque. fold probe in Hres, Hque. split.
    - intros Hnf. rewrite Hres, Hque, Hnf. auto.
    - intros Hne Hlive. rewrite Hres, Hque, Hlive.
      rewrite (bool_decide_eq_false_2 _ Hne). cbn [orb].
      eexists. split; [|split]; [| |
        destruct (match Result probe with
                  | BucketExists | BucketForbidden => scanner_pipeline.deepInspect s
                  | _ => false
                  end); cbn [negb]; [right | left]; split; reflexivity];
        reflexivity. }
  split.
  { intros queue results world Hlive. cbv zeta.
    rewrite (inspectionLoop_live queue results world Hlive). cbn [fst snd].
    split; [reflexivity|]. now rewrite length_app, length_map. }
  split; [exact pipeline_Scan_surfaced|].
  cbv zeta. repeat split; vm_compute; reflexivity.
Qed.

(** ** The counters of a scan *)

Import scan_counts.

Ltac scanner_step :=
  cbn [stats resultsChan withStats withLimiter send addScanned addPublic addPrivate
       addErrors Found Public Private Errors Scanned Total StartTime deepInspect limiter
       workers] in *;
  unfold incr; rewrite ?length_app; cbn [length];
  rewrite ?wrap64_id by (unfold min_int64, max_int64 in *; lia);
  try lia.

Lemma processBucket_statsInv (s : Scanner) (w : World) (bucket : string) (n : Z) :
  statsInv s n -> n < max_int64 -> statsInv (processBucket s w bucket) (n + 1).
Proof.
  unfold statsInv, processBucket. cbv zeta.
  intros (Hf & Hpu & Hpr & He & Hsc & Hch) Hn.
  cbn [withStats limiter].
  destruct (Check ratelimit.RecordResponse (client w) (limiter s) bucket) as [probe lim].
  destruct (Result probe); try destruct (takesDone w); scanner_step;
    repeat split; scanner_step.
Qed.

Lemma processBucket_statsLive (s : Scanner) (w : World) (bucket : string) (n : Z) :
  statsInv s n -> statsLive s n -> n < max_int64 -> ctxDone w = false ->
  statsLive (processBucket s w bucket) (n + 1).
Proof.
  unfold statsInv, statsLive, processBucket, takesDone. cbv zeta.
  intros (Hf & Hpu & Hpr & He & Hsc & Hch) [Hs Hc] Hn ->. cbn [andb].
  cbn [withStats limiter].
  destruct (Check ratelimit.RecordResponse (client w) (limiter s) bucket) as [probe lim].
  destruct (Result probe); scanner_step; split; scanner_step.
Qed.

Lemma worker_statsInv (names : list string) (s : Scanner) (world : string -> World) (n : Z) :
  statsInv s n -> n + Z.of_nat (length names) <= max_int64 ->
  statsInv (worker s world names) (n + Z.of_nat (length names)).
Proof.
  revert s n. induction names as [|name names IH]; intros s n Hinv Hn.
  - cbn. now rewrite Z.add_0_r.
  - cbn [worker]. cbn [length] in *.
    destruct (stops (world name)).
    + unfold statsInv in *. lia.
    + replace (n + Z.of_nat (S (length names))) with ((n + 1) + Z.of_nat (length names))
        by lia.
      apply IH; [|lia]. apply processBucket_statsInv; [exact Hinv|lia].
Qed.

Lemma worker_statsLive (names : list string) (s : Scanner) (world : string -> World) (n : Z) :
  (forall name, ctxDone (world name) = false) ->
  statsInv s n -> statsLive s n -> n + Z.of_nat (length names) <= max_int64 ->
  statsLive (worker s world names) (n + Z.of_nat (length names)).
Proof.
  intros Hlive. revert s n. induction names as [|name names IH]; intros s n Hinv Hl Hn.
  - cbn. now rewrite Z.add_0_r.
  - cbn [worker]. cbn [length] in *. unfold stops. rewrite Hlive. cbn [andb].
    replace (n + Z.of_nat (S (length names))) with ((n + 1) + Z.of_nat (length names))
      by lia.
    apply IH; [| |lia].
    + apply processBucket_statsInv; [exact Hinv|lia].
    + apply processBucket_statsLive; auto; lia.
Qed.

(** X13: after a worker has gone through a list of names, the hits are the
  public and the private ones, hits and errors do not exceed the names
  scanned nor these the names given, and no more results were sent than hits
  and errors were counted; with a live context every name is scanned and
  every hit and error is sent. *)
Theorem worker_stats (workers : Z) (maxRPS : float) (deep : bool)
    (world : string -> World) (names : list string) :
  Z.of_nat (length names) <= max_int64 ->
  let s := worker (scanner.New workers maxRPS deep) world names in
  let st := stats s in
  Found st = Public st + Private st
  /\ 0 <= Public st /\ 0 <= Private st /\ 0 <= Errors st
  /\ Found st + Errors st <= Scanned st <= Z.of_nat (length names)
  /\ Z.of_nat (length (resultsChan s)) <= Found st + Errors st
  /\ ((forall name, ctxDone (world name) = false) ->
      Scanned st = Z.of_nat (length names)
      /\ Z.of_nat (length (resultsChan s)) = Found st + Errors st).
Proof.
  intros Hlen. cbv zeta.
  assert (H0 : statsInv (scanner.New workers maxRPS deep) 0) by (cbv; repeat split; discriminate).
  assert (L0 : statsLive (scanner.New workers maxRPS deep) 0) by (split; reflexivity).
  pose proof (worker_statsInv names _ world 0 H0 ltac:(lia)) as Hinv.
  rewrite Z.add_0_l in Hinv.
  destruct Hinv as (Hf & Hpu & Hpr & He & Hsc & Hch).
  repeat (split; [assumption|]).
  intros Hlive.
  pose proof (worker_statsLive names _ world 0 Hlive H0 L0 ltac:(lia)) as Hl.
  rewrite Z.add_0_l in Hl. exact Hl.
Qed.

Lemma worker_stats_witness :
  let s := worker (scanner.New 1 100 false) liveWorld fiveNames in
  let st := stats s in
  Found st = Public st + Private st
  /\ 0 <= Public st /\ 0 <= Private st /\ 0 <= Errors st
  /\ Found st + Errors st <= Scanned st <= Z.of_nat (length fiveNames)
  /\ Z.of_nat (length (resultsChan s)) <= Found st + Errors st
  /\ ((forall name, ctxDone (liveWorld name) = false) ->
      Scanned st = Z.of_nat (length fiveNames)
      /\ Z.of_nat (length (resultsChan s)) = Found st + Errors st).
Proof.
  apply (worker_stats 1 100 false liveWorld fiveNames). vm_compute. discriminate.
Defined.

Lemma processBucket_deepInspect (s : Scanner) (w : World) (bucket : string) :
  deepInspect (processBucket s w bucket) = deepInspect s.
Proof.
  unfold processBucket. cbv zeta. cbn [withStats limiter].
  destruct (Check ratelimit.RecordResponse (client w) (limiter s) bucket) as [probe lim].
  destruct (Result probe); try destruct (takesDone w); reflexivity.
Qed.

Lemma worker_results (names : list string) (s : Scanner) (world : string -> World) :
  exists sent,
    resultsChan (worker s world names) = resultsChan s ++ sent
    /\ Forall (wellFormed (deepInspect s) world) sent
    /\ sublist (map SR_Bucket sent) names.
Proof.
  revert s. induction names as [|name names IH]; intros s.
  - exists []. cbn. rewrite app_nil_r. repeat split; constructor.
  - cbn [worker]. destruct (stops (world name)).
    + exists []. rewrite app_nil_r. repeat split; [constructor|apply sublist_nil_l].
    + destruct (IH (processBucket s (world name) name)) as (sent & Hsent & Hwf & Hsub).
      rewrite processBucket_deepInspect in Hwf.
      rewrite Hsent, processBucket_resultsChan. cbv zeta.
      destruct (Result (Check ratelimit.RecordResponse (client (world name)) (limiter s)
                          name).1) eqn:Hres.
      * exists sent. repeat split; [exact Hwf|now apply sublist_cons].
      * destruct (takesDone (world name)).
        -- exists sent. repeat split; [exact Hwf|now apply sublist_cons].
        -- eexists (_ :: sent). rewrite <- app_assoc. split; [reflexivity|].
           split; [|cbn; now apply sublist_skip].
           constructor; [|exact Hwf]. unfold wellFormed. cbn.
           split; [discriminate|]. split; [reflexivity|].
           now rewrite andb_true_r.
      * destruct (takesDone (world name)).
        -- exists sent. repeat split; [exact Hwf|now apply sublist_cons].
        -- eexists (_ :: sent). rewrite <- app_assoc. split; [reflexivity|].
           split; [|cbn; now apply sublist_skip].
           constructor; [|exact Hwf]. unfold wellFormed. cbn.
           split; [discriminate|]. split; [reflexivity|].
           now rewrite andb_true_r.
      * destruct (takesDone (world name)).
        -- exists sent. repeat split; [exact Hwf|now apply sublist_cons].
        -- eexists (_ :: sent). rewrite <- app_assoc. split; [reflexivity|].
           split; [|cbn; now apply sublist_skip].
           constructor; [|exact Hwf]. unfold wellFormed. cbn.
           split; [discriminate|]. split; [reflexivity|].
           now rewrite andb_false_r.
Qed.

(** X14: the results a worker sends are for names of its input, in input
  order, none classified NotFound, each stamped with the time of its name,
  and each carries an inspection exactly when deep inspection is on and the
  probe found the bucket public or private. *)
Theorem worker_sends_well_formed (workers : Z) (maxRPS : float) (deep : bool)
    (world : string -> World) (names : list string) :
  let out := resultsChan (worker (scanner.New workers maxRPS deep) world names) in
  sublist (map SR_Bucket out) names
  /\ Forall (fun r =>
       Probe r <> BucketNotFound
       /\ SR_Timestamp r = now (world (SR_Bucket r))
       /\ Inspect r =
          if deep && isHit (Probe r)
          then Some (inspect (world (SR_Bucket r)) (SR_Bucket r)) else None) out.
Proof.
  cbv zeta.
  destruct (worker_results names (scanner.New workers maxRPS deep) world)
    as (sent & -> & Hwf & Hsub).
  cbn [resultsChan scanner.New app]. split; [exact Hsub|exact Hwf].
Qed.

Ltac pipeline_step :=
  cbn [scanner_pipeline.stats scanner_pipeline.resultsChan scanner_pipeline.inspectChan
       scanner_pipeline.withStats scanner_pipeline.withLimiter scanner_pipeline.withChans
       scanner_pipeline.send scanner_pipeline.enqueue
       scanner_pipeline.addScanned scanner_pipeline.addPublic scanner_pipeline.addPrivate
       scanner_pipeline.addErrors scanner_pipeline.addNotFound
       scanner_pipeline.Found scanner_pipeline.Public scanner_pipeline.Private
       scanner_pipeline.Errors scanner_pipeline.Scanned scanner_pipeline.NotFound
       scanner_pipeline.Total scanner_pipeline.StartTime scanner_pipeline.deepInspect
       scanner_pipeline.limiter scanner_pipeline.workers] in *;
  unfold incr; rewrite ?length_app; cbn [length];
  rewrite ?wrap64_id by (unfold min_int64, max_int64 in *; lia);
  try lia.

Lemma pipeline_processBucket_inv (s : scanner_pipeline.Scanner) (w : World)
    (bucket : string) (n : Z) :
  pipelineInv s n -> n < max_int64 ->
  pipelineInv (scanner_pipeline.processBucket s w bucket) (n + 1).
Proof.
  unfold pipelineInv, scanner_pipeline.processBucket. cbv zeta.
  intros (Hs & Hf & Hpu & Hpr & He & Hnf & Hsc & Hch) Hn.
  cbn [scanner_pipeline.withStats scanner_pipeline.limiter].
  destruct (Check ratelimit_netfail.RecordResponse (client w)
              (scanner_pipeline.limiter s) bucket) as [probe lim].
  destruct (Result probe); pipeline_step;
    try destruct (scanner_pipeline.deepInspect s);
    try destruct (takesDone w); pipeline_step; repeat split; pipeline_step.
Qed.

Lemma pipeline_processBucket_live (s : scanner_pipeline.Scanner) (w : World)
    (bucket : string) (n : Z) :
  pipelineInv s n -> pipelineLive s n -> n < max_int64 -> ctxDone w = false ->
  pipelineLive (scanner_pipeline.processBucket s w bucket) (n + 1).
Proof.
  unfold pipelineInv, pipelineLive, scanner_pipeline.processBucket, takesDone. cbv zeta.
  intros (Hs & Hf & Hpu & Hpr & He & Hnf & Hsc & Hch) [Hl Hc] Hn ->. cbn [andb].
  cbn [scanner_pipeline.withStats scanner_pipeline.limiter].
  destruct (Check ratelimit_netfail.RecordResponse (client w)
              (scanner_pipeline.limiter s) bucket) as [probe lim].
  destruct (Result probe); pipeline_step;
    try destruct (scanner_pipeline.deepInspect s); pipeline_step; split; pipeline_step.
Qed.

Lemma pipeline_worker_inv (names : list string) (s : scanner_pipeline.Scanner)
    (world : string -> World) (n : Z) :
  pipelineInv s n -> n + Z.of_nat (length names) <= max_int64 ->
  pipelineInv (scanner_pipeline.worker s world names) (n + Z.of_nat (length names)).
Proof.
  revert s n. induction names as [|name names IH]; intros s n Hinv Hn.
  - cbn. now rewrite Z.add_0_r.
  - cbn [scanner_pipeline.worker]. cbn [length] in *.
    destruct (stops (world name)).
    + unfold pipelineInv in *. lia.
    + replace (n + Z.of_nat (S (length names))) with ((n + 1) + Z.of_nat (length names))
        by lia.
      apply IH; [|lia]. apply pipeline_processBucket_inv; [exact Hinv|lia].
Qed.

Lemma pipeline_worker_live (names : list string) (s : scanner_pipeline.Scanner)
    (world : string -> World) (n : Z) :
  (forall name, ctxDone (world name) = false) ->
  pipelineInv s n -> pipelineLive s n -> n + Z.of_nat (length names) <= max_int64 ->
  pipelineLive (scanner_pipeline.worker s world names) (n + Z.of_nat (length names)).
Proof.
  intros Hlive. revert s n. induction names as [|name names IH]; intros s n Hinv Hl Hn.
  - cbn. now rewrite Z.add_0_r.
  - cbn [scanner_pipeline.worker]. cbn [length] in *.
    unfold stops. rewrite Hlive. cbn [andb].
    replace (n + Z.of_nat (S (length names))) with ((n + 1) + Z.of_nat (length names))
      by lia.
    apply IH; [| |lia].
    + apply pipeline_processBucket_inv; [exact Hinv|lia].
    + apply pipeline_processBucket_live; auto; lia.
Qed.

Lemma inspectionWorker_stats (s : scanner_pipeline.Scanner) (world : string -> World) :
  scanner_pipeline.stats (scanner_pipeline.inspectionWorker s world)
  = scanner_pipeline.stats s.
Proof.
  unfold scanner_pipeline.inspectionWorker.
  destruct (scanner_pipeline.inspectionLoop _ _ world). reflexivity.
Qed.

Lemma pipeline_processBucket_deepInspect (s : scanner_pipeline.Scanner) (w : World)
    (bucket : string) :
  scanner_pipeline.deepInspect (scanner_pipeline.processBucket s w bucket)
  = scanner_pipeline.deepInspect s.
Proof.
  unfold scanner_pipeline.processBucket. cbv zeta.
  cbn [scanner_pipeline.withStats scanner_pipeline.limiter].
  destruct (Check ratelimit_netfail.RecordResponse (client w)
              (scanner_pipeline.limiter s) bucket) as [probe lim].
  destruct s as [l0 w0 deep st rc ic].
  destruct (Result probe); cbn; try destruct deep; try destruct (takesDone w);
    reflexivity.
Qed.

Lemma pipeline_worker_deepInspect (names : list string) (s : scanner_pipeline.Scanner)
    (world : string -> World) :
  scanner_pipeline.deepInspect (scanner_pipeline.worker s world names)
  = scanner_pipeline.deepInspect s.
Proof.
  revert s. induction names as [|name names IH]; intros s; [reflexivity|].
  cbn [scanner_pipeline.worker]. destruct (stops (world name)); [reflexivity|].
  now rewrite IH, pipeline_processBucket_deepInspect.
Qed.

(** Without deep inspection nothing is queued for the inspection workers. *)
Lemma pipeline_worker_shallow (names : list string) (s : scanner_pipeline.Scanner)
    (world : string -> World) :
  scanner_pipeline.deepInspect s = false ->
  scanner_pipeline.inspectChan (scanner_pipeline.worker s world names)
  = scanner_pipeline.inspectChan s.
Proof.
  revert s. induction names as [|name names IH]; intros s Hdeep; [auto|].
  cbn [scanner_pipeline.worker]. destruct (stops (world name)); [auto|].
  rewrite IH by now rewrite pipeline_processBucket_deepInspect.
  destruct (pipeline_processBucket_chans s (world name) name) as [_ ->].
  rewrite Hdeep.
  destruct (Result _); cbn [negb]; now rewrite !orb_true_r.
Qed.

(** X15: in the two-stage scanner every scanned name is counted once as a
  hit, an error or not found; with a live context the inspection queue is
  drained and as many results are sent as hits and errors were counted. *)
Theorem pipeline_Scan_stats (workers : Z) (maxRPS : float) (deep : bool)
    (world : string -> World) (names : list string) :
  Z.of_nat (length names) <= max_int64 ->
  let s := scanner_pipeline.Scan (scanner_pipeline.New workers maxRPS deep) world names in
  let st := scanner_pipeline.stats s in
  scanner_pipeline.Scanned st =
    scanner_pipeline.Found st + scanner_pipeline.Errors st + scanner_pipeline.NotFound st
  /\ scanner_pipeline.Found st = scanner_pipeline.Public st + scanner_pipeline.Private st
  /\ 0 <= scanner_pipeline.Public st /\ 0 <= scanner_pipeline.Private st
  /\ 0 <= scanner_pipeline.Errors st /\ 0 <= scanner_pipeline.NotFound st
  /\ scanner_pipeline.Scanned st <= Z.of_nat (length names)
  /\ ((forall name, ctxDone (world name) = false) ->
      scanner_pipeline.Scanned st = Z.of_nat (length names)
      /\ scanner_pipeline.inspectChan s = []
      /\ Z.of_nat (length (scanner_pipeline.resultsChan s))
         = scanner_pipeline.Found st + scanner_pipeline.Errors st).
Proof.
  intros Hlen. cbv zeta.
  set (s0 := scanner_pipeline.New workers maxRPS deep).
  assert (H0 : pipelineInv s0 0) by (cbv; repeat split; discriminate).
  assert (L0 : pipelineLive s0 0) by (split; reflexivity).
  pose proof (pipeline_worker_inv names s0 world 0 H0 ltac:(lia)) as Hinv.
  rewrite Z.add_0_l in Hinv.
  assert (Hstats : scanner_pipeline.stats (scanner_pipeline.Scan s0 world names)
                   = scanner_pipeline.stats (scanner_pipeline.worker s0 world names)).
  { unfold scanner_pipeline.Scan.
    destruct (scanner_pipeline.deepInspect _); [apply inspectionWorker_stats|reflexivity]. }
  rewrite Hstats.
  destruct Hinv as (Hs & Hf & Hpu & Hpr & He & Hnf & Hsc & Hch).
  repeat (split; [assumption|]).
  intros Hlive.
  pose proof (pipeline_worker_live names s0 world 0 Hlive H0 L0 ltac:(lia)) as [Hl Hc].
  rewrite Z.add_0_l in Hl. split; [exact Hl|].
  rewrite <- Hc. unfold scanner_pipeline.Scan.
  rewrite pipeline_worker_deepInspect.
  change (scanner_pipeline.deepInspect s0) with deep.
  destruct deep.
  - unfold scanner_pipeline.inspectionWorker.
    rewrite (inspectionLoop_live _ _ world Hlive).
    cbn [scanner_pipeline.withChans scanner_pipeline.inspectChan
         scanner_pipeline.resultsChan].
    split; [reflexivity|]. now rewrite length_app, length_map.
  - rewrite (pipeline_worker_shallow names s0 world eq_refl).
    cbn [scanner_pipeline.inspectChan s0 scanner_pipeline.New length].
    split; [reflexivity|]. now rewrite Nat.add_0_r.
Qed.

Lemma pipeline_Scan_stats_witness :
  let s := scanner_pipeline.Scan (scanner_pipeline.New 1 100 true) liveWorld fiveNames in
  let st := scanner_pipeline.stats s in
  scanner_pipeline.Scanned st =
    scanner_pipeline.Found st + scanner_pipeline.Errors st + scanner_pipeline.NotFound st
  /\ scanner_pipeline.Found st = scanner_pipeline.Public st + scanner_pipeline.Private st
  /\ 0 <= scanner_pipeline.Public st /\ 0 <= scanner_pipeline.Private st
  /\ 0 <= scanner_pipeline.Errors st /\ 0 <= scanner_pipeline.NotFound st
  /\ scanner_pipeline.Scanned st <= Z.of_nat (length fiveNames)
  /\ ((forall name, ctxDone (liveWorld name) = false) ->
      scanner_pipeline.Scanned st = Z.of_nat (length fiveNames)
      /\ scanner_pipeline.inspectChan s = []
      /\ Z.of_nat (length (scanner_pipeline.resultsChan s))
         = scanner_pipeline.Found st + scanner_pipeline.Errors st).
Proof.
  apply (pipeline_Scan_stats 1 100 true liveWorld fiveNames). vm_compute. discriminate.
Defined.

(** ** The report *)

Import report_counts.

Lemma countProbe_app (p : ProbeResult) (a b : list ScanResult) :
  countProbe p (a ++ b) = countProbe p a + countProbe p b.
Proof. unfold countProbe. rewrite filter_app, length_app. lia. Qed.

Lemma countProbe_cons (p : ProbeResult) (r : ScanResult) (results : list ScanResult) :
  countProbe p (r :: results)
  = (if bool_decide (Probe r = p) then 1 else 0) + countProbe p results.
Proof.
  unfold countProbe. rewrite filter_cons.
  case_bool_decide as Hp; [rewrite decide_True by exact Hp|rewrite decide_False by exact Hp];
    cbn [length]; lia.
Qed.

Lemma countProbe_le (p : ProbeResult) (results : list ScanResult) :
  0 <= countProbe p results <= Z.of_nat (length results).
Proof.
  unfold countProbe. pose proof (length_filter (fun r => Probe r = p) results). lia.
Qed.

Lemma countProbe_total (results : list ScanResult) :
  countProbe BucketExists results + countProbe BucketForbidden results
  + countProbe BucketError results + countProbe BucketNotFound results
  = Z.of_nat (length results).
Proof.
  induction results as [|r results IH]; [reflexivity|].
  rewrite !countProbe_cons. cbn [length].
  destruct (Probe r); repeat case_bool_decide; try congruence; lia.
Qed.

Lemma flushJSON_fold (results : list ScanResult) (public private : Z) :
  0 <= public -> 0 <= private ->
  public + private + Z.of_nat (length results) <= max_int64 ->
  foldl (fun '(public, private) result =>
           match Probe result with
           | BucketExists => (wrap64 (public + 1), private)
           | BucketForbidden => (public, wrap64 (private + 1))
           | _ => (public, private)
           end) (public, private) results
  = (public + countProbe BucketExists results,
     private + countProbe BucketForbidden results).
Proof.
  revert public private. induction results as [|r results IH]; intros public private Hpu Hpr Hlen.
  - cbn. unfold countProbe. cbn. now rewrite !Z.add_0_r.
  - cbn [foldl]. cbn [length] in Hlen.
    rewrite !countProbe_cons.
    destruct (Probe r); repeat case_bool_decide; try congruence;
      rewrite ?wrap64_id by (unfold min_int64, max_int64 in *; lia);
      rewrite IH by lia; f_equal; lia.
Qed.

Lemma flushTXT_length (results : list ScanResult) (lines : list string) :
  Z.of_nat (length (foldl (fun lines result =>
    let withInspect (line : string) : string :=
      match Inspect result with
      | Some inspect =>
          let line :=
            if bool_decide (inspector_common.Region inspect ≠ "")
               && bool_decide (inspector_common.Region inspect ≠ "unknown")
            then line +:+ " | region: " +:+ inspector_common.Region inspect
            else line in
          let line :=
            if 0 <? inspector_common.ObjectCount inspect
            then line +:+ " | objects: "
                   +:+ prober.formatInt (inspector_common.ObjectCount inspect)
            else line in
          if (0 <? length (inspector_common.SampleKeys inspect))%nat
          then line +:+ " | sample: "
                 +:+ output.formatKeys
                       (take (Nat.min 3 (length (inspector_common.SampleKeys inspect)))
                          (inspector_common.SampleKeys inspect))
          else line
      | None => line
      end in
    match Probe result with
    | BucketExists => lines ++ [withInspect ("[PUBLIC] " +:+ SR_Bucket result)]
    | BucketForbidden => lines ++ [withInspect ("[PRIVATE] " +:+ SR_Bucket result)]
    | _ => lines
    end) lines results))
  = Z.of_nat (length lines)
    + countProbe BucketExists results + countProbe BucketForbidden results.
Proof.
  revert lines. induction results as [|r results IH]; intros lines.
  - cbn. unfold countProbe. cbn. lia.
  - cbn [foldl]. rewrite IH.
    rewrite !countProbe_cons.
    destruct (Probe r); repeat case_bool_decide; try congruence;
      rewrite ?length_app; cbn [length]; lia.
Qed.

(** X26: the report of [flushJSON] holds every buffered result; its
  TotalFound is their number, errors included, its PublicBuckets and
  PrivateBuckets count the results classified Exists and Forbidden, and
  TotalScanned is never set; [flushTXT] prints one line for each public or
  private result and none for the others. *)
Theorem flushJSON_counts (results : list ScanResult) :
  Z.of_nat (length results) <= max_int64 ->
  let report := output.flushJSON results in
  output.TotalScanned report = 0
  /\ output.Results report = results
  /\ output.TotalFound report = Z.of_nat (length results)
  /\ output.PublicBuckets report
     = Z.of_nat (length (filter (fun r => Probe r = BucketExists) results))
  /\ output.PrivateBuckets report
     = Z.of_nat (length (filter (fun r => Probe r = BucketForbidden) results))
  /\ output.TotalFound report
     = output.PublicBuckets report + output.PrivateBuckets report
       + Z.of_nat (length (filter (fun r => Probe r = BucketError) results))
       + Z.of_nat (length (filter (fun r => Probe r = BucketNotFound) results))
  /\ Z.of_nat (length (output.flushTXT results))
     = output.PublicBuckets report + output.PrivateBuckets report.
Proof.
  intros Hlen. cbv zeta. unfold output.flushJSON.
  rewrite (flushJSON_fold results 0 0) by lia.
  cbn [output.TotalScanned output.Results output.TotalFound output.PublicBuckets
       output.PrivateBuckets]. rewrite !Z.add_0_l.
  split; [reflexivity|]. split; [reflexivity|]. split; [reflexivity|].
  split; [reflexivity|]. split; [reflexivity|].
  split; [symmetry; apply countProbe_total|].
  unfold output.flushTXT. rewrite flushTXT_length. cbn. lia.
Qed.

Lemma countProbe_one (p : ProbeResult) (r : ScanResult) :
  countProbe p [r] = if bool_decide (Probe r = p) then 1 else 0.
Proof. rewrite countProbe_cons. unfold countProbe. cbn. lia. Qed.

Lemma processBucket_statsExact (s : Scanner) (w : World) (bucket : string) (n : Z) :
  statsInv s n -> n < max_int64 -> ctxDone w = false ->
  statsExact s -> statsExact (processBucket s w bucket).
Proof.
  unfold statsInv, statsExact, processBucket, takesDone. cbv zeta.
  intros (Hf & Hpu & Hpr & He & Hsc & Hch) Hn -> (Epu & Epr & Eer). cbn [andb].
  cbn [withStats limiter].
  destruct (Check ratelimit.RecordResponse (client w) (limiter s) bucket) as [probe lim].
  destruct (Result probe); scanner_step;
    rewrite ?countProbe_app, ?countProbe_one; cbn [Probe withInspect];
    try destruct (deepInspect s); cbn [Probe withInspect];
    repeat case_bool_decide; try congruence; repeat split; lia.
Qed.

Lemma worker_statsExact (names : list string) (s : Scanner) (world : string -> World) (n : Z) :
  (forall name, ctxDone (world name) = false) ->
  statsInv s n -> statsExact s -> n + Z.of_nat (length names) <= max_int64 ->
  statsExact (worker s world names).
Proof.
  intros Hlive. revert s n. induction names as [|name names IH]; intros s n Hinv Hex Hn.
  - exact Hex.
  - cbn [worker]. cbn [length] in Hn. unfold stops. rewrite Hlive. cbn [andb].
    apply (IH _ (n + 1)); [| |lia].
    + apply processBucket_statsInv; [exact Hinv|lia].
    + apply (processBucket_statsExact s (world name) name n); auto; lia.
Qed.

(** X27: when every result that a worker sends under a live context is
  written to the report, the report's public and private counts are the
  scanner's counters, TotalFound is the sum of the hits and the errors, and
  the text report has one line for each hit. *)
Theorem report_matches_stats (workers : Z) (maxRPS : float) (deep : bool)
    (world : string -> World) (names : list string) :
  Z.of_nat (length names) <= max_int64 ->
  (forall name, ctxDone (world name) = false) ->
  let s := worker (scanner.New workers maxRPS deep) world names in
  let report := output.flushJSON (resultsChan s) in
  output.PublicBuckets report = Public (stats s)
  /\ output.PrivateBuckets report = Private (stats s)
  /\ output.TotalFound report = Found (stats s) + Errors (stats s)
  /\ Z.of_nat (length (output.flushTXT (resultsChan s))) = Found (stats s).
Proof.
  intros Hlen Hlive. cbv zeta.
  set (s0 := scanner.New workers maxRPS deep).
  assert (H0 : statsInv s0 0) by (cbv; repeat split; discriminate).
  assert (L0 : statsLive s0 0) by (split; reflexivity).
  assert (E0 : statsExact s0) by (repeat split).
  pose proof (worker_statsInv names s0 world 0 H0 ltac:(lia)) as Hinv.
  pose proof (worker_statsLive names s0 world 0 Hlive H0 L0 ltac:(lia)) as [Hsc Hch].
  pose proof (worker_statsExact names s0 world 0 Hlive H0 E0 ltac:(lia)) as (Epu & Epr & Eer).
  destruct Hinv as (Hf & Hpu & Hpr & He & Hscn & Hchn).
  rewrite Z.add_0_l in *.
  assert (Hlen' : Z.of_nat (length (resultsChan (worker s0 world names))) <= max_int64)
    by lia.
  unfold output.flushJSON. rewrite (flushJSON_fold _ 0 0) by lia.
  unfold output.flushTXT. rewrite flushTXT_length.
  cbn [output.TotalFound output.PublicBuckets output.PrivateBuckets length].
  rewrite !Z.add_0_l. rewrite <- Epu, <- Epr. repeat split; lia.
Qed.

Lemma report_matches_stats_witness :
  let s := worker (scanner.New 1 100 true) liveWorld fiveNames in
  let report := output.flushJSON (resultsChan s) in
  output.PublicBuckets report = Public (stats s)
  /\ output.PrivateBuckets report = Private (stats s)
  /\ output.TotalFound report = Found (stats s) + Errors (stats s)
  /\ Z.of_nat (length (output.flushTXT (resultsChan s))) = Found (stats s).
Proof.
  apply (report_matches_stats 1 100 true liveWorld fiveNames).
  - vm_compute. discriminate.
  - reflexivity.
Defined.

Lemma flushJSON_counts_witness :
  let results := resultsChan (worker (scanner.New 1 100 false) liveWorld fiveNames) in
  let report := output.flushJSON results in
  output.TotalScanned report = 0
  /\ output.Results report = results
  /\ output.TotalFound report = Z.of_nat (length results)
  /\ output.PublicBuckets report
     = Z.of_nat (length (filter (fun r => Probe r = BucketExists) results))
  /\ output.PrivateBuckets report
     = Z.of_nat (length (filter (fun r => Probe r = BucketForbidden) results))
  /\ output.TotalFound report
     = output.PublicBuckets report + output.PrivateBuckets report
       + Z.of_nat (length (filter (fun r => Probe r = BucketError) results))
       + Z.of_nat (length (filter (fun r => Probe r = BucketNotFound) results))
  /\ Z.of_nat (length (output.flushTXT results))
     = output.PublicBuckets report + output.PrivateBuckets report.
Proof.
  apply (flushJSON_counts
           (resultsChan (worker (scanner.New 1 100 false) liveWorld fiveNames))).
  vm_compute. discriminate.
Defined.

(** ** The inspector *)

Import inspector.

(** The recursive call of the source is the one-level unfolding of the model. *)
Lemma checkPublicAccessWithRetry_unfold (net : Network) (region : string)
    (retried : bool) (calls : list string) :
  checkPublicAccessWithRetry net region retried calls =
  checkPublicAccessWithRetry_body
    (fun region calls => checkPublicAccessWithRetry net region true calls)
    net region retried calls.
Proof.
  unfold checkPublicAccessWithRetry at 1.
  unfold checkPublicAccessWithRetry_body at 1 3. cbv zeta.
  destruct (loadConfig net _); [|reflexivity]. simpl.
  destruct (listObjectsV2 net _ _); reflexivity.
Qed.

(** An activation that is itself the retry makes at most one list call. *)
Lemma retried_calls (net : Network) (region : string) (calls : list string) :
  let calls' := (checkPublicAccessWithRetry net region true calls).2 in
  calls' = calls \/ calls' = calls ++ [effectiveRegion region].
Proof.
  cbv zeta. unfold checkPublicAccessWithRetry, checkPublicAccessWithRetry_body.
  fold (effectiveRegion region). cbv zeta.
  destruct (loadConfig net _); [|left; reflexivity]. simpl. right.
  destruct (listObjectsV2 net _ _) as [errStr|output]; [|reflexivity].
  destruct (Contains errStr "AccessDenied"); [reflexivity|].
  destruct (Contains errStr "AllAccessDisabled"); reflexivity.
Qed.

Lemma retried_calls_loaded (net : Network) (region : string) (calls : list string) :
  loadConfig net (effectiveRegion region) = true ->
  (checkPublicAccessWithRetry net region true calls).2 = calls ++ [effectiveRegion region].
Proof.
  intros Hload. unfold checkPublicAccessWithRetry, checkPublicAccessWithRetry_body.
  fold (effectiveRegion region). cbv zeta. rewrite Hload. simpl.
  destruct (listObjectsV2 net _ _) as [errStr|output]; [|reflexivity].
  destruct (Contains errStr "AccessDenied"); [reflexivity|].
  destruct (Contains errStr "AllAccessDisabled"); reflexivity.
Qed.

Lemma firstContained_spec (errMsg : string) (rs : list string) (r : string) :
  firstContained errMsg rs = Some r -> r ∈ rs /\ Contains errMsg r = true.
Proof.
  induction rs as [|r0 rs IH]; simpl; [discriminate|].
  destruct (Contains errMsg r0) eqn:Hc.
  - intros [= <-]. split; [apply elem_of_cons; now left | exact Hc].
  - intros Hf. destruct (IH Hf) as [Hin Hr]. split; [apply elem_of_cons; now right | exact Hr].
Qed.

Lemma parseRegionFromError_known (errMsg : string) :
  parseRegionFromError errMsg ∈ regions.
Proof.
  unfold parseRegionFromError.
  destruct (firstContained errMsg regions) as [r|] eqn:Hf.
  - now apply firstContained_spec in Hf.
  - apply list_elem_of_In. vm_compute. tauto.
Qed.

Lemma known_region_effective (r : string) : r ∈ regions -> effectiveRegion r = r.
Proof.
  intros Hin. apply list_elem_of_In in Hin. unfold regions in Hin. simpl in Hin.
  repeat (destruct Hin as [<- | Hin]; [reflexivity|]). contradiction.
Qed.

Lemma known_region_not_empty (r : string) : r ∈ regions -> r <> "".
Proof.
  intros Hin. apply list_elem_of_In in Hin. unfold regions in Hin. simpl in Hin.
  repeat (destruct Hin as [<- | Hin]; [discriminate|]). contradiction.
Qed.

Lemma effectiveRegion_not_empty (region : string) : effectiveRegion region <> "".
Proof.
  unfold effectiveRegion. case_bool_decide as He; simpl; [discriminate|].
  case_bool_decide; [discriminate | exact He].
Qed.

(** The first activation meeting a region-mismatch error. *)
Lemma checkPublicAccess_mismatch (net : Network) (region errStr : string)
    (calls : list string) :
  loadConfig net (effectiveRegion region) = true ->
  listObjectsV2 net (length calls) (effectiveRegion region) = s3.ListFails errStr ->
  regionMismatch errStr = true ->
  let correctRegion := parseRegionFromError errStr in
  (correctRegion <> effectiveRegion region ->
   checkPublicAccess net region calls =
   checkPublicAccessWithRetry net correctRegion true (calls ++ [effectiveRegion region]))
  /\ (correctRegion = effectiveRegion region ->
      (checkPublicAccess net region calls).2 = calls ++ [effectiveRegion region]).
Proof.
  intros Hload Hlist Hmis correctRegion.
  unfold checkPublicAccess. rewrite checkPublicAccessWithRetry_unfold.
  unfold checkPublicAccessWithRetry_body. fold (effectiveRegion region). cbv zeta.
  rewrite Hload, Hlist. cbn [negb andb]. fold (regionMismatch errStr). rewrite Hmis.
  fold correctRegion. split.
  - intros Hne.
    assert (Hknown : correctRegion <> "")
      by apply known_region_not_empty, parseRegionFromError_known.
    rewrite (bool_decide_eq_true_2 _ Hknown), (bool_decide_eq_true_2 _ Hne).
    reflexivity.
  - intros Heq. rewrite (bool_decide_eq_false_2 (correctRegion ≠ effectiveRegion region))
      by (intros Hn; now apply Hn).
    rewrite andb_false_r.
    destruct (Contains errStr "AccessDenied"); [reflexivity|].
    destruct (Contains errStr "AllAccessDisabled"); reflexivity.
Qed.

(** The region found is the first of the list, in list order, that the
  message contains. *)
Lemma firstContained_first (errMsg : string) (rs : list string) :
  match firstContained errMsg rs with
  | Some r =>
      exists pre post, rs = pre ++ r :: post
        /\ Contains errMsg r = true
        /\ Forall (fun r' => Contains errMsg r' = false) pre
  | None => Forall (fun r' => Contains errMsg r' = false) rs
  end.
Proof.
  induction rs as [|r0 rs IH]; cbn [firstContained]; [constructor|].
  destruct (Contains errMsg r0) eqn:Hc.
  - exists [], rs. split; [reflexivity|]. split; [exact Hc|constructor].
  - destruct (firstContained errMsg rs) as [r|].
    + destruct IH as (pre & post & -> & Hr & Hpre).
      exists (r0 :: pre), post. split; [reflexivity|]. split; [exact Hr|].
      constructor; assumption.
    + constructor; assumption.
Qed.

Lemma parseRegionFromError_first (errMsg : string) :
  let r := parseRegionFromError errMsg in
  (exists pre post, regions = pre ++ r :: post
     /\ Contains errMsg r = true
     /\ Forall (fun r' => Contains errMsg r' = false) pre)
  \/ (Forall (fun r' => Contains errMsg r' = false) regions /\ r = "us-east-1").
Proof.
  cbv zeta. unfold parseRegionFromError.
  pose proof (firstContained_first errMsg regions) as Hf.
  destruct (firstContained errMsg regions) as [r|]; [left; exact Hf|right; auto].
Qed.

(** The inspector of [inspector.go] classifies a failed list attempt from its
  message and consults no other region. *)
Lemma location_checkPublicAccess_fails (net : inspector_location.Network)
    (region errStr : string) :
  inspector_location.loadConfig net (effectiveRegion region) = None ->
  inspector_location.listObjectsV2 net (effectiveRegion region) = s3.ListFails errStr ->
  inspector_location.checkPublicAccess net region =
  Some (mkAccess false
          (if Contains errStr "AccessDenied" then "private"
           else if Contains errStr "AllAccessDisabled" then "disabled"
           else "unknown") [] (-1)).
Proof.
  intros Hload Hlist. unfold inspector_location.checkPublicAccess.
  fold (effectiveRegion region). cbv zeta. rewrite Hload, Hlist.
  destruct (Contains errStr "AccessDenied"); [reflexivity|].
  destruct (Contains errStr "AllAccessDisabled"); reflexivity.
Qed.

Lemma location_checkPublicAccess_one_region (net1 net2 : inspector_location.Network)
    (region : string) :
  inspector_location.loadConfig net1 (effectiveRegion region) =
    inspector_location.loadConfig net2 (effectiveRegion region) ->
  inspector_location.listObjectsV2 net1 (effectiveRegion region) =
    inspector_location.listObjectsV2 net2 (effectiveRegion region) ->
  inspector_location.checkPublicAccess net1 region =
  inspector_location.checkPublicAccess net2 region.
Proof.
  intros Hload Hlist. unfold inspector_location.checkPublicAccess.
  fold (effectiveRegion region). cbv zeta. now rewrite Hload, Hlist.
Qed.

(** C7, as the code runs: in the region-retry scenario the retry succeeds
  but the result keeps the region of the HEAD lookup; and a mismatch error
  whose extracted region is the one just used is not retried at all. *)
Lemma Inspect_retry_keeps_region :
  (let '(result, calls) := Inspect redirectedNetwork 0 "bucket" in
   calls = ["us-east-1"; "eu-west-1"]
   /\ ACL result = "public-read"
   /\ Region result = "us-east-1"
   /\ Region result <> "eu-west-1")
  /\ (let '(result, calls) := Inspect unnamedRedirectNetwork 0 "bucket" in
      regionMismatch "PermanentRedirect" = true
      /\ calls = ["us-east-1"]
      /\ ACL result = "unknown").
Proof.
  split; vm_compute; repeat split; try reflexivity. discriminate.
Qed.

(** C7 (amended): in the inspector of [part_009], when the anonymous list
  attempt fails with a region-mismatch error, the inspector takes the first
  region, in the order of its known list, that occurs in the message
  (us-east-1 when none does) and, if that region differs from the one just
  used, makes the list call once more against it, and never a third time; if
  it does not differ there is no second call.  In the region-retry scenario
  the two calls go to us-east-1 and eu-west-1 and the result is public with
  acl public-read.  The inspector of [inspector.go] makes the list call
  against one region only and classifies a failed attempt from its message,
  region mismatch or not; in the same scenario its result is not public,
  with acl unknown. *)
Theorem checkPublicAccess_region_retry :
  (forall net region errStr calls,
     loadConfig net (effectiveRegion region) = true ->
     listObjectsV2 net (length calls) (effectiveRegion region) = s3.ListFails errStr ->
     regionMismatch errStr = true ->
     let correctRegion := parseRegionFromError errStr in
     correctRegion ∈ regions
     /\ (correctRegion <> effectiveRegion region ->
         checkPublicAccess net region calls =
         checkPublicAccessWithRetry net correctRegion true
           (calls ++ [effectiveRegion region])
         /\ (loadConfig net correctRegion = true ->
             (checkPublicAccess net region calls).2 =
             calls ++ [effectiveRegion region; correctRegion]))
     /\ (correctRegion = effectiveRegion region ->
         (checkPublicAccess net region calls).2 = calls ++ [effectiveRegion region]))
  /\ (forall net region calls,
        (length (checkPublicAccess net region calls).2 <= length calls + 2)%nat)
  /\ (forall errMsg r, firstContained errMsg regions = Some r ->
        parseRegionFromError errMsg = r /\ Contains errMsg r = true)
  /\ (forall errMsg, firstContained errMsg regions = None ->
        parseRegionFromError errMsg = "us-east-1")
  /\ regions =
       ["us-east-1"; "us-east-2"; "us-west-1"; "us-west-2";
        "eu-west-1"; "eu-west-2"; "eu-west-3"; "eu-central-1";
        "ap-south-1"; "ap-northeast-1"; "ap-northeast-2";
        "ap-southeast-1"; "ap-southeast-2"; "sa-east-1"; "ca-central-1"]
  /\ (forall errMsg,
        let r := parseRegionFromError errMsg in
        (exists pre post, regions = pre ++ r :: post
           /\ Contains errMsg r = true
           /\ Forall (fun r' => Contains errMsg r' = false) pre)
        \/ (Forall (fun r' => Contains errMsg r' = false) regions /\ r = "us-east-1"))
  /\ parseRegionFromError "PermanentRedirect: not eu-west-1 but us-east-2" = "us-east-2"
  /\ (let '(result, calls) := Inspect redirectedNetwork 0 "bucket" in
      calls = ["us-east-1"; "eu-west-1"]
      /\ IsPublic result = true
      /\ ACL result = "public-read"
      /\ ObjectCount result = 2
      /\ SampleKeys result = ["a.txt"; "b.txt"])
  /\ (forall net region errStr,
        inspector_location.loadConfig net (effectiveRegion region) = None ->
        inspector_location.listObjectsV2 net (effectiveRegion region)
          = s3.ListFails errStr ->
        inspector_location.checkPublicAccess net region =
        Some (mkAccess false
                (if Contains errStr "AccessDenied" then "private"
                 else if Contains errStr "AllAccessDisabled" then "disabled"
                 else "unknown") [] (-1)))
  /\ (forall net1 net2 region,
        inspector_location.loadConfig net1 (effectiveRegion region) =
          inspector_location.loadConfig net2 (effectiveRegion region) ->
        inspector_location.listObjectsV2 net1 (effectiveRegion region) =
          inspector_location.listObjectsV2 net2 (effectiveRegion region) ->
        inspector_location.checkPublicAccess net1 region =
        inspector_location.checkPublicAccess net2 region)
  /\ (regionMismatch redirectMessage = true
      /\ inspector_location.listObjectsV2 redirectedLocationNetwork "eu-west-1"
         = s3.Listed twoObjects
      /\ inspector_location.Inspect redirectedLocationNetwork 0 "bucket" =
         Some (mkInspectResult "bucket" true false "unknown" "us-east-1" (-1) [] "" 0)).
Proof.
  split.
  { intros net region errStr calls Hload Hlist Hmis correctRegion.
    destruct (checkPublicAccess_mismatch net region errStr calls Hload Hlist Hmis)
      as [Hretry Hstay].
    split; [apply parseRegionFromError_known|]. split; [|exact Hstay].
    intros Hne. split; [now apply Hretry|].
    intros Hload2. rewrite (Hretry Hne).
    assert (Heff : effectiveRegion correctRegion = correctRegion)
      by apply known_region_effective, parseRegionFromError_known.
    rewrite <- Heff in Hload2.
    rewrite (retried_calls_loaded net correctRegion _ Hload2), Heff.
    now rewrite <- app_assoc. }
  split.
  { intros net region calls. unfold checkPublicAccess.
    rewrite checkPublicAccessWithRetry_unfold.
    unfold checkPublicAccessWithRetry_body. fold (effectiveRegion region). cbv zeta.
    destruct (loadConfig net _); [|simpl; lia]. cbn [negb].
    destruct (listObjectsV2 net _ _) as [errStr|output];
      [|cbn [snd]; rewrite length_app; simpl; lia].
    cbn [andb]. fold (regionMismatch errStr).
    match goal with
    | |- context [if regionMismatch errStr then (if ?c then _ else ?ft) else _] =>
        assert (Hft : ft.2 = calls ++ [effectiveRegion region])
          by (destruct (Contains errStr "AccessDenied");
              [reflexivity | destruct (Contains errStr "AllAccessDisabled"); reflexivity]);
        destruct (regionMismatch errStr); cbn [andb];
        [destruct c|]; try (rewrite Hft, length_app; simpl; lia)
    end.
    match goal with
    | |- context [checkPublicAccessWithRetry net ?r true ?c] =>
        destruct (retried_calls net r c) as [-> | ->]
    end; rewrite ?length_app; simpl; lia. }
  split.
  { intros errMsg r Hf. unfold parseRegionFromError. rewrite Hf.
    split; [reflexivity | now apply firstContained_spec in Hf]. }
  split.
  { intros errMsg Hf. unfold parseRegionFromError. now rewrite Hf. }
  split; [reflexivity|].
  split; [exact parseRegionFromError_first|].
  split; [vm_compute; reflexivity|].
  split; [vm_compute; repeat split; reflexivity|].
  split; [exact location_checkPublicAccess_fails|].
  split; [exact location_checkPublicAccess_one_region|].
  split; [vm_compute; reflexivity|].
  split; vm_compute; reflexivity.
Qed.

(** C10: every result of [Inspect] has [Exists] set, whatever the region
  lookup and the list attempt do, in both revisions of the inspector. *)
Theorem Inspect_Exists :
  (forall net now bucket, Exists (Inspect net now bucket).1 = true)
  /\ (forall net now bucket result,
        inspector_location.Inspect net now bucket = Some result ->
        Exists result = true).
Proof.
  split.
  - intros net now bucket. unfold Inspect.
    destruct (getBucketRegion net bucket) as [region [err|]];
      destruct (checkPublicAccess net region []); reflexivity.
  - intros net now bucket result. unfold inspector_location.Inspect.
    destruct (inspector_location.getBucketRegion net) as [region [err|]];
      destruct (inspector_location.checkPublicAccess net region);
      intros [= <-] || discriminate; reflexivity.
Qed.

(** ** The shape of inspection results *)

Import inspect_shapes.

Lemma collectKeys_take (contents : list (option string)) (keys : list string) :
  (length keys < 10)%nat ->
  collectKeys contents keys = take 10 (keys ++ omap id contents).
Proof.
  revert keys. induction contents as [|[key|] contents IH]; intros keys Hlen.
  - cbn. rewrite app_nil_r. symmetry. apply take_ge. lia.
  - cbn [collectKeys]. cbn [omap list_omap id].
    replace (keys ++ key :: omap id contents) with ((keys ++ [key]) ++ omap id contents)
      by now rewrite <- app_assoc.
    destruct (10 <=? length (keys ++ [key]))%nat eqn:E.
    + apply Nat.leb_le in E. rewrite length_app in E. cbn in E.
      symmetry. apply take_app_length'. rewrite length_app. cbn. lia.
    + apply Nat.leb_gt in E. now apply IH.
  - cbn [collectKeys]. cbn [omap list_omap]. now apply IH.
Qed.

(** X10: the sample keys are the first ten keys that are not nil, in the
  order of the listing. *)
Theorem collectKeys_first_ten (contents : list (option string)) :
  collectKeys contents [] = take 10 (omap id contents)
  /\ (length (collectKeys contents []) <= 10)%nat.
Proof.
  rewrite (collectKeys_take contents []) by (cbn; lia). cbn [app].
  split; [reflexivity|]. rewrite length_take. lia.
Qed.

Lemma body_shape (self : string -> list string -> Access * list string)
    (net : Network) (region : string) (retried : bool) (calls : list string) :
  (forall region calls, accessShape (self region calls).1) ->
  accessShape (checkPublicAccessWithRetry_body self net region retried calls).1.
Proof.
  intros Hself. unfold checkPublicAccessWithRetry_body. cbv zeta.
  destruct (loadConfig net _); cbn [negb]; [|right; cbn; auto].
  destruct (listObjectsV2 net _ _) as [errStr|output].
  - assert (Hft : accessShape
        (if Contains errStr "AccessDenied"
         then (mkAccess false "private" [] (-1), calls ++ [effectiveRegion region])
         else if Contains errStr "AllAccessDisabled"
              then (mkAccess false "disabled" [] (-1), calls ++ [effectiveRegion region])
              else (mkAccess false "unknown" [] (-1), calls ++ [effectiveRegion region])).1).
    { destruct (Contains errStr "AccessDenied"); [right; cbn; auto|].
      destruct (Contains errStr "AllAccessDisabled"); right; cbn; auto. }
    unfold effectiveRegion in Hft.
    destruct (negb retried && _); [|exact Hft].
    destruct (_ && _); [apply Hself|exact Hft].
  - left. cbn [fst isPublic acl objects count].
    split; [reflexivity|]. split; [reflexivity|].
    split; [rewrite (collectKeys_take _ []) by (cbn; lia); rewrite length_take; lia|].
    destruct (truncated output); [now left|right; lia].
Qed.

Lemma checkPublicAccess_shape (net : Network) (region : string) (calls : list string) :
  accessShape (checkPublicAccess net region calls).1.
Proof.
  unfold checkPublicAccess, checkPublicAccessWithRetry.
  apply body_shape. intros region' calls'. apply body_shape.
  intros ? ?. right. cbn. auto.
Qed.

(** X11: every result of the inspector of [part_009] names its bucket and
  time, has no error and a region that is not empty, and is either public
  with acl public-read, at most ten sample keys and an object count that is
  -2 or not negative, or not public with acl private, disabled or unknown, no
  sample keys and object count -1. *)
Theorem Inspect_result_shape (net : Network) (now : Z) (bucket : string) :
  let r := (Inspect net now bucket).1 in
  Bucket r = bucket /\ Timestamp r = now /\ Error r = "" /\ Region r <> ""
  /\ ((IsPublic r = true /\ ACL r = "public-read" /\ (length (SampleKeys r) <= 10)%nat
       /\ (ObjectCount r = -2 \/ 0 <= ObjectCount r))
      \/ (IsPublic r = false
          /\ (ACL r = "private" \/ ACL r = "disabled" \/ ACL r = "unknown")
          /\ SampleKeys r = [] /\ ObjectCount r = -1)).
Proof.
  cbv zeta. unfold Inspect.
  assert (Hreg : exists region, getBucketRegion net bucket = (region, None) /\ region <> "").
  { unfold getBucketRegion. destruct (head net bucket) as [region|].
    - case_bool_decide as Hne; [eauto|]. exists "us-east-1". split; [reflexivity|discriminate].
    - exists "us-east-1". split; [reflexivity|discriminate]. }
  destruct Hreg as (region & -> & Hne).
  pose proof (checkPublicAccess_shape net region []) as Hshape.
  destruct (checkPublicAccess net region []) as [access calls].
  cbn [fst Bucket Timestamp Error Region IsPublic ACL SampleKeys ObjectCount].
  split; [reflexivity|]. split; [reflexivity|]. split; [reflexivity|].
  split; [exact Hne|]. exact Hshape.
Qed.

(** X12: the inspector of [inspector.go] fails to return a result exactly
  when the list call succeeds with a nil [KeyCount], which it dereferences. *)
Theorem location_Inspect_panics (net : inspector_location.Network) (now : Z)
    (bucket : string) :
  let region := effectiveRegion (inspector_location.getBucketRegion net).1 in
  inspector_location.Inspect net now bucket = None <->
  inspector_location.loadConfig net region = None
  /\ exists output, inspector_location.listObjectsV2 net region = s3.Listed output
                    /\ s3.KeyCount output = None.
Proof.
  cbv zeta. unfold inspector_location.Inspect.
  destruct (inspector_location.getBucketRegion net) as [region err]. cbn [fst].
  assert (Hacc : inspector_location.checkPublicAccess net region = None <->
    inspector_location.loadConfig net (effectiveRegion region) = None
    /\ exists output,
         inspector_location.listObjectsV2 net (effectiveRegion region) = s3.Listed output
         /\ s3.KeyCount output = None).
  { unfold inspector_location.checkPublicAccess. fold (effectiveRegion region). cbv zeta.
    destruct (inspector_location.loadConfig net (effectiveRegion region)) as [e|].
    - split; [discriminate|intros [? _]; discriminate].
    - destruct (inspector_location.listObjectsV2 net (effectiveRegion region))
        as [errStr|output].
      + split.
        * destruct (Contains errStr "AccessDenied"); [discriminate|].
          destruct (Contains errStr "AllAccessDisabled"); discriminate.
        * intros (_ & output & Hl & _). discriminate.
      + destruct (s3.KeyCount output) as [k|] eqn:Hk.
        * split; [discriminate|]. intros (_ & output' & [= <-] & Hk'). congruence.
        * split; [|reflexivity]. intros _. split; [reflexivity|]. eauto. }
  destruct err as [e|];
    (destruct (inspector_location.checkPublicAccess net region) as [access|];
     [split; [discriminate|intros Hn; apply Hacc in Hn; discriminate]
     |split; [intros _; now apply Hacc|reflexivity]]).
Qed.
